(** * dbarts: tree nodes, the partitioner and the binary codec

    A shallow embedding of [src/dbarts/node.cpp], [node.hpp], [tree.hpp] and
    [binaryIO.cpp], with the properties of the tree structure, of the
    partition of observation indices and of the checkpoint codec. *)

From Stdlib Require Import ZArith Lia Bool PrimFloat Uint63 Permutation.
From stdpp Require Import base option list gmap strings.
From Equations Require Import Equations.

Local Open Scope Z_scope.

(** ** Scalar types *)

(** [xint_t]: Modelled from the spec: the integer code of a predictor value
    (the index of the cutpoint interval it falls in, or a category id).  The
    declaration lives in [dbarts/types.hpp]; the packed comparisons of
    node.cpp ([_mm_cmpgt_epu16]) and its [%hu] formats make it an unsigned
    16-bit integer, so a value is a [Z] in [0, 2^16). *)
Definition xint_t := Z.

(** [double]: IEEE-754 binary64, Rocq's primitive floats. *)
Definition double := float.

(** Modelled from the spec: the per-predictor type tag {ordinal,
    categorical} of [dbarts/types.hpp]. *)
Inductive VariableType := ORDINAL | CATEGORICAL.

Definition VariableType_eqb (a b : VariableType) : bool :=
  match a, b with
  | ORDINAL, ORDINAL | CATEGORICAL, CATEGORICAL => true
  | _, _ => false
  end.

(** The fields of [Data], [SharedScratch] and [BARTFit] that node.cpp reads. *)
Record Data := mkData {
  numObservations_d : nat;
  numPredictors : nat;
  variableTypes : list VariableType;
  weights : option (list double)        (* NULL when there are no weights *)
}.

Record SharedScratch := mkSharedScratch {
  x : list xint_t    (* numPredictors columns of numObservations codes each *)
}.

Record BARTFit := mkBARTFit {
  data : Data;
  sharedScratch : SharedScratch
}.

(** ** Rule *)

Definition DBARTS_INVALID_RULE_VARIABLE : Z := -1.

(** [splitIndex] (int32) and [categoryDirections] (uint32) are the two
    members of one union: the same 32 bits read signed or unsigned. *)
Record Rule := mkRule {
  variableIndex : Z;
  splitIndex : Z
}.

Definition categoryDirections (r : Rule) : Z := splitIndex r mod 2 ^ 32.

Definition invalidate (r : Rule) : Rule :=
  mkRule DBARTS_INVALID_RULE_VARIABLE DBARTS_INVALID_RULE_VARIABLE.

(** [((1u << categoryId) & categoryDirections) != 0]; the shift is kept in
    32 bits (C leaves a shift by 32 or more undefined). *)
Definition categoryGoesRight (r : Rule) (categoryId : Z) : bool :=
  negb (Z.land (Z.shiftl 1 categoryId mod 2 ^ 32) (categoryDirections r) =? 0).

(** Reading [a[i]] for a signed index; a negative index or one past the end
    is outside the C array, the model reads the default there. *)
Definition zth {A} (d : A) (a : list A) (i : Z) : A := nth (Z.to_nat i) a d.

Definition goesRight (fit : BARTFit) (r : Rule) (xt : list xint_t) : bool :=
  if VariableType_eqb (zth ORDINAL (variableTypes (data fit)) (variableIndex r)) CATEGORICAL
  then
    let categoryId := zth 0 xt (variableIndex r) mod 2 ^ 32 in
    categoryGoesRight r categoryId
  else
    zth 0 xt (variableIndex r) >? splitIndex r.

Definition Rule_copyFrom (other : Rule) : Rule :=
  if variableIndex other =? DBARTS_INVALID_RULE_VARIABLE
  then mkRule DBARTS_INVALID_RULE_VARIABLE DBARTS_INVALID_RULE_VARIABLE
  else mkRule (variableIndex other) (splitIndex other).

Definition Rule_equals (r other : Rule) : bool :=
  if negb (variableIndex r =? variableIndex other) then false
  else splitIndex r =? splitIndex other.

(** ** Node *)

(** The leaf member [m] of the node's union. *)
Record EndNode := mkEndNode {
  average : double;
  numEffectiveObservations : double
}.

Definition BART_INVALID_NODE_ENUM : Z := 2 ^ 64 - 1.

(** The fields every node has.  [parent] is only ever compared with NULL,
    so the model keeps that bit; [observationIndices] points into the index
    array of the tree and is kept as an offset into it, [None] for NULL. *)
Record NodeInfo := mkNodeInfo {
  parentIsNull : bool;
  enumerationIndex : Z;
  variablesAvailableForSplit : list bool;
  observationIndices : option nat;
  numObservations : nat
}.

(** [leftChild] doubles as the discriminant of the union: NULL for a bottom
    node, which holds [m]; otherwise the node holds [p], the right child and
    the rule. *)
Inductive Node :=
| Bottom (info : NodeInfo) (m : EndNode)
| Parent (info : NodeInfo) (leftChild rightChild : Node) (rule : Rule).

Definition NodeVector := list Node.

Definition getInfo (n : Node) : NodeInfo :=
  match n with Bottom i _ => i | Parent i _ _ _ => i end.

Definition setInfo (n : Node) (i : NodeInfo) : Node :=
  match n with Bottom _ m => Bottom i m | Parent _ l r rule => Parent i l r rule end.

Definition isTop (n : Node) : bool := parentIsNull (getInfo n).

Definition isBottom (n : Node) : bool :=
  match n with Bottom _ _ => true | Parent _ _ _ _ => false end.

Definition childrenAreBottom (n : Node) : bool :=
  match n with
  | Bottom _ _ => false
  | Parent _ l r _ => isBottom l && isBottom r
  end.

Definition getNumObservations (n : Node) : nat := numObservations (getInfo n).

Fixpoint getNumBottomNodes (n : Node) : nat :=
  match n with
  | Bottom _ _ => 1
  | Parent _ l r _ => (getNumBottomNodes l + getNumBottomNodes r)%nat
  end.

Fixpoint getNumNotBottomNodes (n : Node) : nat :=
  match n with
  | Bottom _ _ => 0
  | Parent _ l r _ => (getNumNotBottomNodes l + getNumNotBottomNodes r + 1)%nat
  end.

Fixpoint getNumNoGrandNodes (n : Node) : nat :=
  match n with
  | Bottom _ _ => 0
  | Parent _ l r _ =>
      if childrenAreBottom n then 1%nat
      else (getNumNoGrandNodes l + getNumNoGrandNodes r)%nat
  end.

Fixpoint getNumSwappableNodes (n : Node) : nat :=
  match n with
  | Bottom _ _ => 0
  | Parent _ l r _ =>
      if childrenAreBottom n then 0%nat
      else if (isBottom l || childrenAreBottom l) && (isBottom r || childrenAreBottom r)
      then 1%nat
      else (getNumSwappableNodes l + getNumSwappableNodes r + 1)%nat
  end.

(** The [fill...Vector] helpers push onto the vector they are handed. *)
Definition push_back (result : NodeVector) (n : Node) : NodeVector := result ++ [n].

Fixpoint fillBottomVector (node : Node) (result : NodeVector) : NodeVector :=
  match node with
  | Bottom _ _ => push_back result node
  | Parent _ l r _ => fillBottomVector r (fillBottomVector l result)
  end.

Fixpoint fillNoGrandVector (node : Node) (result : NodeVector) : NodeVector :=
  match node with
  | Bottom _ _ => result
  | Parent _ l r _ =>
      if childrenAreBottom node then push_back result node
      else fillNoGrandVector r (fillNoGrandVector l result)
  end.

Fixpoint fillNotBottomVector (node : Node) (result : NodeVector) : NodeVector :=
  match node with
  | Bottom _ _ => result
  | Parent _ l r _ =>
      if childrenAreBottom node then push_back result node
      else push_back (fillNotBottomVector r (fillNotBottomVector l result)) node
  end.

Fixpoint fillSwappableVector (node : Node) (result : NodeVector) : NodeVector :=
  match node with
  | Bottom _ _ => result
  | Parent _ l r _ =>
      if childrenAreBottom node then result
      else if (isBottom l || childrenAreBottom l) && (isBottom r || childrenAreBottom r)
      then push_back result node
      else push_back (fillSwappableVector r (fillSwappableVector l result)) node
  end.

Definition getBottomVector (n : Node) : NodeVector := fillBottomVector n [].
Definition getNoGrandVector (n : Node) : NodeVector := fillNoGrandVector n [].
Definition getNotBottomVector (n : Node) : NodeVector := fillNotBottomVector n [].
Definition getSwappableVector (n : Node) : NodeVector := fillSwappableVector n [].

(** [xt[p.rule.variableIndex] > p.rule.splitIndex]: the row's code is
    promoted to int and compared with the signed split index. *)
Fixpoint findBottomNode (fit : BARTFit) (xt : list xint_t) (n : Node) : Node :=
  match n with
  | Bottom _ _ => n
  | Parent _ l r rule =>
      if zth 0 xt (variableIndex rule) >? splitIndex rule
      then findBottomNode fit xt r
      else findBottomNode fit xt l
  end.

(** ** Partitioner *)

(** [misc_partitionRange] and [misc_partitionIndices] of
    [misc/partition.h], which node.cpp calls, are not part of these
    sources: they are parameters.  Each is handed the column of a predictor,
    the cut, and the slice with its length; it returns the number of
    observations on the left and the slice as it leaves it. *)
Class MiscPartition := {
  misc_partitionRange : list xint_t -> Z -> list nat -> nat -> nat * list nat;
  misc_partitionIndices : list xint_t -> Z -> list nat -> nat -> nat * list nat
}.

(** [fit.sharedScratch.x + rule.variableIndex * fit.data.numObservations] *)
Definition columnOf (fit : BARTFit) (rule : Rule) : list xint_t :=
  drop (Z.to_nat (variableIndex rule * Z.of_nat (numObservations_d (data fit))))
       (x (sharedScratch fit)).

Definition partitionRange {P : MiscPartition} (fit : BARTFit) (rule : Rule)
    (indices : list nat) (length : nat) : nat * list nat :=
  misc_partitionRange (columnOf fit rule) (splitIndex rule) indices length.

Definition partitionIndices {P : MiscPartition} (fit : BARTFit) (rule : Rule)
    (indices : list nat) (length : nat) : nat * list nat :=
  misc_partitionIndices (columnOf fit rule) (splitIndex rule) indices length.

(** What the tree needs of a partitioner: on a slice that is not empty, a
    count within the slice and the entries of the slice in some order; in
    range mode the numbers below the length of the slice in some order. *)
Definition partitionContract (P : MiscPartition) : Prop :=
  forall x cut indices, indices <> [] ->
    (let '(k, out) := misc_partitionIndices x cut indices (length indices) in
     (k <= length out)%nat /\ indices ≡ₚ out) /\
    (let '(k, out) := misc_partitionRange x cut indices (length indices) in
     (k <= length out)%nat /\ seq 0 (length indices) ≡ₚ out).

(** Modelled from the spec: the partitioner that the spec describes, "a
    scalar two-pointer (Hoare-style) in-place partition".  The model is the
    scalar loop that node.cpp keeps, commented out, in the body of its two
    wrappers.  The cut is compared as an int, as in that loop. *)

(** [x[indices[i]]] *)
Definition key (x : list xint_t) (indices : list nat) (i : nat) : xint_t :=
  nth (nth i indices 0%nat) x 0.

(** [temp = indices[rh]; indices[rh] = indices[lh]; indices[lh] = temp] *)
Definition swapIndices (indices : list nat) (lh rh : nat) : list nat :=
  let temp := nth rh indices 0%nat in
  <[lh := temp]> (<[rh := nth lh indices 0%nat]> indices).

(** [while (x[indices[lh]] <= cut && lh < rh) ++lh;]  The body runs only
    while [lh < rh], so at most [rh - lh] times. *)
Fixpoint scanLeft_rounds (rounds : nat) (x : list xint_t) (cut : Z)
    (indices : list nat) (lh : nat) : nat :=
  match rounds with
  | O => lh
  | S rounds' =>
      if key x indices lh <=? cut
      then scanLeft_rounds rounds' x cut indices (S lh)
      else lh
  end.

Definition scanLeft (x : list xint_t) (cut : Z) (indices : list nat) (lh rh : nat) : nat :=
  scanLeft_rounds (rh - lh) x cut indices lh.

(** [while (x[indices[rh]] > cut && lh < rh) --rh;] *)
Fixpoint scanRight_rounds (rounds : nat) (x : list xint_t) (cut : Z)
    (indices : list nat) (rh : nat) : nat :=
  match rounds with
  | O => rh
  | S rounds' =>
      if key x indices rh >? cut
      then scanRight_rounds rounds' x cut indices (Nat.pred rh)
      else rh
  end.

Definition scanRight (x : list xint_t) (cut : Z) (indices : list nat) (lh rh : nat) : nat :=
  scanRight_rounds (rh - lh) x cut indices rh.

(** The outer [while (true)] loop.  Every round that does not break moves
    both ends inwards, so [length] rounds are more than the loop can use
    (lemma [partitionIndices_loop_spec] below never reaches the [O] case). *)
Fixpoint partitionIndices_loop (rounds : nat) (x : list xint_t) (cut : Z)
    (indices : list nat) (lh rh : nat) : list nat * nat :=
  match rounds with
  | O => (indices, lh)
  | S rounds' =>
      let lh := scanLeft x cut indices lh rh in
      let rh := scanRight x cut indices lh rh in
      if (rh <=? lh)%nat then (indices, lh)
      else partitionIndices_loop rounds' x cut (swapIndices indices lh rh)
             (S lh) (Nat.pred rh)
  end.

(** Returns the number of observations on the left and the permuted
    indices.  [length] is the length of the slice that [indices] is. *)
Definition scalar_partitionIndices (x : list xint_t) (cut : Z)
    (indices : list nat) (length : nat) : nat * list nat :=
  if (length =? 0)%nat then (0%nat, indices)
  else
    let '(indices, lh) := partitionIndices_loop length x cut indices 0 (length - 1) in
    let lengthOfLeft := if key x indices lh <=? cut then S lh else lh in
    (lengthOfLeft, indices).

(** Range mode: the buffer is first filled with [0 .. length), and while an
    entry has not been moved its value is its position, so the loop reads
    [x[lh]] and stores the positions themselves. *)
Fixpoint scanLeftRange_rounds (rounds : nat) (x : list xint_t) (cut : Z) (lh : nat) : nat :=
  match rounds with
  | O => lh
  | S rounds' =>
      if nth lh x 0 <=? cut then scanLeftRange_rounds rounds' x cut (S lh) else lh
  end.

Fixpoint scanRightRange_rounds (rounds : nat) (x : list xint_t) (cut : Z) (rh : nat) : nat :=
  match rounds with
  | O => rh
  | S rounds' =>
      if nth rh x 0 >? cut then scanRightRange_rounds rounds' x cut (Nat.pred rh) else rh
  end.

Fixpoint partitionRange_loop (rounds : nat) (x : list xint_t) (cut : Z)
    (indices : list nat) (lh rh : nat) : list nat * nat :=
  match rounds with
  | O => (indices, lh)
  | S rounds' =>
      let lh := scanLeftRange_rounds (rh - lh) x cut lh in
      let rh := scanRightRange_rounds (rh - lh) x cut rh in
      if (rh <=? lh)%nat then (indices, lh)
      else partitionRange_loop rounds' x cut (<[lh := rh]> (<[rh := lh]> indices))
             (S lh) (Nat.pred rh)
  end.

Definition scalar_partitionRange (x : list xint_t) (cut : Z)
    (indices : list nat) (length : nat) : nat * list nat :=
  if (length =? 0)%nat then (0%nat, indices)
  else
    let indices := seq 0 length ++ drop length indices in
    let '(indices, lh) := partitionRange_loop length x cut indices 0 (length - 1) in
    let lengthOfLeft := if key x indices lh <=? cut then S lh else lh in
    (lengthOfLeft, indices).

Definition scalarPartition : MiscPartition := {|
  misc_partitionRange := scalar_partitionRange;
  misc_partitionIndices := scalar_partitionIndices
|}.

(** The row of predictor codes of observation [i], as [goesRight] and
    [findBottomNode] take it: entry [v] is [x[v * numObservations + i]]. *)
Definition observationRow (fit : BARTFit) (i : nat) : list xint_t :=
  map (fun v => nth (v * numObservations_d (data fit) + i)%nat (x (sharedScratch fit)) 0)
      (seq 0 (numPredictors (data fit))).

(** ** Leaf statistics and the external reductions *)

(** The reductions of [misc/stats.h] that node.cpp calls through the thread
    manager are not part of these sources; they are taken as parameters.
    Each returns when the reduction is complete, so the thread manager and
    the task id do not show in the model.  A weighted mean also stores the
    sum of the weights through its last argument: the second component.
    [indeterminate] is what a read of storage that was never written, or
    that was written as the other member of the union, yields. *)
Class MiscStats := {
  misc_htm_computeMean : list double -> nat -> double;
  misc_htm_computeWeightedMean : list double -> nat -> list double -> double * double;
  misc_htm_computeIndexedMean : list double -> list nat -> nat -> double;
  misc_htm_computeIndexedWeightedMean :
    list double -> list nat -> nat -> list double -> double * double;
  indeterminate : EndNode
}.

(** [static_cast<double>(numObservations)] *)
Definition double_of_size_t (n : nat) : double := PrimFloat.of_uint63 (Uint63.of_Z (Z.of_nat n)).

(** The [numObservations] entries that [observationIndices] points to in
    the index array of the tree, and the array after they are replaced.
    Reading through NULL is undefined in C; the model reads nothing. *)
Definition readSlice (treeIndices : list nat) (p : option nat) (n : nat) : list nat :=
  match p with
  | Some start => take n (drop start treeIndices)
  | None => []
  end.

Definition writeSlice (treeIndices : list nat) (p : option nat) (slice : list nat) : list nat :=
  match p with
  | Some start => take start treeIndices ++ slice ++ drop (start + length slice) treeIndices
  | None => treeIndices
  end.

Definition setObservations (n : Node) (p : option nat) (num : nat) : Node :=
  let i := getInfo n in
  setInfo n (mkNodeInfo (parentIsNull i) (enumerationIndex i)
               (variablesAvailableForSplit i) p num).

Definition setAverageField (m : EndNode) (a : double) : EndNode :=
  mkEndNode a (numEffectiveObservations m).

Fixpoint clearObservations (n : Node) : Node :=
  let i := getInfo n in
  let i' := if negb (parentIsNull i)
            then mkNodeInfo (parentIsNull i) (enumerationIndex i)
                   (variablesAvailableForSplit i) None 0
            else i in
  match n with
  | Parent _ l r rule => Parent i' (clearObservations l) (clearObservations r) rule
  | Bottom _ m => Bottom i' (setAverageField m 0%float)
  end.

Fixpoint getNumNodes (n : Node) : nat :=
  match n with
  | Bottom _ _ => 1
  | Parent _ l r _ => S (getNumNodes l + getNumNodes r)
  end.

(** The mean of a bottom node, as [addObservationsToChildren] and
    [setAverage] compute it. *)
Definition leafStatistics {S : MiscStats} (fit : BARTFit) (y : list double)
    (i : NodeInfo) (m : EndNode) (treeIndices : list nat) : EndNode :=
  let slice := readSlice treeIndices (observationIndices i) (numObservations i) in
  if parentIsNull i then
    match weights (data fit) with
    | None =>
        mkEndNode (misc_htm_computeMean y (numObservations i))
                  (double_of_size_t (numObservations i))
    | Some w =>
        let '(mean, n) := misc_htm_computeWeightedMean y (numObservations i) w in
        mkEndNode mean n
    end
  else
    match weights (data fit) with
    | None =>
        mkEndNode (misc_htm_computeIndexedMean y slice (numObservations i))
                  (double_of_size_t (numObservations i))
    | Some w =>
        let '(mean, n) := misc_htm_computeIndexedWeightedMean y slice (numObservations i) w in
        mkEndNode mean n
    end.

(** [Node::addObservationsToChildren(fit, chainNum, y)].  The node is
    handed over with the index array of its tree and both come back. *)
Equations? addObservationsToChildren {S : MiscStats} {P : MiscPartition}
    (fit : BARTFit) (chainNum : nat)
    (y : list double) (node : Node) (treeIndices : list nat)
    : Node * list nat by wf (getNumNodes node) lt :=
  addObservationsToChildren fit chainNum y (Bottom i m) treeIndices :=
    (Bottom i (leafStatistics fit y i m treeIndices), treeIndices);
  addObservationsToChildren fit chainNum y (Parent i l r rule) treeIndices :=
    let l := clearObservations l in
    let r := clearObservations r in
    if (0 <? numObservations i)%nat then
      let slice := readSlice treeIndices (observationIndices i) (numObservations i) in
      let '(numOnLeft, slice) :=
        if parentIsNull i
        then partitionRange fit rule slice (numObservations i)
        else partitionIndices fit rule slice (numObservations i) in
      let treeIndices := writeSlice treeIndices (observationIndices i) slice in
      let l := setObservations l (observationIndices i) numOnLeft in
      let r := setObservations r ((fun p => (p + numOnLeft)%nat) <$> observationIndices i)
                 (numObservations i - numOnLeft) in
      let '(l, treeIndices) := addObservationsToChildren fit chainNum y l treeIndices in
      let '(r, treeIndices) := addObservationsToChildren fit chainNum y r treeIndices in
      (Parent i l r rule, treeIndices)
    else (Parent i l r rule, treeIndices).
Proof.
  all: assert (Hclear : forall n, getNumNodes (clearObservations n) = getNumNodes n)
    by (induction n; simpl; congruence).
  all: assert (Hset : forall n p num, getNumNodes (setObservations n p num) = getNumNodes n)
    by (by destruct n).
  all: repeat match goal with v := _ |- _ => subst v end.
  all: rewrite Hset, Hclear; lia.
Qed.

(** [Node::addObservationsToChildren(fit)], the variant without statistics. *)
Equations? addObservationsToChildren_nostats {P : MiscPartition} (fit : BARTFit)
    (node : Node) (treeIndices : list nat)
    : Node * list nat by wf (getNumNodes node) lt :=
  addObservationsToChildren_nostats fit (Bottom i m) treeIndices :=
    (Bottom i (setAverageField m 0%float), treeIndices);
  addObservationsToChildren_nostats fit (Parent i l r rule) treeIndices :=
    let l := clearObservations l in
    let r := clearObservations r in
    if (0 <? numObservations i)%nat then
      let slice := readSlice treeIndices (observationIndices i) (numObservations i) in
      let '(numOnLeft, slice) :=
        if parentIsNull i
        then partitionRange fit rule slice (numObservations i)
        else partitionIndices fit rule slice (numObservations i) in
      let treeIndices := writeSlice treeIndices (observationIndices i) slice in
      let l := setObservations l (observationIndices i) numOnLeft in
      let r := setObservations r ((fun p => (p + numOnLeft)%nat) <$> observationIndices i)
                 (numObservations i - numOnLeft) in
      let '(l, treeIndices) := addObservationsToChildren_nostats fit l treeIndices in
      let '(r, treeIndices) := addObservationsToChildren_nostats fit r treeIndices in
      (Parent i l r rule, treeIndices)
    else (Parent i l r rule, treeIndices).
Proof.
  all: assert (Hclear : forall n, getNumNodes (clearObservations n) = getNumNodes n)
    by (induction n; simpl; congruence).
  all: assert (Hset : forall n p num, getNumNodes (setObservations n p num) = getNumNodes n)
    by (by destruct n).
  all: repeat match goal with v := _ |- _ => subst v end.
  all: rewrite Hset, Hclear; lia.
Qed.

(** ** Construction, split and orphanChildren *)

(** [Node::Node(observationIndices, numObservations, numPredictors)], the
    node at the top of a tree.  The union is not initialised. *)
Definition Node_top {S : MiscStats} (observationIndices : option nat)
    (numObservations numPredictors : nat) : Node :=
  Bottom (mkNodeInfo true BART_INVALID_NODE_ENUM (replicate numPredictors true)
            observationIndices numObservations)
         indeterminate.

(** [Node::Node(parent, numPredictors)], the node that [split] creates. *)
Definition Node_child {S : MiscStats} (parent : NodeInfo) (numPredictors : nat) : Node :=
  Bottom (mkNodeInfo false BART_INVALID_NODE_ENUM
            (take numPredictors (variablesAvailableForSplit parent)) None 0)
         indeterminate.

(** [node->variablesAvailableForSplit[variableIndex] = false] *)
Definition exhaustVariable (n : Node) (variableIndex : Z) : Node :=
  let i := getInfo n in
  setInfo n (mkNodeInfo (parentIsNull i) (enumerationIndex i)
               (<[Z.to_nat variableIndex := false]> (variablesAvailableForSplit i))
               (observationIndices i) (numObservations i)).

(** How a call ends: it returns, or [ext_throwError] leaves it. *)
Inductive Outcome :=
| Returned
| Threw (message : string).

(** The message of the [ext_throwError] of [split]: the C literal ends
    in one newline, the character 10. *)
Definition ruleNotSet : string :=
  String.append "error in split: rule not set" (String (Ascii.ascii_of_nat 10) EmptyString).

(** A node together with the index array of its tree. *)
Definition NodeState : Type := Node * list nat.

Definition splitChildren {S : MiscStats} (fit : BARTFit) (node : Node) (newRule : Rule)
    (exhaustedLeftSplits exhaustedRightSplits : bool) : Node :=
  let leftChild := Node_child (getInfo node) (numPredictors (data fit)) in
  let rightChild := Node_child (getInfo node) (numPredictors (data fit)) in
  let leftChild :=
    if exhaustedLeftSplits then exhaustVariable leftChild (variableIndex newRule)
    else leftChild in
  let rightChild :=
    if exhaustedRightSplits then exhaustVariable rightChild (variableIndex newRule)
    else rightChild in
  Parent (getInfo node) leftChild rightChild newRule.

(** [Node::split(fit, chainNum, newRule, y, exhaustedLeftSplits,
    exhaustedRightSplits)] *)
Definition split {S : MiscStats} {P : MiscPartition}
    (fit : BARTFit) (chainNum : nat) (newRule : Rule)
    (y : list double) (exhaustedLeftSplits exhaustedRightSplits : bool)
    (st : NodeState) : Outcome * NodeState :=
  if variableIndex newRule <? 0 then (Threw ruleNotSet, st)
  else
    let '(node, treeIndices) := st in
    let node := splitChildren fit node newRule exhaustedLeftSplits exhaustedRightSplits in
    (Returned, addObservationsToChildren fit chainNum y node treeIndices).

(** [Node::split(fit, newRule, exhaustedLeftSplits, exhaustedRightSplits)] *)
Definition split_nostats {S : MiscStats} {P : MiscPartition} (fit : BARTFit) (newRule : Rule)
    (exhaustedLeftSplits exhaustedRightSplits : bool)
    (st : NodeState) : Outcome * NodeState :=
  if variableIndex newRule <? 0 then (Threw ruleNotSet, st)
  else
    let '(node, treeIndices) := st in
    let node := splitChildren fit node newRule exhaustedLeftSplits exhaustedRightSplits in
    (Returned, addObservationsToChildren_nostats fit node treeIndices).

(** The member [m] of a node.  In a node with children the union holds [p],
    and reading [m] yields no value that the program has stored. *)
Definition getM {S : MiscStats} (n : Node) : EndNode :=
  match n with
  | Bottom _ m => m
  | Parent _ _ _ _ => indeterminate
  end.

(** [Node::orphanChildren()].  It reads through [leftChild], so it is
    called on a node with children only: [None] on a bottom node. *)
Definition orphanChildren {S : MiscStats} (node : Node) : option Node :=
  match node with
  | Bottom _ _ => None
  | Parent i leftChild rightChild _ =>
      let l := getM leftChild in
      let r := getM rightChild in
      let numEffectiveObservations' :=
        (numEffectiveObservations l + numEffectiveObservations r)%float in
      let average' :=
        (average l * (numEffectiveObservations l / numEffectiveObservations')
         + average r * (numEffectiveObservations r / numEffectiveObservations'))%float in
      Some (Bottom i (mkEndNode average' numEffectiveObservations'))
  end.

(** ** Sequences of operations on a tree *)

(** A tree: the node at its top and the index array its nodes point into. *)
Record Tree := mkTree {
  top : Node;
  treeIndices : list nat
}.

(** [Tree::Tree(indices, numObservations, numPredictors)] *)
Definition Tree_new {S : MiscStats} (indices : list nat) (numPredictors : nat) : Tree :=
  mkTree (Node_top (Some 0%nat) (length indices) numPredictors) indices.

(** The operations of the state machine Leaf <-> Internal, each on the node
    that a path from the top leads to ([false] for left, [true] for right). *)
Inductive TreeOp :=
| OpSplit (path : list bool) (chainNum : nat) (newRule : Rule) (y : list double)
    (exhaustedLeftSplits exhaustedRightSplits : bool)
| OpSplitNoStats (path : list bool) (newRule : Rule)
    (exhaustedLeftSplits exhaustedRightSplits : bool)
| OpOrphanChildren (path : list bool).

(** Runs [f] on the node at the end of [path]; [None] when the path leaves
    the tree. *)
Fixpoint atPath (f : NodeState -> option NodeState) (path : list bool)
    (node : Node) (indices : list nat) : option NodeState :=
  match path with
  | [] => f (node, indices)
  | goRight :: path' =>
      match node with
      | Bottom _ _ => None
      | Parent i l r rule =>
          if goRight
          then '(r', indices') ← atPath f path' r indices; Some (Parent i l r' rule, indices')
          else '(l', indices') ← atPath f path' l indices; Some (Parent i l' r rule, indices')
      end
  end.

Definition returned (r : Outcome * NodeState) : option NodeState :=
  match r with
  | (Returned, st) => Some st
  | (Threw _, _) => None
  end.

(** One operation.  An operation that throws, and one that has no node to
    act on, leaves the tree as it is. *)
Definition applyOp {S : MiscStats} {P : MiscPartition}
    (fit : BARTFit) (op : TreeOp) (t : Tree) : Tree :=
  let result :=
    match op with
    | OpSplit path chainNum newRule y el er =>
        atPath (fun st => returned (split fit chainNum newRule y el er st))
               path (top t) (treeIndices t)
    | OpSplitNoStats path newRule el er =>
        atPath (fun st => returned (split_nostats fit newRule el er st))
               path (top t) (treeIndices t)
    | OpOrphanChildren path =>
        atPath (fun st => n ← orphanChildren st.1; Some (n, st.2))
               path (top t) (treeIndices t)
    end in
  match result with
  | Some (node, indices) => mkTree node indices
  | None => t
  end.

Definition applyOps {S : MiscStats} {P : MiscPartition}
    (fit : BARTFit) (ops : list TreeOp) (t : Tree) : Tree :=
  foldl (fun t op => applyOp fit op t) t ops.

(** The entries of the index array that the bottom nodes own, from left to
    right, and the slice of every node against the slice of its parent. *)
Fixpoint bottomObservations (indices : list nat) (n : Node) : list nat :=
  match n with
  | Bottom i _ => readSlice indices (observationIndices i) (numObservations i)
  | Parent _ l r _ => bottomObservations indices l ++ bottomObservations indices r
  end.

(** The positions [start, start + n) of a slice lie within those of the
    slice of the parent; a slice without entries lies within any. *)
Definition sliceWithin (child parent : NodeInfo) : Prop :=
  numObservations child = 0%nat \/
  exists c p, observationIndices child = Some c /\ observationIndices parent = Some p /\
    (p <= c)%nat /\ (c + numObservations child <= p + numObservations parent)%nat.

Fixpoint slicesNested (n : Node) : Prop :=
  match n with
  | Bottom _ _ => True
  | Parent i l r _ =>
      sliceWithin (getInfo l) i /\ sliceWithin (getInfo r) i /\
      slicesNested l /\ slicesNested r
  end.

(** Modelled from the spec: sequential reductions, a mean as the sum of the
    values over their number (0 for no values), a weighted mean as the
    weighted sum over the sum of the weights. *)
Definition sumDoubles (v : list double) : double := foldl PrimFloat.add 0%float v.

Definition meanOf (v : list double) : double :=
  match v with
  | [] => 0%float
  | _ => (sumDoubles v / double_of_size_t (length v))%float
  end.

Definition weightedMeanOf (v w : list double) : double * double :=
  let n := sumDoubles w in
  ((sumDoubles (zip_with PrimFloat.mul v w) / n)%float, n).

Definition gather (v : list double) (indices : list nat) : list double :=
  map (fun i => nth i v 0%float) indices.

Definition sequentialStats : MiscStats := {|
  misc_htm_computeMean y n := meanOf (take n y);
  misc_htm_computeWeightedMean y n w := weightedMeanOf (take n y) (take n w);
  misc_htm_computeIndexedMean y indices n := meanOf (gather y (take n indices));
  misc_htm_computeIndexedWeightedMean y indices n w :=
    weightedMeanOf (gather y (take n indices)) (gather w (take n indices));
  indeterminate := mkEndNode 0%float 0%float
|}.

(** ** What the partitioner is to establish *)

(** A rule is valid when its variable is one of the predictors. *)
Definition validRule (fit : BARTFit) (rule : Rule) : Prop :=
  0 <= variableIndex rule < Z.of_nat (numPredictors (data fit)).

Definition categoricalRule (fit : BARTFit) (rule : Rule) : bool :=
  VariableType_eqb (zth ORDINAL (variableTypes (data fit)) (variableIndex rule)) CATEGORICAL.

(** [after] holds the entries of [before] in some order, those of its
    first [k] positions do not go right under the rule, the others do. *)
Definition partitioned (fit : BARTFit) (rule : Rule) (before : list nat)
    (result : nat * list nat) : Prop :=
  let '(k, after) := result in
  (k <= length after)%nat /\
  Permutation before after /\
  (forall p, (p < k)%nat ->
     goesRight fit rule (observationRow fit (nth p after 0%nat)) = false) /\
  (forall p, (k <= p < length after)%nat ->
     goesRight fit rule (observationRow fit (nth p after 0%nat)) = true).

(** ** The descent of the spec and the shape of a tree *)

(** The descent as the spec words it: at each node with children, to the
    right child exactly when [Rule::goesRight] holds of the row. *)
Fixpoint descendByGoesRight (fit : BARTFit) (xt : list xint_t) (n : Node) : Node :=
  match n with
  | Bottom _ _ => n
  | Parent _ l r rule =>
      if goesRight fit rule xt
      then descendByGoesRight fit xt r
      else descendByGoesRight fit xt l
  end.

(** No rule of the tree is over a categorical variable. *)
Fixpoint rulesOrdinal (fit : BARTFit) (n : Node) : bool :=
  match n with
  | Bottom _ _ => true
  | Parent _ l r rule =>
      negb (categoricalRule fit rule) && rulesOrdinal fit l && rulesOrdinal fit r
  end.

(** No node below [n] claims to be the top of a tree. *)
Fixpoint notTopBelow (n : Node) : Prop :=
  match n with
  | Bottom _ _ => True
  | Parent _ l r _ =>
      parentIsNull (getInfo l) = false /\ parentIsNull (getInfo r) = false /\
      notTopBelow l /\ notTopBelow r
  end.

(** The node owns the [len] positions from [start] on, and the slices of
    its children split them in two, left before right.  A node without
    observations may point anywhere. *)
Fixpoint shape (isTop : bool) (start len : nat) (n : Node) : Prop :=
  parentIsNull (getInfo n) = isTop /\
  numObservations (getInfo n) = len /\
  (len = 0%nat \/ observationIndices (getInfo n) = Some start) /\
  match n with
  | Bottom _ _ => True
  | Parent _ l r _ =>
      exists k, (k <= len)%nat /\ shape false start k l /\
                shape false (start + k) (len - k) r
  end.

(** An operation on a node stays within the slice of the node: it permutes
    the entries of the slice and keeps the shape. *)
Definition staysWithinSlice (f : NodeState -> option NodeState) : Prop :=
  forall isTop node pre mid post node' indices',
    shape isTop (length pre) (length mid) node ->
    (isTop = true -> mid ≡ₚ seq 0 (length mid)) ->
    f (node, pre ++ mid ++ post) = Some (node', indices') ->
    exists mid', mid ≡ₚ mid' /\ indices' = pre ++ mid' ++ post /\
                 shape isTop (length pre) (length mid) node'.

(** ** Data for the examples *)

Definition fit_ordinal5 : BARTFit :=
  mkBARTFit (mkData 5 1 [ORDINAL] None) (mkSharedScratch [3; 0; 2; 1; 0]).

Definition fit_categorical1 : BARTFit :=
  mkBARTFit (mkData 1 1 [CATEGORICAL] None) (mkSharedScratch [1]).

Definition leaf (average : double) : Node :=
  Bottom (mkNodeInfo false BART_INVALID_NODE_ENUM [true] None 0)
         (mkEndNode average 1%float).

Definition stump (rule : Rule) : Node :=
  Parent (mkNodeInfo true BART_INVALID_NODE_ENUM [true] None 0)
         (leaf 10%float) (leaf 20%float) rule.

(** The index array holds each of the [n] observations once, and the node
    at the top owns all of it. *)
Definition treeInvariant (n : nat) (t : Tree) : Prop :=
  treeIndices t ≡ₚ seq 0 n /\ shape true 0 n (top t).

Definition y5 : list double := [1; 2; 3; 4; 5]%float.

Definition ops_example : list TreeOp :=
  [OpSplit [] 0 (mkRule 0 1) y5 false false;
   OpSplit [false] 0 (mkRule 0 0) y5 true false;
   OpSplitNoStats [true] (mkRule 0 2) false true;
   OpOrphanChildren [false]].
(** ** More of Rule and Node *)

(** The 32 bits of the union of [Rule], read as [splitIndex]. *)
Definition int32_of_bits (u : Z) : Z := if u <? 2 ^ 31 then u else u - 2 ^ 32.

(** [categoryDirections |= (1u << categoryId)] *)
Definition setCategoryGoesRight (r : Rule) (categoryId : Z) : Rule :=
  mkRule (variableIndex r)
    (int32_of_bits (Z.lor (categoryDirections r) (Z.shiftl 1 categoryId mod 2 ^ 32))).

(** [categoryDirections &= ~(1u << categoryId)] *)
Definition setCategoryGoesLeft (r : Rule) (categoryId : Z) : Rule :=
  mkRule (variableIndex r)
    (int32_of_bits (Z.land (categoryDirections r)
                      (Z.lnot (Z.shiftl 1 categoryId mod 2 ^ 32) mod 2 ^ 32))).

(** [Node::getNumNodesBelow] *)
Fixpoint getNumNodesBelow (n : Node) : nat :=
  match n with
  | Bottom _ _ => 0
  | Parent _ l r _ => (2 + getNumNodesBelow l + getNumNodesBelow r)%nat
  end.

(** [Node::getDepthBelow]: the test of [childrenAreBottom] comes first, and
    fails on a bottom node. *)
Fixpoint getDepthBelow (n : Node) : nat :=
  match n with
  | Bottom _ _ => 0
  | Parent _ l r _ =>
      if childrenAreBottom n then 1%nat
      else (1 + Nat.max (getDepthBelow l) (getDepthBelow r))%nat
  end.

(** [node.enumerationIndex = index].  The index counts bottom nodes of one
    tree, of which there are fewer than [2^64]: it is a [nat]. *)
Definition setEnumerationIndex (n : Node) (index : nat) : Node :=
  let i := getInfo n in
  setInfo n (mkNodeInfo (parentIsNull i) (Z.of_nat index)
               (variablesAvailableForSplit i) (observationIndices i) (numObservations i)).

(** [enumerateBottomNodes(node, index)] of the anonymous namespace: the node
    and the index after the call. *)
Fixpoint enumerateBottomNodes (node : Node) (index : nat) : Node * nat :=
  match node with
  | Bottom _ _ => (setEnumerationIndex node index, S index)
  | Parent i l r rule =>
      let '(l, index) := enumerateBottomNodes l index in
      let '(r, index) := enumerateBottomNodes r index in
      (Parent i l r rule, index)
  end.

(** [Node::enumerateBottomNodes()] *)
Definition Node_enumerateBottomNodes (node : Node) : Node :=
  (enumerateBottomNodes node 0).1.

(** [fillAndEnumerateBottomVector(node, result, index)].  The vector holds
    pointers to the nodes of the tree: what is read through one of them
    after the call is the node with its index set. *)
Fixpoint fillAndEnumerateBottomVector (node : Node) (result : NodeVector) (index : nat)
    : Node * NodeVector * nat :=
  match node with
  | Bottom _ _ =>
      let node := setEnumerationIndex node index in
      (node, push_back result node, S index)
  | Parent i l r rule =>
      let '(l, result, index) := fillAndEnumerateBottomVector l result index in
      let '(r, result, index) := fillAndEnumerateBottomVector r result index in
      (Parent i l r rule, result, index)
  end.

(** [Node::getAndEnumerateBottomVector()]: the node after the call and the
    vector returned. *)
Definition getAndEnumerateBottomVector (node : Node) : Node * NodeVector :=
  (fillAndEnumerateBottomVector node [] 0).1.

(** [Node::countVariableUses(variableCounts)], the counts being [uint32_t].
    [None] when a rule has a variable index outside the array: the
    increment is then of storage that is not the array's. *)
Fixpoint countVariableUses (n : Node) (variableCounts : list Z) : option (list Z) :=
  match n with
  | Bottom _ _ => Some variableCounts
  | Parent _ l r rule =>
      if 0 <=? variableIndex rule then
        c ← variableCounts !! Z.to_nat (variableIndex rule);
        let variableCounts :=
          <[Z.to_nat (variableIndex rule) := (c + 1) mod 2 ^ 32]> variableCounts in
        variableCounts ← countVariableUses l variableCounts;
        countVariableUses r variableCounts
      else None
  end.

(** [Node::subsetVector(v)]: [result[i] = v[observationIndices[i]]] for the
    [numObservations] indices of the node.  [None] when the node does not
    point to that many indices, or when one of them is not an index of
    [v]: the read is then of storage that is not the array's. *)
Definition subsetVector {T} (v : list T) (treeIndices : list nat) (n : Node) : option (list T) :=
  let slice :=
    readSlice treeIndices (observationIndices (getInfo n)) (numObservations (getInfo n)) in
  if (length slice =? numObservations (getInfo n))%nat
  then mapM (fun i => v !! i) slice
  else None.

(** [Node::clear()]: the children are deleted, and [clearObservations]
    then finds a bottom node, in whose union it stores the average 0. *)
Definition clear {S : MiscStats} (n : Node) : Node :=
  clearObservations
    match n with
    | Bottom _ _ => n
    | Parent i _ _ _ => Bottom i indeterminate
    end.

(** [Node::setAverage(fit, chainNum, y)] *)
Definition setAverage {S : MiscStats} (fit : BARTFit) (chainNum : nat) (y : list double)
    (n : Node) (treeIndices : list nat) : Node :=
  Bottom (getInfo n) (leafStatistics fit y (getInfo n) (getM n) treeIndices).

(** [Node::setAverages(fit, chainNum, y)] *)
Fixpoint setAverages {S : MiscStats} (fit : BARTFit) (chainNum : nat) (y : list double)
    (n : Node) (treeIndices : list nat) : Node :=
  match n with
  | Bottom _ _ => setAverage fit chainNum y n treeIndices
  | Parent i l r rule =>
      Parent i (setAverages fit chainNum y l treeIndices)
        (setAverages fit chainNum y r treeIndices) rule
  end.

(** ** What the properties of the tree are stated with *)

(** The number of nodes with children whose rule is over the variable [v]. *)
Fixpoint numRulesOver (v : nat) (n : Node) : nat :=
  match n with
  | Bottom _ _ => 0
  | Parent _ l r rule =>
      ((if bool_decide (variableIndex rule = Z.of_nat v) then 1 else 0)
       + numRulesOver v l + numRulesOver v r)%nat
  end.

(** Every rule of the tree is over one of the first [len] variables. *)
Fixpoint rulesWithin (len : nat) (n : Node) : Prop :=
  match n with
  | Bottom _ _ => True
  | Parent _ l r rule =>
      0 <= variableIndex rule < Z.of_nat len /\ rulesWithin len l /\ rulesWithin len r
  end.

(** The node without what it stores as a bottom node. *)
Fixpoint withoutStatistics (n : Node) : Node :=
  match n with
  | Bottom i _ => Bottom i (mkEndNode 0%float 0%float)
  | Parent i l r rule => Parent i (withoutStatistics l) (withoutStatistics r) rule
  end.

(** The test of [findBottomNode] at a rule, of the row of observation [j]. *)
Definition descendsRight (fit : BARTFit) (rule : Rule) (j : nat) : bool :=
  zth 0 (observationRow fit j) (variableIndex rule) >? splitIndex rule.

(** [mid] being the slice of the node: at every node with children the
    observations of the left child do not pass the test of the rule, those
    of the right child do. *)
Fixpoint sorted (fit : BARTFit) (mid : list nat) (n : Node) : Prop :=
  match n with
  | Bottom _ _ => True
  | Parent _ l r rule =>
      let k := numObservations (getInfo l) in
      (forall j, j ∈ take k mid -> descendsRight fit rule j = false) /\
      (forall j, j ∈ drop k mid -> descendsRight fit rule j = true) /\
      sorted fit (take k mid) l /\ sorted fit (drop k mid) r
  end.

(** A partitioner that puts the entries whose code is at most the cut
    before the others. *)
Definition partitionSeparates (P : MiscPartition) : Prop :=
  forall x cut indices, indices <> [] ->
    (let '(k, out) := misc_partitionIndices x cut indices (length indices) in
     (k <= length out)%nat /\ indices ≡ₚ out /\
     (forall p, (p < k)%nat -> key x out p <= cut) /\
     (forall p, (k <= p < length out)%nat -> key x out p > cut)) /\
    (let '(k, out) := misc_partitionRange x cut indices (length indices) in
     (k <= length out)%nat /\ seq 0 (length indices) ≡ₚ out /\
     (forall p, (p < k)%nat -> key x out p <= cut) /\
     (forall p, (k <= p < length out)%nat -> key x out p > cut)).

(** The rule of an operation is over one of the predictors, or is one
    that [split] refuses. *)
Definition opRuleValid (fit : BARTFit) (op : TreeOp) : Prop :=
  match op with
  | OpSplit _ _ newRule _ _ _ | OpSplitNoStats _ newRule _ _ =>
      variableIndex newRule < Z.of_nat (numPredictors (data fit))
  | OpOrphanChildren _ => True
  end.

(** Below a node a variable is available for a split only where it is
    available in the node, and every node has a flag for each of the
    [numPredictors] variables. *)
Fixpoint availabilityNarrows (numPredictors : nat) (n : Node) : Prop :=
  length (variablesAvailableForSplit (getInfo n)) = numPredictors /\
  match n with
  | Bottom _ _ => True
  | Parent i l r _ =>
      (forall v, variablesAvailableForSplit (getInfo l) !! v = Some true ->
                 variablesAvailableForSplit i !! v = Some true) /\
      (forall v, variablesAvailableForSplit (getInfo r) !! v = Some true ->
                 variablesAvailableForSplit i !! v = Some true) /\
      availabilityNarrows numPredictors l /\ availabilityNarrows numPredictors r
  end.

(** An operation on a node stays within the slice of the node and keeps
    it sorted by the rules of the node. *)
Definition staysSorted (fit : BARTFit) (f : NodeState -> option NodeState) : Prop :=
  forall isTop node pre mid post node' indices',
    shape isTop (length pre) (length mid) node ->
    (isTop = true -> mid ≡ₚ seq 0 (length mid)) ->
    sorted fit mid node ->
    rulesWithin (numPredictors (data fit)) node ->
    f (node, pre ++ mid ++ post) = Some (node', indices') ->
    exists mid', mid ≡ₚ mid' /\ indices' = pre ++ mid' ++ post /\
                 shape isTop (length pre) (length mid) node' /\
                 sorted fit mid' node' /\
                 rulesWithin (numPredictors (data fit)) node'.

(** The tree is sorted by its rules, which are over predictors. *)
Definition treeSorted (fit : BARTFit) (n : nat) (t : Tree) : Prop :=
  treeInvariant n t /\ sorted fit (treeIndices t) (top t) /\
  rulesWithin (numPredictors (data fit)) (top t).

(** What the two variants of [addObservationsToChildren] have in common:
    at a bottom node they change what the node stores as a bottom node; at
    a node with children they clear the children, and, when the node has
    observations, partition its slice, hand the two parts to the children
    and go on in each. *)
Definition repartitions {P : MiscPartition} (fit : BARTFit)
    (repartition : Node -> list nat -> Node * list nat) : Prop :=
  (forall i m indices,
     exists m', repartition (Bottom i m) indices = (Bottom i m', indices)) /\
  (forall i l r rule indices,
     repartition (Parent i l r rule) indices =
       (let l0 := clearObservations l in
        let r0 := clearObservations r in
        if (0 <? numObservations i)%nat
        then
          let slice := readSlice indices (observationIndices i) (numObservations i) in
          let '(numOnLeft, slice0) :=
            if parentIsNull i
            then partitionRange fit rule slice (numObservations i)
            else partitionIndices fit rule slice (numObservations i) in
          let indices0 := writeSlice indices (observationIndices i) slice0 in
          let l1 := setObservations l0 (observationIndices i) numOnLeft in
          let r1 := setObservations r0
                      ((fun p => (p + numOnLeft)%nat) <$> observationIndices i)
                      (numObservations i - numOnLeft) in
          let '(l2, indices1) := repartition l1 indices0 in
          let '(r2, indices2) := repartition r1 indices1 in
          (Parent i l2 r2 rule, indices2)
        else (Parent i l0 r0 rule, indices))).

(** The node without its observations and without what it stores as a
    bottom node: what is left is the tree, its rules, and the flags and the
    enumeration index of every node. *)
Fixpoint withoutObservations (n : Node) : Node :=
  let i := getInfo n in
  let i' := mkNodeInfo (parentIsNull i) (enumerationIndex i)
              (variablesAvailableForSplit i) None 0 in
  match n with
  | Bottom _ _ => Bottom i' (mkEndNode 0%float 0%float)
  | Parent _ l r rule => Parent i' (withoutObservations l) (withoutObservations r) rule
  end.

(** An operation on a node keeps the flags of the node and keeps, below
    it, the flags narrowing. *)
Definition staysNarrow (numPredictors : nat) (f : NodeState -> option NodeState) : Prop :=
  forall node indices node' indices',
    availabilityNarrows numPredictors node ->
    f (node, indices) = Some (node', indices') ->
    availabilityNarrows numPredictors node' /\
    variablesAvailableForSplit (getInfo node') = variablesAvailableForSplit (getInfo node).


(** ** Data for the examples of split followed by orphanChildren *)





(** * The binary codec *)

Module BinaryIO.

(** ** The byte stream *)

Definition byte := Z.

(** Modelled from the spec: [ext_binaryIO] and the [ext_bio_...]
    functions of [external/binaryIO.h], the "abstract sequential byte
    sink/source" with fixed-width fields.  A source is the bytes not yet
    read; a sink is the bytes written so far and the number of bytes it
    still accepts.  The spec leaves the byte order open: the model writes
    the most significant byte first.  A [size] field takes 8 bytes. *)
Record ext_binaryIO := mkBinaryIO {
  unread : list byte;
  written : list byte;
  room : nat
}.

Definition EIO : Z := 5.
Definition ENOSPC : Z := 28.
Definition EILSEQ : Z := 84.

Fixpoint encodeBE (width : nat) (v : Z) : list byte :=
  match width with
  | O => []
  | S width' => encodeBE width' (v / 256) ++ [v mod 256]
  end.

Definition decodeBE (bs : list byte) : Z := foldl (fun acc b => acc * 256 + b) 0 bs.

(** [n] consecutive groups of [width] bytes. *)
Fixpoint chunks (width n : nat) (bs : list byte) : list (list byte) :=
  match n with
  | O => []
  | S n' => take width bs :: chunks width n' (drop width bs)
  end.

(** ** The heap *)

(** A [double] is moved as its 8 bytes, and the codec does nothing else
    with it: the model keeps a double as its 64-bit pattern. *)
Definition double_bits := Z.

(** What [new] and [new []] allocate in binaryIO.cpp. *)
Inductive Block :=
| DoubleArray (a : list double_bits)
| UInt32Array (a : list Z)
| VariableTypeArray (a : list VariableType)
| CGMPriorObject (base power : double_bits)
| MeanNormalModelObject (precision : double_bits)
| ChiSquaredPriorObject (degreesOfFreedom scale : double_bits).

(** A pointer: [None] is NULL. *)
Definition pointer := option nat.

(** ** Calls *)

(** How a call ends: with a value; with an error code that is the
    [errorCode] of the [goto ..._cleanup]; with an exception that leaves
    the function past its cleanup label (the [std::bad_alloc] of a
    [new []] that cannot have its storage: the codec has no handler); or
    in undefined behaviour (a read through NULL or through a pointer that
    is not live, a [delete] of such a pointer, storage of the stack that
    cannot be had). *)
Inductive Result (A : Type) :=
| Done (a : A)
| Failed (errorCode : Z)
| Thrown
| Undefined.
Arguments Done {A} a.
Arguments Failed {A} errorCode.
Arguments Thrown {A}.
Arguments Undefined {A}.

(** What a call of the codec works on: the aggregate it was handed by
    reference, the stream, the heap, the warnings issued so far
    ([ext_issueWarning]: the text before the colon and the error code
    whose [strerror] follows it), the number of bytes that the allocator
    can still supply for arrays, and the number of bytes left of the
    stack. *)
Record World (T : Type) := mkWorld {
  self : T;
  bio : ext_binaryIO;
  heap : gmap nat Block;
  warnings : list (string * Z);
  memory : Z;
  stack : Z
}.
Arguments mkWorld {T}.
Arguments self {T}.
Arguments bio {T}.
Arguments heap {T}.
Arguments warnings {T}.
Arguments memory {T}.
Arguments stack {T}.

Definition IO (T A : Type) : Type := World T -> Result A * World T.

#[global] Instance IO_ret T : MRet (IO T) := fun A a w => (Done a, w).

#[global] Instance IO_bind T : MBind (IO T) := fun A B f m w =>
  match m w with
  | (Done a, w') => f a w'
  | (Failed e, w') => (Failed e, w')
  | (Thrown, w') => (Thrown, w')
  | (Undefined, w') => (Undefined, w')
  end.

#[global] Instance IO_fmap T : FMap (IO T) := fun A B f m => a ← m; mret (f a).

Definition get {T} : IO T T := fun w => (Done (self w), w).

Definition modify {T} (f : T -> T) : IO T unit := fun w =>
  (Done tt, mkWorld (f (self w)) (bio w) (heap w) (warnings w) (memory w) (stack w)).

Definition fail {T A} (errorCode : Z) : IO T A := fun w => (Failed errorCode, w).

Definition undefined {T A} : IO T A := fun w => (Undefined, w).

Definition ext_issueWarning {T} (text : string) (errorCode : Z) : IO T unit := fun w =>
  (Done tt, mkWorld (self w) (bio w) (heap w) (warnings w ++ [(text, errorCode)])
              (memory w) (stack w)).

Definition writeBytes {T} (bs : list byte) : IO T unit := fun w =>
  let b := bio w in
  if (length bs <=? room b)%nat
  then (Done tt, mkWorld (self w)
                   (mkBinaryIO (unread b) (written b ++ bs) (room b - length bs))
                   (heap w) (warnings w) (memory w) (stack w))
  else (Failed ENOSPC, w).

Definition readBytes {T} (n : nat) : IO T (list byte) := fun w =>
  let b := bio w in
  if (n <=? length (unread b))%nat
  then (Done (take n (unread b)),
        mkWorld (self w) (mkBinaryIO (drop n (unread b)) (written b) (room b))
          (heap w) (warnings w) (memory w) (stack w))
  else (Failed EIO, w).

(** The bytes of an array: 8 for a [double], 4 for a [uint32_t] and for a
    [VariableType].  The objects of a fixed size are not counted. *)
Definition arrayBytes (b : Block) : Z :=
  match b with
  | DoubleArray a => 8 * Z.of_nat (length a)
  | UInt32Array a => 4 * Z.of_nat (length a)
  | VariableTypeArray a => 4 * Z.of_nat (length a)
  | _ => 0
  end.

(** [new T] of an object of a fixed size: a block at an address that is
    not in use.  An allocation of this kind is taken to succeed. *)
Definition new {T} (b : Block) : IO T pointer := fun w =>
  let a := fresh (dom (heap w)) in
  (Done (Some a),
   mkWorld (self w) (bio w) (<[a:=b]> (heap w)) (warnings w) (memory w) (stack w)).

(** [new T[n]], [n] being a number that the caller has read: the block [b]
    of [n] entries at an address that is not in use, when its bytes are
    fewer than [2^64] and the allocator can supply them; if not, the
    expression throws ([std::bad_array_new_length], [std::bad_alloc]) and
    assigns nothing. *)
Definition newArray {T} (b : Block) : IO T pointer := fun w =>
  let a := fresh (dom (heap w)) in
  let bytes := arrayBytes b in
  if (bytes <? 2 ^ 64) && (bytes <=? memory w)
  then (Done (Some a),
        mkWorld (self w) (bio w) (<[a:=b]> (heap w)) (warnings w) (memory w - bytes)
          (stack w))
  else (Thrown, w).

(** [delete p] and [delete [] p]: nothing for NULL; the bytes of an array
    go back to the allocator. *)
Definition delete_ {T} (p : pointer) : IO T unit := fun w =>
  match p with
  | None => (Done tt, w)
  | Some a =>
      match heap w !! a with
      | Some b =>
          (Done tt,
           mkWorld (self w) (bio w) (delete a (heap w)) (warnings w)
             (memory w + arrayBytes b) (stack w))
      | None => (Undefined, w)
      end
  end.

(** Modelled from the spec: [ext_stackAllocate(n, T)] of
    [external/alloca.h], which the spec does not describe: storage for [n]
    entries of [elementSize] bytes in the frame of the function, which
    [ext_stackFree] or the return gives back.  Its result is used without
    a test: when the stack does not have the bytes, what follows is
    undefined. *)
Definition ext_stackAllocate {T} (n : nat) (elementSize : Z) : IO T unit := fun w =>
  if elementSize * Z.of_nat n <=? stack w then (Done tt, w) else (Undefined, w).

Definition load {T} (p : pointer) : IO T Block := fun w =>
  match p ≫= (fun a => heap w !! a) with
  | Some b => (Done b, w)
  | None => (Undefined, w)
  end.

Definition store {T} (p : pointer) (b : Block) : IO T unit := fun w =>
  match p with
  | Some a =>
      match heap w !! a with
      | Some _ =>
          (Done tt,
           mkWorld (self w) (bio w) (<[a:=b]> (heap w)) (warnings w) (memory w) (stack w))
      | None => (Undefined, w)
      end
  | None => (Undefined, w)
  end.

(** The first [n] entries of the array at [p], as a function that is
    handed [p] and [n] reads them: none, and no access, when [n] is 0. *)
Definition loadDoubles {T} (p : pointer) (n : nat) : IO T (list double_bits) :=
  if (n =? 0)%nat then mret []
  else
    b ← load p;
    match b with
    | DoubleArray a => if (n <=? length a)%nat then mret (take n a) else undefined
    | _ => undefined
    end.

Definition loadUInt32s {T} (p : pointer) (n : nat) : IO T (list Z) :=
  if (n =? 0)%nat then mret []
  else
    b ← load p;
    match b with
    | UInt32Array a => if (n <=? length a)%nat then mret (take n a) else undefined
    | _ => undefined
    end.

Definition loadVariableTypes {T} (p : pointer) (n : nat) : IO T (list VariableType) :=
  if (n =? 0)%nat then mret []
  else
    b ← load p;
    match b with
    | VariableTypeArray a => if (n <=? length a)%nat then mret (take n a) else undefined
    | _ => undefined
    end.

(** The functions of [external/binaryIO.h].  A write takes the values, a
    read returns them; the caller moves them from and to the heap. *)
Definition ext_bio_writeUnsigned32BitInteger {T} (u : Z) : IO T unit :=
  writeBytes (encodeBE 4 u).
Definition ext_bio_writeSizeType {T} (s : Z) : IO T unit := writeBytes (encodeBE 8 s).
Definition ext_bio_writeDouble {T} (d : double_bits) : IO T unit := writeBytes (encodeBE 8 d).
Definition ext_bio_writeNDoubles {T} (d : list double_bits) : IO T unit :=
  writeBytes (concat (encodeBE 8 <$> d)).
Definition ext_bio_writeNUnsigned32BitIntegers {T} (u : list Z) : IO T unit :=
  writeBytes (concat (encodeBE 4 <$> u)).
Definition ext_bio_writeNChars {T} (c : list byte) : IO T unit := writeBytes c.

Definition ext_bio_readUnsigned32BitInteger {T} : IO T Z := decodeBE <$> readBytes 4.
Definition ext_bio_readSizeType {T} : IO T Z := decodeBE <$> readBytes 8.
Definition ext_bio_readDouble {T} : IO T double_bits := decodeBE <$> readBytes 8.
Definition ext_bio_readNDoubles {T} (n : nat) : IO T (list double_bits) :=
  (fun bs => decodeBE <$> chunks 8 n bs) <$> readBytes (8 * n).
Definition ext_bio_readNUnsigned32BitIntegers {T} (n : nat) : IO T (list Z) :=
  (fun bs => decodeBE <$> chunks 4 n bs) <$> readBytes (4 * n).
Definition ext_bio_readNChars {T} (n : nat) : IO T (list byte) := readBytes n.

(** The code at a [..._cleanup] label that every function shares:
    [errorCode] is 0 after the last field, or what the failing call
    returned; the function returns [errorCode == 0].  An exception does
    not come by the label. *)
Definition errorCodeOf {A} (r : Result A) : Z :=
  match r with
  | Failed errorCode => errorCode
  | _ => 0
  end.

Definition isUndefined {A} (r : Result A) : bool :=
  match r with Undefined => true | _ => false end.

Definition isThrown {A} (r : Result A) : bool :=
  match r with Thrown => true | _ => false end.

Definition bytesOf (s : string) : list byte :=
  (fun c => Z.of_N (Ascii.N_of_ascii c)) <$> String.list_ascii_of_string s.

(** [strncmp(priorName, tag, 4) != 0] for a tag of four characters none
    of which is NUL. *)
Definition strncmp_differs (priorName : list byte) (tag : string) : bool :=
  negb (bool_decide (take 4 priorName = bytesOf tag)).

Definition size_mul (a b : Z) : Z := (a * b) mod 2 ^ 64.

Definition atCleanup {T A} (fields : IO T A) (cleanup : Z -> IO T unit) : IO T bool :=
  fun w =>
    let '(r, w) := fields w in
    if isUndefined r then (Undefined, w)
    else if isThrown r then (Thrown, w)
    else
      let errorCode := errorCodeOf r in
      (cleanup errorCode;; mret (errorCode =? 0)) w.

Definition when_ {T} (b : bool) (m : IO T unit) : IO T unit := if b then m else mret tt.

(** ** Control *)

Record Control := mkControl {
  responseIsBinary : bool;
  verbose : bool;
  keepTrainingFits : bool;
  useQuantiles : bool;
  numSamples : Z;
  numBurnIn : Z;
  numTrees : Z;
  numThreads : Z;
  treeThinningRate : Z;
  printEvery : Z;
  printCutoffs : Z;
  callback : pointer;
  callbackData : pointer
}.

Definition CONTROL_BINARY_RESPONSE : Z := 1.
Definition CONTROL_VERBOSE : Z := 2.
Definition CONTROL_KEEP_TRAINING : Z := 4.
Definition CONTROL_USE_QUANTILES : Z := 8.

Definition controlFlagsOf (control : Control) : Z :=
  0 + (if responseIsBinary control then CONTROL_BINARY_RESPONSE else 0)
    + (if verbose control then CONTROL_VERBOSE else 0)
    + (if keepTrainingFits control then CONTROL_KEEP_TRAINING else 0)
    + (if useQuantiles control then CONTROL_USE_QUANTILES else 0).

Definition writeControl_fields : IO Control unit :=
  control ← get;
  let controlFlags := controlFlagsOf control in
  ext_bio_writeUnsigned32BitInteger controlFlags;;
  ext_bio_writeSizeType (numSamples control);;
  ext_bio_writeSizeType (numBurnIn control);;
  ext_bio_writeSizeType (numTrees control);;
  ext_bio_writeSizeType (numThreads control);;
  ext_bio_writeUnsigned32BitInteger (treeThinningRate control);;
  ext_bio_writeUnsigned32BitInteger (printEvery control);;
  ext_bio_writeUnsigned32BitInteger (printCutoffs control).

Definition writeControl : IO Control bool :=
  atCleanup writeControl_fields (fun errorCode =>
    when_ (negb (errorCode =? 0))
      (ext_issueWarning "error writing control object" errorCode)).

Definition setControlFlags (controlFlags : Z) (c : Control) : Control :=
  mkControl (negb (Z.land controlFlags CONTROL_BINARY_RESPONSE =? 0))
    (negb (Z.land controlFlags CONTROL_VERBOSE =? 0))
    (negb (Z.land controlFlags CONTROL_KEEP_TRAINING =? 0))
    (negb (Z.land controlFlags CONTROL_USE_QUANTILES =? 0))
    (numSamples c) (numBurnIn c) (numTrees c) (numThreads c)
    (treeThinningRate c) (printEvery c) (printCutoffs c) (callback c) (callbackData c).

Definition set_numSamples (v : Z) (c : Control) : Control :=
  mkControl (responseIsBinary c) (verbose c) (keepTrainingFits c) (useQuantiles c)
    v (numBurnIn c) (numTrees c) (numThreads c)
    (treeThinningRate c) (printEvery c) (printCutoffs c) (callback c) (callbackData c).

Definition set_numBurnIn (v : Z) (c : Control) : Control :=
  mkControl (responseIsBinary c) (verbose c) (keepTrainingFits c) (useQuantiles c)
    (numSamples c) v (numTrees c) (numThreads c)
    (treeThinningRate c) (printEvery c) (printCutoffs c) (callback c) (callbackData c).

Definition set_numTrees (v : Z) (c : Control) : Control :=
  mkControl (responseIsBinary c) (verbose c) (keepTrainingFits c) (useQuantiles c)
    (numSamples c) (numBurnIn c) v (numThreads c)
    (treeThinningRate c) (printEvery c) (printCutoffs c) (callback c) (callbackData c).

Definition set_numThreads (v : Z) (c : Control) : Control :=
  mkControl (responseIsBinary c) (verbose c) (keepTrainingFits c) (useQuantiles c)
    (numSamples c) (numBurnIn c) (numTrees c) v
    (treeThinningRate c) (printEvery c) (printCutoffs c) (callback c) (callbackData c).

Definition set_treeThinningRate (v : Z) (c : Control) : Control :=
  mkControl (responseIsBinary c) (verbose c) (keepTrainingFits c) (useQuantiles c)
    (numSamples c) (numBurnIn c) (numTrees c) (numThreads c)
    v (printEvery c) (printCutoffs c) (callback c) (callbackData c).

Definition set_printEvery (v : Z) (c : Control) : Control :=
  mkControl (responseIsBinary c) (verbose c) (keepTrainingFits c) (useQuantiles c)
    (numSamples c) (numBurnIn c) (numTrees c) (numThreads c)
    (treeThinningRate c) v (printCutoffs c) (callback c) (callbackData c).

Definition set_printCutoffs (v : Z) (c : Control) : Control :=
  mkControl (responseIsBinary c) (verbose c) (keepTrainingFits c) (useQuantiles c)
    (numSamples c) (numBurnIn c) (numTrees c) (numThreads c)
    (treeThinningRate c) (printEvery c) v (callback c) (callbackData c).

(** [control.callback = NULL; control.callbackData = NULL;] *)
Definition resetCallback (c : Control) : Control :=
  mkControl (responseIsBinary c) (verbose c) (keepTrainingFits c) (useQuantiles c)
    (numSamples c) (numBurnIn c) (numTrees c) (numThreads c)
    (treeThinningRate c) (printEvery c) (printCutoffs c) None None.

Definition readControl_fields : IO Control unit :=
  controlFlags ← ext_bio_readUnsigned32BitInteger;
  modify (setControlFlags controlFlags);;
  v ← ext_bio_readSizeType; modify (set_numSamples v);;
  v ← ext_bio_readSizeType; modify (set_numBurnIn v);;
  v ← ext_bio_readSizeType; modify (set_numTrees v);;
  v ← ext_bio_readSizeType; modify (set_numThreads v);;
  v ← ext_bio_readUnsigned32BitInteger; modify (set_treeThinningRate v);;
  v ← ext_bio_readUnsigned32BitInteger; modify (set_printEvery v);;
  v ← ext_bio_readUnsigned32BitInteger; modify (set_printCutoffs v);;
  modify resetCallback.

Definition readControl : IO Control bool :=
  atCleanup readControl_fields (fun errorCode =>
    when_ (negb (errorCode =? 0))
      (ext_issueWarning "error reading control object" errorCode)).

(** ** Data *)

Record Data := mkData {
  numObservations : Z;
  numPredictors : Z;
  numTestObservations : Z;
  sigmaEstimate : double_bits;
  y : pointer;
  X : pointer;
  X_test : pointer;
  weights : pointer;
  offset : pointer;
  testOffset : pointer;
  variableTypes : pointer;
  maxNumCuts : pointer
}.

Definition DATA_HAS_WEIGHTS : Z := 1.
Definition DATA_HAS_OFFSET : Z := 2.
Definition DATA_HAS_TEST_OFFSET : Z := 4.
Definition DATA_HAS_MAX_NUM_CUTS : Z := 8.

Definition isNull (p : pointer) : bool := match p with None => true | Some _ => false end.

Definition dataFlagsOf (data : Data) : Z :=
  Z.lor (Z.lor (Z.lor (Z.lor 0
    (if negb (isNull (weights data)) then DATA_HAS_WEIGHTS else 0))
    (if negb (isNull (offset data)) then DATA_HAS_OFFSET else 0))
    (if negb (isNull (testOffset data)) then DATA_HAS_TEST_OFFSET else 0))
    (if negb (isNull (maxNumCuts data)) then DATA_HAS_MAX_NUM_CUTS else 0).

(** [static_cast<uint32_t>] of a type tag and [static_cast<VariableType>]
    of what was read; the enumeration has the values 0 and 1. *)
Definition uint32_of_VariableType (t : VariableType) : Z :=
  match t with ORDINAL => 0 | CATEGORICAL => 1 end.

Definition VariableType_of_uint32 (u : Z) : VariableType :=
  if u =? 0 then ORDINAL else CATEGORICAL.

Definition writeData_fields : IO Data unit :=
  data ← get;
  let dataFlags := dataFlagsOf data in
  let n := Z.to_nat (numObservations data) in
  let p := Z.to_nat (numPredictors data) in
  let nt := Z.to_nat (numTestObservations data) in
  let np := Z.to_nat (size_mul (numObservations data) (numPredictors data)) in
  let ntp := Z.to_nat (size_mul (numTestObservations data) (numPredictors data)) in
  ext_bio_writeUnsigned32BitInteger dataFlags;;
  ext_bio_writeSizeType (numObservations data);;
  ext_bio_writeSizeType (numPredictors data);;
  ext_bio_writeSizeType (numTestObservations data);;
  ext_bio_writeDouble (sigmaEstimate data);;
  (d ← loadDoubles (y data) n; ext_bio_writeNDoubles d);;
  (d ← loadDoubles (X data) np; ext_bio_writeNDoubles d);;
  when_ (0 <? numTestObservations data)
    (d ← loadDoubles (X_test data) ntp; ext_bio_writeNDoubles d);;
  when_ (negb (isNull (weights data)))
    (d ← loadDoubles (weights data) n; ext_bio_writeNDoubles d);;
  when_ (negb (isNull (offset data)))
    (d ← loadDoubles (offset data) n; ext_bio_writeNDoubles d);;
  when_ (negb (isNull (testOffset data)))
    (d ← loadDoubles (testOffset data) nt; ext_bio_writeNDoubles d);;
  ext_stackAllocate p 4;;
  variableTypes ← loadVariableTypes (variableTypes data) p;
  ext_bio_writeNUnsigned32BitIntegers (uint32_of_VariableType <$> variableTypes);;
  (u ← loadUInt32s (maxNumCuts data) p; ext_bio_writeNUnsigned32BitIntegers u).

Definition writeData : IO Data bool :=
  atCleanup writeData_fields (fun errorCode =>
    when_ (negb (errorCode =? 0))
      (ext_issueWarning "error writing data object" errorCode)).

Definition set_numObservations (v : Z) (d : Data) : Data :=
  mkData v (numPredictors d) (numTestObservations d) (sigmaEstimate d)
    (y d) (X d) (X_test d) (weights d) (offset d) (testOffset d)
    (variableTypes d) (maxNumCuts d).

Definition set_numPredictors (v : Z) (d : Data) : Data :=
  mkData (numObservations d) v (numTestObservations d) (sigmaEstimate d)
    (y d) (X d) (X_test d) (weights d) (offset d) (testOffset d)
    (variableTypes d) (maxNumCuts d).

Definition set_numTestObservations (v : Z) (d : Data) : Data :=
  mkData (numObservations d) (numPredictors d) v (sigmaEstimate d)
    (y d) (X d) (X_test d) (weights d) (offset d) (testOffset d)
    (variableTypes d) (maxNumCuts d).

Definition set_sigmaEstimate (v : double_bits) (d : Data) : Data :=
  mkData (numObservations d) (numPredictors d) (numTestObservations d) v
    (y d) (X d) (X_test d) (weights d) (offset d) (testOffset d)
    (variableTypes d) (maxNumCuts d).

(** The pointer members of [Data], in the order of their declaration. *)
Inductive DataArray :=
| Array_y | Array_X | Array_X_test | Array_weights | Array_offset
| Array_testOffset | Array_variableTypes | Array_maxNumCuts.

Definition getArray (f : DataArray) (d : Data) : pointer :=
  match f with
  | Array_y => y d
  | Array_X => X d
  | Array_X_test => X_test d
  | Array_weights => weights d
  | Array_offset => offset d
  | Array_testOffset => testOffset d
  | Array_variableTypes => variableTypes d
  | Array_maxNumCuts => maxNumCuts d
  end.

Definition setArray (f : DataArray) (v : pointer) (d : Data) : Data :=
  mkData (numObservations d) (numPredictors d) (numTestObservations d) (sigmaEstimate d)
    (match f with Array_y => v | _ => y d end)
    (match f with Array_X => v | _ => X d end)
    (match f with Array_X_test => v | _ => X_test d end)
    (match f with Array_weights => v | _ => weights d end)
    (match f with Array_offset => v | _ => offset d end)
    (match f with Array_testOffset => v | _ => testOffset d end)
    (match f with Array_variableTypes => v | _ => variableTypes d end)
    (match f with Array_maxNumCuts => v | _ => maxNumCuts d end).

#[global] Instance DataArray_eq_dec : EqDecision DataArray.
Proof. solve_decision. Defined.

(** [data.f = new double[n]; ext_bio_readNDoubles(bio, data.f, n)] *)
Definition readNewDoubles (f : DataArray) (n : nat) : IO Data unit :=
  p ← newArray (DoubleArray (replicate n 0));
  modify (setArray f p);;
  d ← ext_bio_readNDoubles n;
  store p (DoubleArray d).

Definition hasFlag (dataFlags flag : Z) : bool := negb (Z.land dataFlags flag =? 0).

Definition readData_fields : IO Data unit :=
  dataFlags ← (fun u => nth 0 u 0) <$> ext_bio_readNUnsigned32BitIntegers 1;
  v ← ext_bio_readSizeType; modify (set_numObservations v);;
  v ← ext_bio_readSizeType; modify (set_numPredictors v);;
  v ← ext_bio_readSizeType; modify (set_numTestObservations v);;
  v ← ext_bio_readDouble; modify (set_sigmaEstimate v);;
  data ← get;
  let n := Z.to_nat (numObservations data) in
  let p := Z.to_nat (numPredictors data) in
  let nt := Z.to_nat (numTestObservations data) in
  let np := Z.to_nat (size_mul (numObservations data) (numPredictors data)) in
  let ntp := Z.to_nat (size_mul (numTestObservations data) (numPredictors data)) in
  readNewDoubles Array_y n;;
  readNewDoubles Array_X np;;
  (if 0 <? numTestObservations data
   then readNewDoubles Array_X_test ntp
   else modify (setArray Array_X_test None));;
  (if hasFlag dataFlags DATA_HAS_WEIGHTS
   then readNewDoubles Array_weights n
   else modify (setArray Array_weights None));;
  (if hasFlag dataFlags DATA_HAS_OFFSET
   then readNewDoubles Array_offset n
   else modify (setArray Array_offset None));;
  (if hasFlag dataFlags DATA_HAS_TEST_OFFSET
   then readNewDoubles Array_testOffset nt
   else modify (setArray Array_testOffset None));;
  ext_stackAllocate p 4;;
  variableTypes ← ext_bio_readNUnsigned32BitIntegers p;
  q ← newArray (VariableTypeArray (VariableType_of_uint32 <$> variableTypes));
  modify (setArray Array_variableTypes q);;
  (if hasFlag dataFlags DATA_HAS_MAX_NUM_CUTS
   then
     q ← newArray (UInt32Array (replicate p 0));
     modify (setArray Array_maxNumCuts q);;
     u ← ext_bio_readNUnsigned32BitIntegers p;
     store q (UInt32Array u)
   else modify (setArray Array_maxNumCuts None)).

Definition deleteArrays : IO Data unit :=
  data ← get;
  delete_ (maxNumCuts data);;
  delete_ (variableTypes data);;
  delete_ (testOffset data);;
  delete_ (offset data);;
  delete_ (weights data);;
  delete_ (X_test data);;
  delete_ (X data);;
  delete_ (y data).

Definition readData : IO Data bool :=
  atCleanup readData_fields (fun errorCode =>
    when_ (negb (errorCode =? 0))
      (deleteArrays;; ext_issueWarning "error reading data object" errorCode)).

(** ** Model *)

Record Model := mkModel {
  birthOrDeathProbability : double_bits;
  swapProbability : double_bits;
  changeProbability : double_bits;
  birthProbability : double_bits;
  treePrior : pointer;
  endNodeModel : pointer;
  sigmaSqPrior : pointer
}.

Definition set_birthOrDeathProbability (v : double_bits) (m : Model) : Model :=
  mkModel v (swapProbability m) (changeProbability m) (birthProbability m)
    (treePrior m) (endNodeModel m) (sigmaSqPrior m).

Definition set_swapProbability (v : double_bits) (m : Model) : Model :=
  mkModel (birthOrDeathProbability m) v (changeProbability m) (birthProbability m)
    (treePrior m) (endNodeModel m) (sigmaSqPrior m).

Definition set_changeProbability (v : double_bits) (m : Model) : Model :=
  mkModel (birthOrDeathProbability m) (swapProbability m) v (birthProbability m)
    (treePrior m) (endNodeModel m) (sigmaSqPrior m).

Definition set_birthProbability (v : double_bits) (m : Model) : Model :=
  mkModel (birthOrDeathProbability m) (swapProbability m) (changeProbability m) v
    (treePrior m) (endNodeModel m) (sigmaSqPrior m).

Definition set_treePrior (v : pointer) (m : Model) : Model :=
  mkModel (birthOrDeathProbability m) (swapProbability m) (changeProbability m)
    (birthProbability m) v (endNodeModel m) (sigmaSqPrior m).

Definition set_endNodeModel (v : pointer) (m : Model) : Model :=
  mkModel (birthOrDeathProbability m) (swapProbability m) (changeProbability m)
    (birthProbability m) (treePrior m) v (sigmaSqPrior m).

Definition set_sigmaSqPrior (v : pointer) (m : Model) : Model :=
  mkModel (birthOrDeathProbability m) (swapProbability m) (changeProbability m)
    (birthProbability m) (treePrior m) (endNodeModel m) v.

(** [static_cast<CGMPrior*>(model.treePrior)->base] and the like: the
    member of the object that the pointer leads to. *)
Definition loadCGMPrior {T} (p : pointer) : IO T (double_bits * double_bits) :=
  b ← load p;
  match b with CGMPriorObject base power => mret (base, power) | _ => undefined end.

Definition loadMeanNormalModel {T} (p : pointer) : IO T double_bits :=
  b ← load p;
  match b with MeanNormalModelObject precision => mret precision | _ => undefined end.

Definition loadChiSquaredPrior {T} (p : pointer) : IO T (double_bits * double_bits) :=
  b ← load p;
  match b with
  | ChiSquaredPriorObject degreesOfFreedom scale => mret (degreesOfFreedom, scale)
  | _ => undefined
  end.

Definition writeModel_fields : IO Model unit :=
  model ← get;
  ext_bio_writeDouble (birthOrDeathProbability model);;
  ext_bio_writeDouble (swapProbability model);;
  ext_bio_writeDouble (changeProbability model);;
  ext_bio_writeDouble (birthProbability model);;
  ext_bio_writeNChars (bytesOf "cgm ");;
  '(base, _) ← loadCGMPrior (treePrior model);
  ext_bio_writeDouble base;;
  '(_, power) ← loadCGMPrior (treePrior model);
  ext_bio_writeDouble power;;
  ext_bio_writeNChars (bytesOf "nrml");;
  precision ← loadMeanNormalModel (endNodeModel model);
  ext_bio_writeDouble precision;;
  ext_bio_writeNChars (bytesOf "chsq");;
  '(degreesOfFreedom, _) ← loadChiSquaredPrior (sigmaSqPrior model);
  ext_bio_writeDouble degreesOfFreedom;;
  '(_, scale) ← loadChiSquaredPrior (sigmaSqPrior model);
  ext_bio_writeDouble scale.

Definition writeModel : IO Model bool :=
  atCleanup writeModel_fields (fun errorCode =>
    when_ (negb (errorCode =? 0))
      (ext_issueWarning "error writing model object" errorCode)).

(** [new CGMPrior], [EndNode::createMeanNormalModel()] and
    [new ChiSquaredPrior]: the members are not set by the codec before it
    reads them. *)
Definition readModel_fields : IO Model unit :=
  v ← ext_bio_readDouble; modify (set_birthOrDeathProbability v);;
  v ← ext_bio_readDouble; modify (set_swapProbability v);;
  v ← ext_bio_readDouble; modify (set_changeProbability v);;
  v ← ext_bio_readDouble; modify (set_birthProbability v);;
  priorName ← ext_bio_readNChars 4;
  (if strncmp_differs priorName "cgm " then fail EILSEQ else mret tt);;
  p ← new (CGMPriorObject 0 0); modify (set_treePrior p);;
  base ← ext_bio_readDouble;
  '(_, power) ← loadCGMPrior p; store p (CGMPriorObject base power);;
  power ← ext_bio_readDouble;
  '(base, _) ← loadCGMPrior p; store p (CGMPriorObject base power);;
  priorName ← ext_bio_readNChars 4;
  (if strncmp_differs priorName "nrml" then fail EILSEQ else mret tt);;
  p ← new (MeanNormalModelObject 0); modify (set_endNodeModel p);;
  precision ← ext_bio_readDouble;
  store p (MeanNormalModelObject precision);;
  priorName ← ext_bio_readNChars 4;
  (if strncmp_differs priorName "chsq" then fail EILSEQ else mret tt);;
  p ← new (ChiSquaredPriorObject 0 0); modify (set_sigmaSqPrior p);;
  degreesOfFreedom ← ext_bio_readDouble;
  '(_, scale) ← loadChiSquaredPrior p;
  store p (ChiSquaredPriorObject degreesOfFreedom scale);;
  scale ← ext_bio_readDouble;
  '(degreesOfFreedom, _) ← loadChiSquaredPrior p;
  store p (ChiSquaredPriorObject degreesOfFreedom scale).

Definition deletePriors : IO Model unit :=
  model ← get;
  delete_ (sigmaSqPrior model);;
  delete_ (endNodeModel model);;
  delete_ (treePrior model).

Definition readModel : IO Model bool :=
  atCleanup readModel_fields (fun errorCode =>
    when_ (negb (errorCode =? 0))
      (deletePriors;; ext_issueWarning "error reading model object" errorCode)).

(** ** Specifications of calls *)

(** From a world that satisfies [P] the call does not throw and does
    not run into undefined behaviour; it ends with a value [a] in a world
    that satisfies [Q a], or fails with an error code [e] other than 0 in
    a world that satisfies [E e]. *)
Definition triple {T A} (P : World T -> Prop) (m : IO T A)
    (Q : A -> World T -> Prop) (E : Z -> World T -> Prop) : Prop :=
  forall w, P w ->
    match m w with
    | (Done a, w') => Q a w'
    | (Failed e, w') => e <> 0 /\ E e w'
    | (Thrown, _) => False
    | (Undefined, _) => False
    end.

(** The same of a call that may throw, in a world that satisfies [X], and
    may end in undefined behaviour, in a world that satisfies [U]. *)
Definition outcomes {T A} (P : World T -> Prop) (m : IO T A)
    (Q : A -> World T -> Prop) (E : Z -> World T -> Prop) (X U : World T -> Prop) : Prop :=
  forall w, P w ->
    match m w with
    | (Done a, w') => Q a w'
    | (Failed e, w') => e <> 0 /\ E e w'
    | (Thrown, w') => X w'
    | (Undefined, w') => U w'
    end.

(** A property of the aggregate, the heap, the warnings and the storage
    left, whatever the stream holds. *)
Definition ignoresStream {T} (P : World T -> Prop) : Prop :=
  forall w b, P w -> P (mkWorld (self w) b (heap w) (warnings w) (memory w) (stack w)).

(** Of a call that may end in undefined behaviour: what holds of the
    calls that do not. *)
Definition partialTriple {T A} (P : World T -> Prop) (m : IO T A)
    (Q : A -> World T -> Prop) : Prop :=
  forall w, P w ->
    match m w with
    | (Done a, w') => Q a w'
    | (Failed e, w') => e <> 0 /\ P w'
    | (Thrown, w') => P w'
    | (Undefined, _) => True
    end.

(** What [readData] keeps true of the arrays it has allocated, [h0] being
    the heap at the call: the members in [unassigned] are still NULL; a
    member that is not NULL points to a live block of its own that was
    not there at the call; and the heap is otherwise as it was. *)
Definition arraysOwned (unassigned : list DataArray) (h0 : gmap nat Block)
    (w : World Data) : Prop :=
  (forall f, f ∈ unassigned -> getArray f (self w) = None) /\
  (forall f a, getArray f (self w) = Some a -> h0 !! a = None /\ is_Some (heap w !! a)) /\
  (forall f g a, getArray f (self w) = Some a -> getArray g (self w) = Some a -> f = g) /\
  (forall a, (forall f, getArray f (self w) <> Some a) -> heap w !! a = h0 !! a).

(** The same while the arrays are deleted one after the other. *)
Definition arraysDeleted (deleted : list DataArray) (d : Data) (h0 : gmap nat Block)
    (w : World Data) : Prop :=
  self w = d /\
  (forall f a, getArray f d = Some a ->
     h0 !! a = None /\ (f ∈ deleted -> heap w !! a = None) /\
     (f ∉ deleted -> is_Some (heap w !! a))) /\
  (forall f g a, getArray f d = Some a -> getArray g d = Some a -> f = g) /\
  (forall a, (forall f, getArray f d <> Some a) -> heap w !! a = h0 !! a).

Definition allArrays : list DataArray :=
  [Array_y; Array_X; Array_X_test; Array_weights; Array_offset;
   Array_testOffset; Array_variableTypes; Array_maxNumCuts].

(** No member of the aggregate leads to a live block. *)
Definition noArrayReachable (w : World Data) : Prop :=
  forall f a, getArray f (self w) = Some a -> heap w !! a = None.

(** The stack does not have the bytes of the type tags, one [uint32_t]
    for each of the [numPredictors] of the aggregate. *)
Definition stackExhausted (w : World Data) : Prop :=
  stack w < 4 * Z.of_nat (Z.to_nat (numPredictors (self w))).

Definition noPriorReachable (w : World Model) : Prop :=
  forall a, (treePrior (self w) = Some a \/ endNodeModel (self w) = Some a \/
             sigmaSqPrior (self w) = Some a) -> heap w !! a = None.

(** The callback of a [Control] is the one given; it is NULL. *)
Definition callbackKept (cb cbd : pointer) (w : World Control) : Prop :=
  callback (self w) = cb /\ callbackData (self w) = cbd.

Definition callbackReset (w : World Control) : Prop :=
  callback (self w) = None /\ callbackData (self w) = None.

(** ** The streams of the aggregates *)

(** Every member of a [Control] fits the width of its type. *)
Definition Control_wf (c : Control) : Prop :=
  0 <= numSamples c < 2 ^ 64 /\ 0 <= numBurnIn c < 2 ^ 64 /\
  0 <= numTrees c < 2 ^ 64 /\ 0 <= numThreads c < 2 ^ 64 /\
  0 <= treeThinningRate c < 2 ^ 32 /\ 0 <= printEvery c < 2 ^ 32 /\
  0 <= printCutoffs c < 2 ^ 32.

(** The fields of a [Control] in the stream, as the table of the external
    interfaces lists them. *)
Definition encodeControl (c : Control) : list byte :=
  encodeBE 4 (controlFlagsOf c) ++ encodeBE 8 (numSamples c) ++
  encodeBE 8 (numBurnIn c) ++ encodeBE 8 (numTrees c) ++ encodeBE 8 (numThreads c) ++
  encodeBE 4 (treeThinningRate c) ++ encodeBE 4 (printEvery c) ++
  encodeBE 4 (printCutoffs c).

(** What is persisted of a [Model]: its four probabilities and the members
    of its three priors. *)
Record ModelFields := mkModelFields {
  probabilities : double_bits * double_bits * double_bits * double_bits;
  cgm : double_bits * double_bits;
  nrml : double_bits;
  chsq : double_bits * double_bits
}.

Definition modelFields (w : World Model) : option ModelFields :=
  let m := self w in
  match treePrior m ≫= (fun a => heap w !! a),
        endNodeModel m ≫= (fun a => heap w !! a),
        sigmaSqPrior m ≫= (fun a => heap w !! a) with
  | Some (CGMPriorObject base power), Some (MeanNormalModelObject precision),
    Some (ChiSquaredPriorObject degreesOfFreedom scale) =>
      Some (mkModelFields
              (birthOrDeathProbability m, swapProbability m, changeProbability m,
               birthProbability m)
              (base, power) precision (degreesOfFreedom, scale))
  | _, _, _ => None
  end.

Definition double_wf (d : double_bits) : Prop := 0 <= d < 2 ^ 64.

Definition ModelFields_wf (f : ModelFields) : Prop :=
  let '(p1, p2, p3, p4) := probabilities f in
  double_wf p1 /\ double_wf p2 /\ double_wf p3 /\ double_wf p4 /\
  double_wf (cgm f).1 /\ double_wf (cgm f).2 /\ double_wf (nrml f) /\
  double_wf (chsq f).1 /\ double_wf (chsq f).2.

Definition encodeModel (f : ModelFields) : list byte :=
  let '(p1, p2, p3, p4) := probabilities f in
  encodeBE 8 p1 ++ encodeBE 8 p2 ++ encodeBE 8 p3 ++ encodeBE 8 p4 ++
  bytesOf "cgm " ++ encodeBE 8 (cgm f).1 ++ encodeBE 8 (cgm f).2 ++
  bytesOf "nrml" ++ encodeBE 8 (nrml f) ++
  bytesOf "chsq" ++ encodeBE 8 (chsq f).1 ++ encodeBE 8 (chsq f).2.



(** ** Data for the examples *)

Definition data_null : Data := mkData 0 0 0 0 None None None None None None None None.

(** The flags, the three sizes and the estimate of a [Data] of two
    observations and one predictor, the two doubles of [y], and the first
    of the two doubles of [X]: the stream ends within [X]. *)
Definition stream_short_X : list byte :=
  [0; 0; 0; 8;  0; 0; 0; 0; 0; 0; 0; 2;  0; 0; 0; 0; 0; 0; 0; 1;
   0; 0; 0; 0; 0; 0; 0; 0;  0; 0; 0; 0; 0; 0; 0; 99;
   0; 0; 0; 0; 0; 0; 0; 11;  0; 0; 0; 0; 0; 0; 0; 12;
   0; 0; 0; 0; 0; 0; 0; 21].

Definition world_short_X : World Data :=
  mkWorld data_null (mkBinaryIO stream_short_X [] 0) ∅ [] 1000 1000.

(** A [Data] of two observations and one categorical predictor, without
    weights, offsets, test set or [maxNumCuts], and an empty sink with room
    for it. *)
Definition data_without_maxNumCuts : Data :=
  mkData 2 1 0 99 (Some 1%nat) (Some 2%nat) None None None None (Some 3%nat) None.

Definition heap_without_maxNumCuts : gmap nat Block :=
  {[ 1%nat := DoubleArray [11; 12];
     2%nat := DoubleArray [21; 22];
     3%nat := VariableTypeArray [CATEGORICAL] ]}.

Definition world_without_maxNumCuts : World Data :=
  mkWorld data_without_maxNumCuts (mkBinaryIO [] [] 1000) heap_without_maxNumCuts []
    1000 1000.

(** The same with [maxNumCuts]. *)
Definition world_with_maxNumCuts : World Data :=
  mkWorld
    (mkData 2 1 0 99 (Some 1%nat) (Some 2%nat) None None None None (Some 3%nat)
       (Some 4%nat))
    (mkBinaryIO [] [] 1000)
    (<[4%nat := UInt32Array [100]]> heap_without_maxNumCuts) [] 1000 1000.

(** What a [Data] holds: its sizes and its estimate, and what its arrays
    hold, in the order of their declaration. *)
Definition dataScalars (d : Data) : Z * Z * Z * double_bits :=
  (numObservations d, numPredictors d, numTestObservations d, sigmaEstimate d).

Definition dataArrays (w : World Data) : list (option Block) :=
  (fun f => getArray f (self w) ≫= (fun a => heap w !! a)) <$> allArrays.

(** What [readData] makes of the stream [stream], called with an empty
    [Data] on an empty heap, with 1000 bytes for arrays and as many of
    the stack. *)
Definition readData_of (stream : list byte) : Result bool * World Data :=
  readData (mkWorld data_null (mkBinaryIO stream [] 0) ∅ [] 1000 1000).

(** A [Model] without priors and a stream in which the tag of the second
    prior reads "nrmx". *)
Definition model_null : Model := mkModel 0 0 0 0 None None None.

Definition stream_probabilities : list byte :=
  [0; 0; 0; 0; 0; 0; 0; 1;  0; 0; 0; 0; 0; 0; 0; 2;
   0; 0; 0; 0; 0; 0; 0; 3;  0; 0; 0; 0; 0; 0; 0; 4].

Definition stream_cgm : list byte :=
  [0; 0; 0; 0; 0; 0; 0; 5;  0; 0; 0; 0; 0; 0; 0; 6].

Definition stream_after_tag : list byte :=
  [0; 0; 0; 0; 0; 0; 0; 7;  99; 104; 115; 113;
   0; 0; 0; 0; 0; 0; 0; 8;  0; 0; 0; 0; 0; 0; 0; 9].

Definition world_bad_tag : World Model :=
  mkWorld model_null
    (mkBinaryIO (stream_probabilities ++ bytesOf "cgm " ++ stream_cgm
                 ++ bytesOf "nrmx" ++ stream_after_tag) [] 0)
    ∅ [] 1000 1000.

Definition control_with_callback : Control :=
  mkControl false false false false 0 0 0 0 0 0 0 (Some 7%nat) (Some 8%nat).

(** ** What further properties of the codec are stated with *)

(** A call of one of the six functions, [fields] being what the function
    does before its cleanup label.  When it returns [true], its fields ran
    to the end and it has issued no warning.  When it returns [false], one
    of the calls of its fields had returned an error code, which is not
    0, and it has issued one warning: its text with that error code.  When
    an exception leaves it, it has issued no warning.  No error code
    leaves it.  A call that meets undefined behaviour is not spoken of. *)
Definition warnsOnce {T A} (text : string) (fields : IO T A) (m : IO T bool) : Prop :=
  forall w,
    match m w with
    | (Done true, w') =>
        (exists a w1, fields w = (Done a, w1)) /\ warnings w' = warnings w
    | (Done false, w') =>
        exists e w1, fields w = (Failed e, w1) /\ e <> 0 /\
                     warnings w' = warnings w ++ [(text, e)]
    | (Failed _, _) => False
    | (Thrown, w') => warnings w' = warnings w
    | (Undefined, _) => True
    end.

(** The call has issued no warning. *)
Definition noWarning {T} (ws : list (string * Z)) (w : World T) : Prop := warnings w = ws.

(** The priors that [readModel] has allocated, the last one first, each at
    an address that was free when it was allocated: [h] is [h0] with them. *)
Fixpoint allocated (h0 : gmap nat Block) (owned : list nat) (h : gmap nat Block) : Prop :=
  match owned with
  | [] => h = h0
  | a :: owned' =>
      exists b h', h = <[a:=b]> h' /\ h' !! a = None /\ allocated h0 owned' h'
  end.

(** The members of a [Model] that lead to the priors allocated, in the order
    in which [readModel] allocates them; the other members are NULL. *)
Definition priorsAre (owned : list nat) (m : Model) : Prop :=
  match owned with
  | [] => treePrior m = None /\ endNodeModel m = None /\ sigmaSqPrior m = None
  | [a1] => treePrior m = Some a1 /\ endNodeModel m = None /\ sigmaSqPrior m = None
  | [a2; a1] => treePrior m = Some a1 /\ endNodeModel m = Some a2 /\ sigmaSqPrior m = None
  | [a3; a2; a1] =>
      treePrior m = Some a1 /\ endNodeModel m = Some a2 /\ sigmaSqPrior m = Some a3
  | _ => False
  end.

Definition priorsOwned (h0 : gmap nat Block) (owned : list nat) (w : World Model) : Prop :=
  priorsAre owned (self w) /\ allocated h0 owned (heap w).

(** The same while the prior allocated last is being read: it is of the
    kind [K]. *)
Definition priorBeingRead (h0 : gmap nat Block) (K : Block -> Prop) (a : nat)
    (owned : list nat) (w : World Model) : Prop :=
  priorsAre (a :: owned) (self w) /\
  exists b h', heap w = <[a:=b]> h' /\ h' !! a = None /\ allocated h0 owned h' /\ K b.

Definition isCGMPrior (b : Block) : Prop :=
  match b with CGMPriorObject _ _ => True | _ => False end.

Definition isMeanNormalModel (b : Block) : Prop :=
  match b with MeanNormalModelObject _ => True | _ => False end.

Definition isChiSquaredPrior (b : Block) : Prop :=
  match b with ChiSquaredPriorObject _ _ => True | _ => False end.

(** A [Model] with its three priors and an empty sink with room for it. *)
Definition model_with_priors : Model :=
  mkModel 1 2 3 4 (Some 1%nat) (Some 2%nat) (Some 3%nat).

Definition heap_with_priors : gmap nat Block :=
  {[ 1%nat := CGMPriorObject 5 6;
     2%nat := MeanNormalModelObject 7;
     3%nat := ChiSquaredPriorObject 8 9 ]}.

Definition world_with_priors : World Model :=
  mkWorld model_with_priors (mkBinaryIO [] [] 100) heap_with_priors [] 1000 1000.



(** ** What the round trip of [Data] is stated with *)

(** What [writeData] reads of an array member that it hands to a write
    with the length [n]: the first [n] entries of a live array that has
    as many; nothing, and no access, for the length 0. *)
Definition doublesAt (h : gmap nat Block) (p : pointer) (n : nat) : option (list double_bits) :=
  if (n =? 0)%nat then Some []
  else
    match p ≫= (fun a => h !! a) with
    | Some (DoubleArray a) => if (n <=? length a)%nat then Some (take n a) else None
    | _ => None
    end.

Definition uint32sAt (h : gmap nat Block) (p : pointer) (n : nat) : option (list Z) :=
  if (n =? 0)%nat then Some []
  else
    match p ≫= (fun a => h !! a) with
    | Some (UInt32Array a) => if (n <=? length a)%nat then Some (take n a) else None
    | _ => None
    end.

Definition variableTypesAt (h : gmap nat Block) (p : pointer) (n : nat)
    : option (list VariableType) :=
  if (n =? 0)%nat then Some []
  else
    match p ≫= (fun a => h !! a) with
    | Some (VariableTypeArray a) => if (n <=? length a)%nat then Some (take n a) else None
    | _ => None
    end.

(** The same of an array that is written under a condition: [None] when
    it is not written. *)
Definition optionalAt (h : gmap nat Block) (present : bool) (p : pointer) (n : nat)
    : option (option (list double_bits)) :=
  if present then Some <$> doublesAt h p n else Some None.

(** What is persisted of a [Data]: its sizes and its estimate, the
    entries of its arrays, and which of the optional arrays it has. *)
Record DataFields := mkDataFields {
  the_scalars : Z * Z * Z * double_bits;
  the_y : list double_bits;
  the_X : list double_bits;
  the_X_test : option (list double_bits);
  the_weights : option (list double_bits);
  the_offset : option (list double_bits);
  the_testOffset : option (list double_bits);
  the_variableTypes : list VariableType;
  the_maxNumCuts : option (list Z)
}.

Definition dataFields (w : World Data) : option DataFields :=
  let data := self w in
  let h := heap w in
  let n := Z.to_nat (numObservations data) in
  let p := Z.to_nat (numPredictors data) in
  let nt := Z.to_nat (numTestObservations data) in
  let np := Z.to_nat (size_mul (numObservations data) (numPredictors data)) in
  let ntp := Z.to_nat (size_mul (numTestObservations data) (numPredictors data)) in
  y_ ← doublesAt h (y data) n;
  X_ ← doublesAt h (X data) np;
  X_test_ ← optionalAt h (0 <? numTestObservations data) (X_test data) ntp;
  weights_ ← optionalAt h (negb (isNull (weights data))) (weights data) n;
  offset_ ← optionalAt h (negb (isNull (offset data))) (offset data) n;
  testOffset_ ← optionalAt h (negb (isNull (testOffset data))) (testOffset data) nt;
  variableTypes_ ← variableTypesAt h (variableTypes data) p;
  maxNumCuts_ ← (if isNull (maxNumCuts data) then Some None
                 else Some <$> uint32sAt h (maxNumCuts data) p);
  Some (mkDataFields (dataScalars data) y_ X_ X_test_ weights_ offset_ testOffset_
          variableTypes_ maxNumCuts_).

Definition uint32_wf (u : Z) : Prop := 0 <= u < 2 ^ 32.

(** Every size, double and count fits the width of its type. *)
Definition DataFields_wf (f : DataFields) : Prop :=
  let '(n, p, nt, sigma) := the_scalars f in
  0 <= n < 2 ^ 64 /\ 0 <= p < 2 ^ 64 /\ 0 <= nt < 2 ^ 64 /\ double_wf sigma /\
  Forall double_wf (the_y f) /\ Forall double_wf (the_X f) /\
  Forall double_wf (default [] (the_X_test f)) /\
  Forall double_wf (default [] (the_weights f)) /\
  Forall double_wf (default [] (the_offset f)) /\
  Forall double_wf (default [] (the_testOffset f)) /\
  Forall uint32_wf (default [] (the_maxNumCuts f)).

Definition encodeDoubles (d : list double_bits) : list byte := concat (encodeBE 8 <$> d).
Definition encodeUInt32s (u : list Z) : list byte := concat (encodeBE 4 <$> u).

(** The fields of a [Data] in the stream, after the flags [dataFlags]. *)
Definition encodeData (dataFlags : Z) (f : DataFields) : list byte :=
  let '(n, p, nt, sigma) := the_scalars f in
  encodeBE 4 dataFlags ++ encodeBE 8 n ++ encodeBE 8 p ++ encodeBE 8 nt ++
  encodeBE 8 sigma ++
  encodeDoubles (the_y f) ++ encodeDoubles (the_X f) ++
  encodeDoubles (default [] (the_X_test f)) ++
  encodeDoubles (default [] (the_weights f)) ++
  encodeDoubles (default [] (the_offset f)) ++
  encodeDoubles (default [] (the_testOffset f)) ++
  encodeUInt32s (uint32_of_VariableType <$> the_variableTypes f) ++
  encodeUInt32s (default [] (the_maxNumCuts f)).

(** From a world that satisfies [P] the call returns, with a value [a]
    in a world that satisfies [Q a]. *)
Definition runs {T A} (P : World T -> Prop) (m : IO T A) (Q : A -> World T -> Prop) : Prop :=
  forall w, P w -> exists a w', m w = (Done a, w') /\ Q a w'.

(** [writeData] has written [out] of the [Data] [d] on the heap [h] into a
    sink that had room for [total] bytes, [stk] bytes being left of the
    stack. *)
Definition writing (d : Data) (h : gmap nat Block) (total : nat) (stk : Z)
    (out : list byte) (w : World Data) : Prop :=
  self w = d /\ heap w = h /\ written (bio w) = out /\
  (room (bio w) + length out = total)%nat /\ stack w = stk.

(** The member [f] is NULL ([None]) or leads to the block [b]. *)
Definition arrayIs (f : DataArray) (ob : option Block) (w : World Data) : Prop :=
  match ob with
  | Some b => exists a, getArray f (self w) = Some a /\ heap w !! a = Some b
  | None => getArray f (self w) = None
  end.

(** [readData] has still to read [s]; it has set the sizes and the
    estimate to [scalars] and the members in [arrays] to what is listed
    with them; the allocator can still supply [mem] bytes, and [stk] bytes
    are left of the stack. *)
Definition reading (s : list byte) (scalars : Z * Z * Z * double_bits)
    (arrays : list (DataArray * option Block)) (mem stk : Z) (w : World Data) : Prop :=
  unread (bio w) = s /\ dataScalars (self w) = scalars /\
  Forall (fun '(f, ob) => arrayIs f ob w) arrays /\
  memory w = mem /\ stack w = stk.

(** The bytes of the arrays that [readData] allocates for the fields, and
    the bytes of the stack that [writeData] and [readData] take for the
    type tags. *)
Definition dataBytes (f : DataFields) : Z :=
  8 * Z.of_nat (length (the_y f)) + 8 * Z.of_nat (length (the_X f)) +
  8 * Z.of_nat (length (default [] (the_X_test f))) +
  8 * Z.of_nat (length (default [] (the_weights f))) +
  8 * Z.of_nat (length (default [] (the_offset f))) +
  8 * Z.of_nat (length (default [] (the_testOffset f))) +
  4 * Z.of_nat (length (the_variableTypes f)) +
  4 * Z.of_nat (length (default [] (the_maxNumCuts f))).

Definition dataStack (f : DataFields) : Z := 4 * Z.of_nat (length (the_variableTypes f)).

(** A [Data] of two observations, one categorical predictor and one test
    observation, with weights and [maxNumCuts] and without offsets, in an
    empty sink with room for it; and what is persisted of it. *)
Definition world_with_weights : World Data :=
  mkWorld
    (mkData 2 1 1 99 (Some 1%nat) (Some 2%nat) (Some 5%nat) (Some 6%nat) None None
       (Some 3%nat) (Some 4%nat))
    (mkBinaryIO [] [] 1000)
    (<[5%nat := DoubleArray [31]]>
       (<[6%nat := DoubleArray [41; 42]]>
          (<[4%nat := UInt32Array [100]]> heap_without_maxNumCuts))) [] 1000 1000.

Definition fields_with_weights : DataFields :=
  mkDataFields (2, 1, 1, 99) [11; 12] [21; 22] (Some [31]) (Some [41; 42]) None None
    [CATEGORICAL] (Some [100]).
End BinaryIO.

(** ** Counting queries and traversal vectors *)

Section Counting.

Lemma length_push_back result n : length (push_back result n) = S (length result).
Proof. unfold push_back. rewrite length_app. simpl. lia. Qed.

Lemma length_fillBottomVector node : forall result,
  length (fillBottomVector node result) = (length result + getNumBottomNodes node)%nat.
Proof.
  induction node as [i m | i l IHl r IHr rule]; intros result; simpl.
  - rewrite length_push_back. lia.
  - rewrite IHr, IHl. lia.
Qed.

Lemma length_fillNotBottomVector node : forall result,
  length (fillNotBottomVector node result)
  = (length result + getNumNotBottomNodes node)%nat.
Proof.
  induction node as [i m | i l IHl r IHr rule]; intros result.
  - simpl. lia.
  - cbn [fillNotBottomVector getNumNotBottomNodes].
    destruct (childrenAreBottom (Parent i l r rule)) eqn:Hc.
    + simpl in Hc. apply andb_prop in Hc as [Hl Hr].
      destruct l; [|discriminate]. destruct r; [|discriminate].
      rewrite length_push_back. simpl. lia.
    + rewrite length_push_back, IHr, IHl. lia.
Qed.

Lemma length_fillNoGrandVector node : forall result,
  length (fillNoGrandVector node result)
  = (length result + getNumNoGrandNodes node)%nat.
Proof.
  induction node as [i m | i l IHl r IHr rule]; intros result.
  - simpl. lia.
  - cbn [fillNoGrandVector getNumNoGrandNodes].
    destruct (childrenAreBottom (Parent i l r rule)).
    + rewrite length_push_back. lia.
    + rewrite IHr, IHl. lia.
Qed.

Lemma length_fillSwappableVector node : forall result,
  length (fillSwappableVector node result)
  = (length result + getNumSwappableNodes node)%nat.
Proof.
  induction node as [i m | i l IHl r IHr rule]; intros result.
  - simpl. lia.
  - cbn [fillSwappableVector getNumSwappableNodes].
    destruct (childrenAreBottom (Parent i l r rule)); [lia|].
    destruct ((isBottom l || childrenAreBottom l) && (isBottom r || childrenAreBottom r)).
    + rewrite length_push_back. lia.
    + rewrite length_push_back, IHr, IHl. lia.
Qed.

End Counting.

(** C10: each counting query of a node returns the length of the vector
    that the matching traversal builds: bottom nodes, not-bottom nodes,
    nodes without grandchildren, and swappable nodes. *)
Theorem counts_match_vectors (n : Node) :
  getNumBottomNodes n = length (getBottomVector n) /\
  getNumNotBottomNodes n = length (getNotBottomVector n) /\
  getNumNoGrandNodes n = length (getNoGrandVector n) /\
  getNumSwappableNodes n = length (getSwappableVector n).
Proof.
  unfold getBottomVector, getNotBottomVector, getNoGrandVector, getSwappableVector.
  rewrite length_fillBottomVector, length_fillNotBottomVector,
    length_fillNoGrandVector, length_fillSwappableVector.
  simpl. auto.
Qed.

(** ** The partitioner *)

Section Partition.

Variable x : list xint_t.
Variable cut : Z.

Lemma scanLeft_rounds_spec indices rounds : forall lh,
  let p := scanLeft_rounds rounds x cut indices lh in
  (lh <= p <= lh + rounds)%nat /\
  (forall i, (lh <= i < p)%nat -> key x indices i <= cut) /\
  ((p < lh + rounds)%nat -> key x indices p > cut).
Proof.
  induction rounds as [|rounds IH]; intros lh; simpl.
  - repeat split; intros; lia.
  - destruct (key x indices lh <=? cut) eqn:Hk.
    + destruct (IH (S lh)) as (Hb & Hle & Hgt).
      apply Z.leb_le in Hk.
      split; [lia|]. split.
      * intros i Hi. destruct (decide (i = lh)) as [->|]; [lia|]. apply Hle. lia.
      * intros. apply Hgt. lia.
    + apply Z.leb_gt in Hk. repeat split; intros; lia.
Qed.

Lemma scanRight_rounds_spec indices rounds : forall rh,
  (rounds <= rh)%nat ->
  let q := scanRight_rounds rounds x cut indices rh in
  (rh - rounds <= q <= rh)%nat /\
  (forall i, (q < i <= rh)%nat -> key x indices i > cut) /\
  ((rh - rounds < q)%nat -> key x indices q <= cut).
Proof.
  induction rounds as [|rounds IH]; intros rh Hr; simpl.
  - repeat split; intros; lia.
  - destruct (key x indices rh >? cut) eqn:Hk.
    + destruct (IH (Nat.pred rh)) as (Hb & Hgt & Hle); [lia|].
      apply Z.gtb_gt in Hk.
      split; [lia|]. split.
      * intros i Hi. destruct (decide (i = rh)) as [->|]; [lia|]. apply Hgt. lia.
      * intros. apply Hle. lia.
    + rewrite Z.gtb_ltb in Hk. apply Z.ltb_ge in Hk. repeat split; intros; lia.
Qed.

Lemma insert_at_Permutation (l : list nat) j b c :
  l !! j = Some b -> c :: l ≡ₚ b :: <[j:=c]> l.
Proof.
  revert j. induction l as [|a l IH]; intros [|j] Hj; simplify_eq/=.
  - constructor.
  - rewrite (perm_swap a c l). rewrite (IH _ Hj). constructor.
Qed.

Lemma swapIndices_Permutation (l : list nat) i j :
  (i < length l)%nat -> (j < length l)%nat -> l ≡ₚ swapIndices l i j.
Proof.
  unfold swapIndices.
  revert i j. induction l as [|c l IH]; intros i j Hi Hj; simpl in *; [lia|].
  destruct i as [|i], j as [|j]; simpl.
  - reflexivity.
  - destruct (lookup_lt_is_Some_2 l j) as [b Hb]; [lia|].
    rewrite (nth_lookup_Some _ _ _ _ Hb). by apply insert_at_Permutation.
  - destruct (lookup_lt_is_Some_2 l i) as [b Hb]; [lia|].
    rewrite (nth_lookup_Some _ _ _ _ Hb). by apply insert_at_Permutation.
  - constructor. apply IH; lia.
Qed.

Lemma nth_insert (l : list nat) i k v :
  (i < length l)%nat ->
  nth k (<[i:=v]> l) 0%nat = if decide (k = i) then v else nth k l 0%nat.
Proof.
  intros Hi. rewrite !nth_lookup. case_decide as Hk.
  - subst. by rewrite list_lookup_insert_eq.
  - by rewrite list_lookup_insert_ne.
Qed.

Lemma key_swapIndices indices i j k :
  (i < length indices)%nat -> (j < length indices)%nat ->
  key x (swapIndices indices i j) k =
    if decide (k = i) then key x indices j
    else if decide (k = j) then key x indices i
    else key x indices k.
Proof.
  intros Hi Hj. unfold key, swapIndices.
  rewrite nth_insert by (rewrite length_insert; lia).
  case_decide; [done|].
  rewrite nth_insert by lia. by case_decide.
Qed.

Lemma length_swapIndices indices i j : length (swapIndices indices i j) = length indices.
Proof. unfold swapIndices. by rewrite !length_insert. Qed.

(** The loop invariant: the entries before [lh] stay left of the cut,
    those after [rh] right of it; the rounds given are enough. *)
Lemma partitionIndices_loop_spec rounds : forall indices lh rh,
  (lh <= rh + 1)%nat -> (rh < length indices)%nat -> (lh < length indices)%nat ->
  (rh + 1 - lh <= rounds)%nat -> (1 <= rounds)%nat ->
  (forall i, (i < lh)%nat -> key x indices i <= cut) ->
  (forall i, (rh < i < length indices)%nat -> key x indices i > cut) ->
  let '(indices', p) := partitionIndices_loop rounds x cut indices lh rh in
  indices ≡ₚ indices' /\ (p < length indices)%nat /\
  (forall i, (i < p)%nat -> key x indices' i <= cut) /\
  (forall i, (p < i < length indices)%nat -> key x indices' i > cut).
Proof.
  induction rounds as [|rounds IH]; intros indices lh rh Hlr Hrn Hln Hfuel Hone Hlo Hhi;
    [lia|].
  cbn [partitionIndices_loop]. unfold scanLeft, scanRight.
  pose proof (scanLeft_rounds_spec indices (rh - lh) lh) as (Hl1 & Hl2 & Hl3).
  set (lh1 := scanLeft_rounds (rh - lh) x cut indices lh) in *.
  pose proof (scanRight_rounds_spec indices (rh - lh1) rh ltac:(lia)) as (Hr1 & Hr2 & Hr3).
  set (rh1 := scanRight_rounds (rh - lh1) x cut indices rh) in *.
  destruct (rh1 <=? lh1)%nat eqn:Hbreak.
  - apply Nat.leb_le in Hbreak.
    split; [reflexivity|]. split; [lia|]. split.
    + intros i Hi. destruct (decide (i < lh)%nat); [by apply Hlo|]. apply Hl2. lia.
    + intros i Hi. destruct (decide (rh < i)%nat); [apply Hhi; lia|]. apply Hr2. lia.
  - apply Nat.leb_gt in Hbreak.
    assert (Hkl : key x indices lh1 > cut) by (apply Hl3; lia).
    assert (Hkr : key x indices rh1 <= cut) by (apply Hr3; lia).
    specialize (IH (swapIndices indices lh1 rh1) (S lh1) (Nat.pred rh1)).
    rewrite length_swapIndices in IH.
    destruct (partitionIndices_loop rounds x cut (swapIndices indices lh1 rh1)
                (S lh1) (Nat.pred rh1)) as [indices' p].
    destruct IH as (Hperm & Hp & Hle & Hgt); try lia.
    + intros i Hi. rewrite key_swapIndices by lia.
      repeat case_decide; try lia.
      destruct (decide (i < lh)%nat); [by apply Hlo|]. apply Hl2. lia.
    + intros i Hi. rewrite key_swapIndices by lia.
      repeat case_decide; try lia.
      destruct (decide (rh < i)%nat); [apply Hhi; lia|]. apply Hr2. lia.
    + split; [|done].
      etrans; [|exact Hperm]. apply swapIndices_Permutation; lia.
Qed.

(** [scalar_partitionIndices] on a slice that is not empty. *)
Lemma scalar_partitionIndices_spec indices :
  indices <> [] ->
  let '(k, indices') := scalar_partitionIndices x cut indices (length indices) in
  (k <= length indices')%nat /\ indices ≡ₚ indices' /\
  (forall i, (i < k)%nat -> key x indices' i <= cut) /\
  (forall i, (k <= i < length indices')%nat -> key x indices' i > cut).
Proof.
  intros Hne. unfold scalar_partitionIndices.
  assert (Hlen : (0 < length indices)%nat) by (destruct indices; simpl; [done|lia]).
  destruct (length indices =? 0)%nat eqn:H0; [apply Nat.eqb_eq in H0; lia|].
  pose proof (partitionIndices_loop_spec (length indices) indices 0 (length indices - 1)) as H.
  destruct (partitionIndices_loop (length indices) x cut indices 0 (length indices - 1))
    as [indices' p].
  destruct H as (Hperm & Hp & Hle & Hgt); try lia.
  pose proof (Permutation_length Hperm) as Hl.
  destruct (key x indices' p <=? cut) eqn:Hk.
  - apply Z.leb_le in Hk. repeat split; [lia|done| |].
    + intros i Hi. destruct (decide (i = p)) as [->|]; [done|]. apply Hle. lia.
    + intros i Hi. apply Hgt. lia.
  - apply Z.leb_gt in Hk. repeat split; [lia|done|done|].
    intros i Hi. destruct (decide (i = p)) as [->|]; [lia|]. apply Hgt. lia.
Qed.

(** While the entries between the two ends hold their own positions, the
    loop of the range mode is the loop of the indices mode. *)
Lemma scanLeftRange_rounds_eq indices rounds : forall lh,
  (forall i, (lh <= i < lh + rounds)%nat -> nth i indices 0%nat = i) ->
  scanLeftRange_rounds rounds x cut lh = scanLeft_rounds rounds x cut indices lh.
Proof.
  induction rounds as [|rounds IH]; intros lh Hid; simpl; [done|].
  unfold key. rewrite (Hid lh) by lia.
  destruct (nth lh x 0 <=? cut); [|done].
  apply IH. intros i Hi. apply Hid. lia.
Qed.

Lemma scanRightRange_rounds_eq indices rounds : forall rh,
  (rounds <= rh)%nat ->
  (forall i, (rh - rounds < i <= rh)%nat -> nth i indices 0%nat = i) ->
  scanRightRange_rounds rounds x cut rh = scanRight_rounds rounds x cut indices rh.
Proof.
  induction rounds as [|rounds IH]; intros rh Hr Hid; simpl; [done|].
  unfold key. rewrite (Hid rh) by lia.
  destruct (nth rh x 0 >? cut); [|done].
  apply IH; [lia|]. intros i Hi. apply Hid. lia.
Qed.

Lemma partitionRange_loop_eq rounds : forall indices lh rh,
  (rh < length indices)%nat ->
  (forall i, (lh <= i <= rh)%nat -> nth i indices 0%nat = i) ->
  partitionRange_loop rounds x cut indices lh rh
  = partitionIndices_loop rounds x cut indices lh rh.
Proof.
  induction rounds as [|rounds IH]; intros indices lh rh Hrn Hid; [done|].
  cbn [partitionRange_loop partitionIndices_loop]. unfold scanLeft, scanRight.
  rewrite (scanLeftRange_rounds_eq indices) by (intros; apply Hid; lia).
  pose proof (scanLeft_rounds_spec indices (rh - lh) lh) as (Hl1 & _).
  set (lh1 := scanLeft_rounds (rh - lh) x cut indices lh) in *.
  rewrite (scanRightRange_rounds_eq indices) by (try intros; try apply Hid; lia).
  pose proof (scanRight_rounds_spec indices (rh - lh1) rh ltac:(lia)) as (Hr1 & _).
  set (rh1 := scanRight_rounds (rh - lh1) x cut indices rh) in *.
  destruct (rh1 <=? lh1)%nat eqn:Hbreak; [done|].
  apply Nat.leb_gt in Hbreak.
  assert (Hsw : <[lh1:=rh1]> (<[rh1:=lh1]> indices) = swapIndices indices lh1 rh1).
  { unfold swapIndices. by rewrite (Hid lh1), (Hid rh1) by lia. }
  rewrite Hsw. apply IH.
  - rewrite length_swapIndices. lia.
  - intros i Hi. unfold swapIndices.
    rewrite nth_insert by (rewrite length_insert; lia). case_decide; [lia|].
    rewrite nth_insert by lia. case_decide; [lia|]. apply Hid. lia.
Qed.

(** [scalar_partitionRange] leaves the numbers below [length] in the
    buffer, whatever it held. *)
Lemma scalar_partitionRange_spec indices :
  indices <> [] ->
  let '(k, indices') := scalar_partitionRange x cut indices (length indices) in
  (k <= length indices')%nat /\ seq 0 (length indices) ≡ₚ indices' /\
  (forall i, (i < k)%nat -> key x indices' i <= cut) /\
  (forall i, (k <= i < length indices')%nat -> key x indices' i > cut).
Proof.
  intros Hne. unfold scalar_partitionRange.
  assert (Hlen : (0 < length indices)%nat) by (destruct indices; simpl; [done|lia]).
  destruct (length indices =? 0)%nat eqn:H0; [apply Nat.eqb_eq in H0; lia|].
  rewrite drop_all, app_nil_r.
  rewrite partitionRange_loop_eq.
  - pose proof (scalar_partitionIndices_spec (seq 0 (length indices))) as H.
    unfold scalar_partitionIndices in H. rewrite length_seq, H0 in H.
    apply H. destruct (length indices); [lia|done].
  - rewrite length_seq. lia.
  - intros i Hi. rewrite seq_nth; lia.
Qed.

End Partition.

Section PartitionByRule.

Variable fit : BARTFit.
Variable rule : Rule.
Hypothesis Hvalid : validRule fit rule.

Lemma zth_observationRow i :
  zth 0 (observationRow fit i) (variableIndex rule) = nth i (columnOf fit rule) 0.
Proof.
  unfold zth, observationRow, columnOf. destruct Hvalid as [H0 Hp].
  rewrite (nth_lookup (drop _ _)), (nth_lookup (map _ _)), list_lookup_fmap, lookup_drop.
  rewrite lookup_seq_lt by lia. simpl.
  rewrite Z2Nat.inj_mul, Nat2Z.id by lia. apply nth_lookup.
Qed.

Lemma goesRight_ordinal i :
  categoricalRule fit rule = false ->
  goesRight fit rule (observationRow fit i) = (nth i (columnOf fit rule) 0 >? splitIndex rule).
Proof.
  unfold goesRight, categoricalRule. intros ->. by rewrite zth_observationRow.
Qed.

Lemma partitioned_of_keys before k after :
  categoricalRule fit rule = false ->
  (k <= length after)%nat -> before ≡ₚ after ->
  (forall i, (i < k)%nat -> key (columnOf fit rule) after i <= splitIndex rule) ->
  (forall i, (k <= i < length after)%nat -> key (columnOf fit rule) after i > splitIndex rule) ->
  partitioned fit rule before (k, after).
Proof.
  intros Hord Hk Hperm Hle Hgt. repeat split; [done|done| |].
  - intros p Hp. rewrite goesRight_ordinal by done.
    specialize (Hle p Hp). unfold key in Hle. rewrite Z.gtb_ltb. apply Z.ltb_ge. lia.
  - intros p Hp. rewrite goesRight_ordinal by done.
    specialize (Hgt p Hp). unfold key in Hgt. rewrite Z.gtb_ltb. apply Z.ltb_lt. lia.
Qed.

Lemma partitionIndices_partitioned indices :
  categoricalRule fit rule = false -> indices <> [] ->
  partitioned fit rule indices
    (partitionIndices (P := scalarPartition) fit rule indices (length indices)).
Proof.
  intros Hord Hne. unfold partitionIndices. cbn [misc_partitionIndices scalarPartition].
  pose proof (scalar_partitionIndices_spec (columnOf fit rule) (splitIndex rule) indices Hne) as H.
  destruct (scalar_partitionIndices _ _ _ _) as [k after].
  destruct H as (?&?&?&?). by apply partitioned_of_keys.
Qed.

Lemma partitionRange_partitioned indices :
  categoricalRule fit rule = false -> indices <> [] ->
  partitioned fit rule (seq 0 (length indices))
    (partitionRange (P := scalarPartition) fit rule indices (length indices)).
Proof.
  intros Hord Hne. unfold partitionRange. cbn [misc_partitionRange scalarPartition].
  pose proof (scalar_partitionRange_spec (columnOf fit rule) (splitIndex rule) indices Hne) as H.
  destruct (scalar_partitionRange _ _ _ _) as [k after].
  destruct H as (?&?&?&?). by apply partitioned_of_keys.
Qed.

End PartitionByRule.

(** The scalar loop is a partitioner as the tree needs it. *)
Lemma scalarPartition_contract : partitionContract scalarPartition.
Proof.
  intros x cut indices Hne. split.
  - pose proof (scalar_partitionIndices_spec x cut indices Hne) as H. simpl.
    destruct (scalar_partitionIndices _ _ _ _) as [k out]. by destruct H as (?&?&_).
  - pose proof (scalar_partitionRange_spec x cut indices Hne) as H. simpl.
    destruct (scalar_partitionRange _ _ _ _) as [k out]. by destruct H as (?&?&_).
Qed.

(** C1 (as amended): for every slice that is not empty and every valid rule
    over a variable that is not categorical, [partitionIndices] returns a
    count [k] and leaves the slice a permutation of what it was, with the
    entries that do not go right in the positions below [k] and those that
    go right from [k] on; [partitionRange] does the same for a slice that
    holds a permutation of the numbers below its length, as the slice of
    the node at the top of a tree does. *)
Theorem partition_correct (fit : BARTFit) (rule : Rule) (indices : list nat) :
  indices <> [] ->
  validRule fit rule ->
  categoricalRule fit rule = false ->
  partitioned fit rule indices
    (partitionIndices (P := scalarPartition) fit rule indices (length indices)) /\
  (indices ≡ₚ seq 0 (length indices) ->
   partitioned fit rule indices
     (partitionRange (P := scalarPartition) fit rule indices (length indices))).
Proof.
  intros Hne Hvalid Hord. split.
  - by apply partitionIndices_partitioned.
  - intros Hperm.
    pose proof (partitionRange_partitioned fit rule Hvalid indices Hord Hne) as H.
    unfold partitioned in *. destruct (partitionRange _ _ _ _) as [k after].
    destruct H as (?&?&?&?). repeat split; try done. by etrans.
Qed.

Lemma partition_correct_witness :
  partitioned fit_ordinal5 (mkRule 0 1) [4; 3; 2; 1; 0]%nat
    (3%nat, [4; 3; 1; 2; 0]%nat) /\
  partitioned fit_ordinal5 (mkRule 0 1) [4; 3; 2; 1; 0]%nat
    (3%nat, [4; 1; 3; 2; 0]%nat).
Proof.
  assert (Hne : [4; 3; 2; 1; 0]%nat <> []) by discriminate.
  assert (Hv : validRule fit_ordinal5 (mkRule 0 1)) by (unfold validRule; simpl; lia).
  destruct (partition_correct fit_ordinal5 (mkRule 0 1) [4; 3; 2; 1; 0]%nat Hne Hv eq_refl)
    as [H1 H2].
  split; [exact H1|].
  apply H2. simpl. symmetry.
  apply (Permutation_rev [0; 1; 2; 3; 4]%nat).
Defined.

(** C1 as stated fails for a rule over a categorical variable: with the
    category 1 sent right by the mask 2, the observation whose category is 1
    is counted on the left, because the partitioner compares its code with
    the mask read as a split index. *)
Lemma partition_categorical_counterexample :
  ~ (forall fit rule indices,
       indices <> [] -> validRule fit rule ->
       partitioned fit rule indices
         (partitionIndices (P := scalarPartition) fit rule indices (length indices)) /\
       (indices ≡ₚ seq 0 (length indices) ->
        partitioned fit rule indices
          (partitionRange (P := scalarPartition) fit rule indices (length indices)))).
Proof.
  intros H.
  destruct (H fit_categorical1 (mkRule 0 2) [0%nat]) as [(_ & _ & Hleft & _) _].
  - discriminate.
  - unfold validRule. simpl. lia.
  - specialize (Hleft 0%nat ltac:(simpl; lia)). vm_compute in Hleft. discriminate.
Qed.

(** ** findBottomNode and split on an invalid rule *)

Lemma goesRight_not_categorical fit rule xt :
  categoricalRule fit rule = false ->
  goesRight fit rule xt = (zth 0 xt (variableIndex rule) >? splitIndex rule).
Proof. unfold goesRight, categoricalRule. by intros ->. Qed.

(** C7 (as amended): in a tree none of whose rules is over a categorical
    variable, [findBottomNode] returns for every row the bottom node reached
    from the top by descending to the right child exactly when
    [Rule::goesRight] holds of the row. *)
Theorem findBottomNode_descends (fit : BARTFit) (xt : list xint_t) (n : Node) :
  rulesOrdinal fit n = true ->
  findBottomNode fit xt n = descendByGoesRight fit xt n.
Proof.
  induction n as [i m | i l IHl r IHr rule]; intros Hord; simpl in *; [done|].
  apply andb_prop in Hord as [Hord Hr]. apply andb_prop in Hord as [Hrule Hl].
  apply negb_true_iff in Hrule.
  rewrite goesRight_not_categorical by done.
  destruct (zth 0 xt (variableIndex rule) >? splitIndex rule); auto.
Qed.

Lemma findBottomNode_descends_witness :
  findBottomNode fit_ordinal5 [3] (stump (mkRule 0 1)) = leaf 20%float.
Proof.
  exact (findBottomNode_descends fit_ordinal5 [3] (stump (mkRule 0 1)) eq_refl).
Defined.

(** C7 as stated fails at a rule over a categorical variable: category 1 is
    in the mask 2, so [goesRight] holds, but [findBottomNode] compares the
    code 1 with the mask read as a split index and descends to the left. *)
Lemma findBottomNode_categorical_counterexample :
  ~ (forall fit xt n, findBottomNode fit xt n = descendByGoesRight fit xt n).
Proof.
  intros H. specialize (H fit_categorical1 [1] (stump (mkRule 0 2))).
  vm_compute in H. discriminate.
Qed.

Lemma ruleNotSet_length : String.length ruleNotSet = 29%nat.
Proof. reflexivity. Qed.

(** C9: [split], in both variants, called with a rule whose variable index
    is negative throws before it changes anything: the node and the index
    array of its tree are as they were. *)
Theorem split_invalid_rule_throws {S : MiscStats} {P : MiscPartition}
    (fit : BARTFit) (chainNum : nat)
    (newRule : Rule) (y : list double) (exhaustedLeftSplits exhaustedRightSplits : bool)
    (st : NodeState) :
  variableIndex newRule < 0 ->
  split fit chainNum newRule y exhaustedLeftSplits exhaustedRightSplits st
    = (Threw ruleNotSet, st) /\
  split_nostats fit newRule exhaustedLeftSplits exhaustedRightSplits st
    = (Threw ruleNotSet, st).
Proof.
  intros Hneg. apply Z.ltb_lt in Hneg.
  unfold split, split_nostats. by rewrite Hneg.
Qed.

Lemma split_invalid_rule_throws_witness :
  split (S := sequentialStats) (P := scalarPartition) fit_ordinal5 0
      (mkRule DBARTS_INVALID_RULE_VARIABLE DBARTS_INVALID_RULE_VARIABLE)
      [] true true (leaf 10%float, [0; 1; 2; 3; 4]%nat)
    = (Threw ruleNotSet, (leaf 10%float, [0; 1; 2; 3; 4]%nat)) /\
  split_nostats (S := sequentialStats) (P := scalarPartition) fit_ordinal5
      (mkRule DBARTS_INVALID_RULE_VARIABLE DBARTS_INVALID_RULE_VARIABLE)
      true true (leaf 10%float, [0; 1; 2; 3; 4]%nat)
    = (Threw ruleNotSet, (leaf 10%float, [0; 1; 2; 3; 4]%nat)).
Proof.
  apply (split_invalid_rule_throws (S := sequentialStats) (P := scalarPartition)).
  unfold DBARTS_INVALID_RULE_VARIABLE. simpl. lia.
Defined.

(** ** The index array under split and orphanChildren *)

Section Slices.

Lemma getNumNodes_clearObservations n : getNumNodes (clearObservations n) = getNumNodes n.
Proof. induction n; simpl; congruence. Qed.

Lemma getNumNodes_setObservations n p num : getNumNodes (setObservations n p num) = getNumNodes n.
Proof. destruct n; reflexivity. Qed.

Lemma readSlice_middle (pre mid post : list nat) :
  readSlice (pre ++ mid ++ post) (Some (length pre)) (length mid) = mid.
Proof.
  unfold readSlice. rewrite drop_app_length. by rewrite take_app_length.
Qed.

Lemma writeSlice_middle (pre mid post mid' : list nat) :
  length mid' = length mid ->
  writeSlice (pre ++ mid ++ post) (Some (length pre)) mid' = pre ++ mid' ++ post.
Proof.
  intros Hlen. unfold writeSlice. rewrite take_app_length.
  rewrite drop_app_add', drop_app_length' by lia. done.
Qed.

Lemma getInfo_setObservations n p num :
  getInfo (setObservations n p num)
  = mkNodeInfo (parentIsNull (getInfo n)) (enumerationIndex (getInfo n))
      (variablesAvailableForSplit (getInfo n)) p num.
Proof. by destruct n. Qed.

Lemma parentIsNull_clearObservations n :
  parentIsNull (getInfo (clearObservations n)) = parentIsNull (getInfo n).
Proof. destruct n as [i m|i l r rule]; simpl; by destruct (parentIsNull i) eqn:E. Qed.

Lemma notTopBelow_clearObservations n : notTopBelow n -> notTopBelow (clearObservations n).
Proof.
  induction n as [i m | i l IHl r IHr rule]; simpl; [done|].
  intros (Hl & Hr & Hnl & Hnr). rewrite !parentIsNull_clearObservations. auto.
Qed.

Lemma notTopBelow_setObservations n p num : notTopBelow n -> notTopBelow (setObservations n p num).
Proof. by destruct n. Qed.

(** A cleared node that is not at the top owns no position. *)
Lemma shape_clearObservations n start :
  parentIsNull (getInfo n) = false -> notTopBelow n ->
  shape false start 0 (clearObservations n).
Proof.
  revert start. induction n as [i m | i l IHl r IHr rule]; intros start Hp Hn; simpl in *.
  - rewrite Hp. simpl. auto.
  - rewrite Hp. simpl. destruct Hn as (Hl & Hr & Hnl & Hnr).
    repeat split; auto. exists 0%nat. rewrite Nat.add_0_r. auto.
Qed.

Lemma shape_notTopBelow isTop start len n : shape isTop start len n -> notTopBelow n.
Proof.
  revert isTop start len. induction n as [i m | i l IHl r IHr rule];
    intros isTop start len; simpl; [done|].
  intros (_ & _ & _ & k & _ & Hl & Hr).
  repeat split; [by destruct l; apply Hl | by destruct r; apply Hr | eauto | eauto].
Qed.

Lemma shape_top isTop start len n : shape isTop start len n -> parentIsNull (getInfo n) = isTop.
Proof. destruct n; simpl; tauto. Qed.

Lemma shape_bottomObservations indices isTop start len n :
  shape isTop start len n ->
  bottomObservations indices n = take len (drop start indices).
Proof.
  revert isTop start len. induction n as [i m | i l IHl r IHr rule];
    intros isTop start len; simpl.
  - intros (_ & <- & [Hz | ->] & _); [|done].
    rewrite Hz. unfold readSlice. by destruct (observationIndices i).
  - intros (_ & _ & _ & k & Hk & Hl & Hr).
    rewrite (IHl _ _ _ Hl), (IHr _ _ _ Hr).
    rewrite <- drop_drop, take_take_drop. f_equal. lia.
Qed.

Lemma shape_slicesNested isTop start len n : shape isTop start len n -> slicesNested n.
Proof.
  revert isTop start len. induction n as [i m | i l IHl r IHr rule];
    intros isTop start len; simpl; [done|].
  intros (_ & Hnum & Hobs & k & Hk & Hl & Hr).
  assert (Hil : numObservations (getInfo l) = k /\
                (k = 0%nat \/ observationIndices (getInfo l) = Some start))
    by (destruct l; simpl in Hl; tauto).
  assert (Hir : numObservations (getInfo r) = (len - k)%nat /\
                ((len - k)%nat = 0%nat \/ observationIndices (getInfo r) = Some (start + k)%nat))
    by (destruct r; simpl in Hr; tauto).
  destruct Hil as [Hln Hlo], Hir as [Hrn Hro].
  repeat split; eauto.
  - unfold sliceWithin. destruct Hlo as [-> | Hlo]; [by left|].
    destruct Hobs as [-> | Hobs]; [left; lia|].
    right. exists start, start. repeat split; auto; lia.
  - unfold sliceWithin. destruct Hro as [Hz | Hro]; [left; lia|].
    destruct Hobs as [-> | Hobs]; [left; lia|].
    right. exists (start + k)%nat, start. repeat split; auto; lia.
Qed.

End Slices.

Section Repartition.

Context {P : MiscPartition}.
Hypothesis contract : partitionContract P.
Variable fit : BARTFit.

(** Either mode of the partitioner, on the slice of a node with
    observations: a count within the slice and a permutation of it. *)
Lemma partition_count_perm (isTop : bool) rule (slice : list nat) :
  slice <> [] ->
  (isTop = true -> slice ≡ₚ seq 0 (length slice)) ->
  let '(k, slice') :=
    if isTop then partitionRange fit rule slice (length slice)
    else partitionIndices fit rule slice (length slice) in
  (k <= length slice')%nat /\ slice ≡ₚ slice'.
Proof.
  intros Hne Htop.
  destruct (contract (columnOf fit rule) (splitIndex rule) slice Hne) as [Hi Hr].
  destruct isTop.
  - unfold partitionRange. destruct (misc_partitionRange _ _ _ _) as [k slice'].
    destruct Hr as [Hk Hperm]. split; [done|]. etrans; [by apply Htop | done].
  - unfold partitionIndices. by destruct (misc_partitionIndices _ _ _ _) as [k slice'].
Qed.

(** The two variants of [addObservationsToChildren] differ in what they
    store in a bottom node; what follows holds of any function with their
    recursion. *)
Variable repartition : Node -> list nat -> Node * list nat.

Hypothesis repartition_bottom : forall i m indices,
  exists m', repartition (Bottom i m) indices = (Bottom i m', indices).

Hypothesis repartition_parent : forall i l r rule indices,
  repartition (Parent i l r rule) indices =
    (let l0 := clearObservations l in
     let r0 := clearObservations r in
     if (0 <? numObservations i)%nat
     then
       let slice := readSlice indices (observationIndices i) (numObservations i) in
       let '(numOnLeft, slice0) :=
         if parentIsNull i
         then partitionRange fit rule slice (numObservations i)
         else partitionIndices fit rule slice (numObservations i) in
       let indices0 := writeSlice indices (observationIndices i) slice0 in
       let l1 := setObservations l0 (observationIndices i) numOnLeft in
       let r1 := setObservations r0
                   ((fun p => (p + numOnLeft)%nat) <$> observationIndices i)
                   (numObservations i - numOnLeft) in
       let '(l2, indices1) := repartition l1 indices0 in
       let '(r2, indices2) := repartition r1 indices1 in
       (Parent i l2 r2 rule, indices2)
     else (Parent i l0 r0 rule, indices)).

Lemma repartition_shape size : forall node isTop (pre mid post : list nat),
  (getNumNodes node <= size)%nat ->
  parentIsNull (getInfo node) = isTop ->
  notTopBelow node ->
  numObservations (getInfo node) = length mid ->
  (length mid = 0%nat \/ observationIndices (getInfo node) = Some (length pre)) ->
  (isTop = true -> mid ≡ₚ seq 0 (length mid)) ->
  exists node' mid',
    repartition node (pre ++ mid ++ post) = (node', pre ++ mid' ++ post) /\
    mid ≡ₚ mid' /\ shape isTop (length pre) (length mid) node'.
Proof.
  induction size as [|size IH]; intros node isTop pre mid post Hsize Htop Hbelow Hnum Hobs Hseq.
  { destruct node; simpl in Hsize; lia. }
  destruct node as [i m | i l r rule]; simpl in *.
  - destruct (repartition_bottom i m (pre ++ mid ++ post)) as [m' ->].
    exists (Bottom i m'), mid. simpl. repeat split; auto.
  - destruct Hbelow as (Hlt & Hrt & Hlb & Hrb).
    rewrite repartition_parent. cbv zeta.
    destruct (0 <? numObservations i)%nat eqn:Hpos.
    + apply Nat.ltb_lt in Hpos.
      destruct Hobs as [Hz | Hobs]; [lia|].
      rewrite Hobs, Hnum, readSlice_middle, Htop.
      assert (Hne : mid <> []) by (destruct mid; simpl in *; [lia|done]).
      pose proof (partition_count_perm isTop rule mid Hne Hseq) as Hpart.
      destruct (if isTop then partitionRange fit rule mid (length mid)
                else partitionIndices fit rule mid (length mid)) as [k mid1].
      destruct Hpart as [Hk Hperm1].
      pose proof (Permutation_length Hperm1) as Hlen1.
      rewrite writeSlice_middle by done.
      rewrite <- (take_drop k mid1), <- app_assoc.
      assert (Hlk : length (take k mid1) = k) by (rewrite length_take; lia).
      assert (Hrk : length (drop k mid1) = (length mid - k)%nat)
        by (rewrite length_drop; lia).
      destruct (IH (setObservations (clearObservations l) (Some (length pre)) k)
                  false pre (take k mid1) (drop k mid1 ++ post))
        as (l2 & ml & -> & Hpl & Hsl).
      { rewrite getNumNodes_setObservations, getNumNodes_clearObservations. lia. }
      { by rewrite getInfo_setObservations; simpl; rewrite parentIsNull_clearObservations. }
      { by apply notTopBelow_setObservations, notTopBelow_clearObservations. }
      { by rewrite getInfo_setObservations. }
      { right. by rewrite getInfo_setObservations. }
      { done. }
      pose proof (Permutation_length Hpl) as Hlml.
      replace (pre ++ ml ++ drop k mid1 ++ post)
        with ((pre ++ ml) ++ drop k mid1 ++ post) by (by rewrite <- app_assoc).
      destruct (IH (setObservations (clearObservations r)
                      ((fun p => (p + k)%nat) <$> Some (length pre)) (length mid - k))
                  false (pre ++ ml) (drop k mid1) post)
        as (r2 & mr & -> & Hpr & Hsr).
      { rewrite getNumNodes_setObservations, getNumNodes_clearObservations. lia. }
      { by rewrite getInfo_setObservations; simpl; rewrite parentIsNull_clearObservations. }
      { by apply notTopBelow_setObservations, notTopBelow_clearObservations. }
      { rewrite getInfo_setObservations. simpl. lia. }
      { right. rewrite getInfo_setObservations. simpl. rewrite length_app. do 2 f_equal. lia. }
      { done. }
      exists (Parent i l2 r2 rule), (ml ++ mr). split; [by rewrite <- !app_assoc|].
      split.
      { etrans; [exact Hperm1|]. rewrite <- (take_drop k mid1) at 1.
        by apply Permutation_app. }
      simpl. repeat split; auto.
      exists k. split; [lia|]. split.
      * by rewrite Hlk in Hsl.
      * rewrite length_app, Hrk in Hsr. by rewrite <- Hlml, Hlk in Hsr.
    + apply Nat.ltb_ge in Hpos.
      assert (Hmid : mid = []) by (destruct mid; simpl in *; [done|lia]).
      subst mid. exists (Parent i (clearObservations l) (clearObservations r) rule), [].
      split; [done|]. split; [done|].
      simpl. repeat split; auto.
      exists 0%nat. split; [lia|].
      split; by apply shape_clearObservations.
Qed.

End Repartition.

Section Operations.

Context {S : MiscStats} {P : MiscPartition}.
Hypothesis contract : partitionContract P.
Variable fit : BARTFit.

Lemma shape_header isTop start len n :
  shape isTop start len n ->
  parentIsNull (getInfo n) = isTop /\ numObservations (getInfo n) = len /\
  (len = 0%nat \/ observationIndices (getInfo n) = Some start).
Proof. destruct n; simpl; tauto. Qed.

Lemma splitChildren_ready node newRule el er :
  getInfo (splitChildren fit node newRule el er) = getInfo node /\
  notTopBelow (splitChildren fit node newRule el er) /\
  (getNumNodes (splitChildren fit node newRule el er) = 3)%nat.
Proof. unfold splitChildren. by destruct el, er. Qed.

Lemma addObservationsToChildren_bottom chainNum y i m indices :
  exists m', addObservationsToChildren fit chainNum y (Bottom i m) indices
             = (Bottom i m', indices).
Proof. eexists. by rewrite addObservationsToChildren_equation_1. Qed.

Lemma addObservationsToChildren_nostats_bottom i m indices :
  exists m', addObservationsToChildren_nostats fit (Bottom i m) indices
             = (Bottom i m', indices).
Proof. eexists. by rewrite addObservationsToChildren_nostats_equation_1. Qed.

Lemma split_staysWithinSlice chainNum newRule y el er :
  staysWithinSlice (fun st => returned (split fit chainNum newRule y el er st)).
Proof.
  intros isTop node pre mid post node' indices' Hshape Hseq.
  unfold split. destruct (variableIndex newRule <? 0); [done|]. simpl.
  destruct (shape_header _ _ _ _ Hshape) as (Htop & Hnum & Hobs).
  destruct (splitChildren_ready node newRule el er) as (Hinfo & Hbelow & Hsize).
  destruct (repartition_shape contract fit (addObservationsToChildren fit chainNum y)
              (addObservationsToChildren_bottom chainNum y)
              (addObservationsToChildren_equation_2 _ _ fit chainNum y)
              3 (splitChildren fit node newRule el er) isTop pre mid post)
    as (n2 & mid' & -> & Hperm & Hshape'); rewrite ?Hinfo; auto; try lia.
  intros [= <- <-]. eauto.
Qed.

Lemma split_nostats_staysWithinSlice newRule el er :
  staysWithinSlice (fun st => returned (split_nostats fit newRule el er st)).
Proof.
  intros isTop node pre mid post node' indices' Hshape Hseq.
  unfold split_nostats. destruct (variableIndex newRule <? 0); [done|]. simpl.
  destruct (shape_header _ _ _ _ Hshape) as (Htop & Hnum & Hobs).
  destruct (splitChildren_ready node newRule el er) as (Hinfo & Hbelow & Hsize).
  destruct (repartition_shape contract fit (addObservationsToChildren_nostats fit)
              addObservationsToChildren_nostats_bottom
              (addObservationsToChildren_nostats_equation_2 _ fit)
              3 (splitChildren fit node newRule el er) isTop pre mid post)
    as (n2 & mid' & -> & Hperm & Hshape'); rewrite ?Hinfo; auto; try lia.
  intros [= <- <-]. eauto.
Qed.

Lemma orphanChildren_staysWithinSlice :
  staysWithinSlice (fun st => n ← orphanChildren st.1; Some (n, st.2)).
Proof.
  intros isTop node pre mid post node' indices' Hshape Hseq. simpl.
  destruct node as [i m | i l r rule]; simpl; [done|].
  intros [= <- <-]. exists mid. repeat split; try done; simpl in Hshape; tauto.
Qed.

(** An operation that stays within the slice of the node it acts on
    stays within the slice of every node above that one. *)
Lemma atPath_staysWithinSlice f path :
  staysWithinSlice f -> staysWithinSlice (fun st => atPath f path st.1 st.2).
Proof.
  intros Hf. induction path as [|goRight path IH]; simpl.
  { intros isTop node pre mid post node' indices' Hshape Hseq Heq.
    eapply Hf; eauto. }
  intros isTop node pre mid post node' indices' Hshape Hseq. simpl.
  destruct node as [i m | i l r rule]; [done|].
  simpl in Hshape. destruct Hshape as (Htop & Hnum & Hobs & k & Hk & Hl & Hr).
  assert (Hlk : length (take k mid) = k) by (rewrite length_take; lia).
  assert (Hrk : length (drop k mid) = (length mid - k)%nat) by (rewrite length_drop; lia).
  destruct goRight.
  - destruct (atPath f path r (pre ++ mid ++ post)) as [[r' ind]|] eqn:Hat; [|done].
    simpl. intros [= <- <-].
    rewrite <- (take_drop k mid) in Hat.
    replace (pre ++ (take k mid ++ drop k mid) ++ post)
      with ((pre ++ take k mid) ++ drop k mid ++ post) in Hat
      by (by rewrite <- !app_assoc).
    destruct (IH false r (pre ++ take k mid) (drop k mid) post r' ind)
      as (mr & Hperm & -> & Hshape'); [| done | done |].
    { by rewrite length_app, Hlk, Hrk. }
    exists (take k mid ++ mr). split.
    { rewrite <- (take_drop k mid) at 1. by apply Permutation_app. }
    split; [by rewrite <- !app_assoc|].
    simpl. repeat split; auto. exists k. split; [done|]. split; [done|].
    by rewrite length_app, Hlk, Hrk in Hshape'.
  - destruct (atPath f path l (pre ++ mid ++ post)) as [[l' ind]|] eqn:Hat; [|done].
    simpl. intros [= <- <-].
    rewrite <- (take_drop k mid), <- app_assoc in Hat.
    destruct (IH false l pre (take k mid) (drop k mid ++ post) l' ind)
      as (ml & Hperm & -> & Hshape'); [| done | done |].
    { by rewrite Hlk. }
    exists (ml ++ drop k mid). split.
    { rewrite <- (take_drop k mid) at 1. by apply Permutation_app. }
    split; [by rewrite <- !app_assoc|].
    simpl. repeat split; auto. exists k. split; [done|]. split; [|done].
    by rewrite Hlk in Hshape'.
Qed.

Lemma Tree_new_invariant indices numPredictors :
  indices ≡ₚ seq 0 (length indices) ->
  treeInvariant (length indices) (Tree_new indices numPredictors).
Proof. intros Hperm. split; [done|]. simpl. auto. Qed.

Lemma applyOp_invariant n op t : treeInvariant n t -> treeInvariant n (applyOp fit op t).
Proof.
  intros [Hperm Hshape].
  assert (Hlen : length (treeIndices t) = n)
    by (by rewrite (Permutation_length Hperm), length_seq).
  assert (Hany : forall f, staysWithinSlice f -> forall path,
            treeInvariant n
              match atPath f path (top t) (treeIndices t) with
              | Some (node, indices) => mkTree node indices
              | None => t
              end).
  { intros f Hf path.
    destruct (atPath f path (top t) (treeIndices t)) as [[node ind]|] eqn:Hat; [|done].
    destruct (atPath_staysWithinSlice f path Hf true (top t) [] (treeIndices t) [] node ind)
      as (mid' & Hp & -> & Hs); simpl.
    - by rewrite Hlen.
    - intros _. by rewrite Hlen.
    - by rewrite app_nil_r.
    - rewrite app_nil_r. split; simpl; [by rewrite <- Hp | by rewrite Hlen in Hs]. }
  unfold applyOp. destruct op as [path c rule y el er | path rule el er | path].
  - apply (Hany _ (split_staysWithinSlice c rule y el er) path).
  - apply (Hany _ (split_nostats_staysWithinSlice rule el er) path).
  - apply (Hany _ orphanChildren_staysWithinSlice path).
Qed.

Lemma applyOps_invariant n ops : forall t,
  treeInvariant n t -> treeInvariant n (applyOps fit ops t).
Proof.
  unfold applyOps. induction ops as [|op ops IH]; intros t Ht; simpl; [done|].
  by apply IH, applyOp_invariant.
Qed.

End Operations.

(** C2: a tree whose top node starts out owning an index array that holds
    each of the numbers below [numObservations] once keeps, through every
    finite sequence of split and orphanChildren operations, the slices of
    its bottom nodes together holding each of those numbers once, and the
    slice of every node within the slice of its parent. *)
Theorem index_coverage {S : MiscStats} {P : MiscPartition} (fit : BARTFit)
    (numPredictors : nat) (indices : list nat) (ops : list TreeOp) :
  partitionContract P ->
  indices ≡ₚ seq 0 (length indices) ->
  let t := applyOps fit ops (Tree_new indices numPredictors) in
  bottomObservations (treeIndices t) (top t) ≡ₚ seq 0 (length indices) /\
  NoDup (bottomObservations (treeIndices t) (top t)) /\
  slicesNested (top t).
Proof.
  intros contract Hperm. cbv zeta.
  pose proof (applyOps_invariant contract fit (length indices) ops _
                (Tree_new_invariant indices numPredictors Hperm)) as [Hp Hs].
  generalize dependent (applyOps fit ops (Tree_new indices numPredictors)).
  intros t Hp Hs.
  assert (Hb : bottomObservations (treeIndices t) (top t) ≡ₚ seq 0 (length indices)).
  { rewrite (shape_bottomObservations _ _ _ _ _ Hs), drop_0.
    rewrite take_ge; [done|]. by rewrite (Permutation_length Hp), length_seq. }
  split; [done|]. split.
  - rewrite Hb. apply NoDup_ListNoDup, List.seq_NoDup.
  - by apply (shape_slicesNested _ _ _ _ Hs).
Qed.

Lemma index_coverage_witness :
  let t := applyOps (S := sequentialStats) (P := scalarPartition) fit_ordinal5 ops_example
             (Tree_new (S := sequentialStats) [4; 3; 2; 1; 0]%nat 1) in
  bottomObservations (treeIndices t) (top t) ≡ₚ seq 0 5 /\
  NoDup (bottomObservations (treeIndices t) (top t)) /\
  slicesNested (top t).
Proof.
  apply (index_coverage (S := sequentialStats) (P := scalarPartition)
           fit_ordinal5 1 [4; 3; 2; 1; 0]%nat ops_example).
  - exact scalarPartition_contract.
  - simpl. symmetry. apply (Permutation_rev [0; 1; 2; 3; 4]%nat).
Defined.
(** * More properties of Rule and Node *)

(** ** The category mask of a rule *)

Lemma categoryDirections_int32_of_bits v u :
  0 <= u < 2 ^ 32 -> categoryDirections (mkRule v (int32_of_bits u)) = u.
Proof.
  intros Hu. unfold categoryDirections, int32_of_bits. simpl.
  destruct (Z.ltb_spec u (2 ^ 31)).
  - apply Z.mod_small. lia.
  - replace (u - 2 ^ 32) with (u + (-1) * 2 ^ 32) by lia.
    rewrite Z.mod_add by lia. apply Z.mod_small. lia.
Qed.

Lemma shiftl_1_small c : 0 <= c < 32 -> Z.shiftl 1 c mod 2 ^ 32 = 2 ^ c.
Proof.
  intros Hc. rewrite Z.shiftl_1_l. apply Z.mod_small. split; [lia|].
  apply Z.pow_lt_mono_r; lia.
Qed.

Lemma land_pow2_testbit c u :
  0 <= c -> negb (Z.land (2 ^ c) u =? 0) = Z.testbit u c.
Proof.
  intros Hc. destruct (Z.testbit u c) eqn:Hb.
  - apply negb_true_iff, Z.eqb_neq. intros H0.
    assert (Ht : Z.testbit (Z.land (2 ^ c) u) c = true)
      by (by rewrite Z.land_spec, Z.pow2_bits_true, Hb).
    rewrite H0, Z.bits_0 in Ht. discriminate Ht.
  - apply negb_false_iff, Z.eqb_eq. apply Z.bits_inj'. intros k Hk.
    rewrite Z.land_spec, Z.bits_0, Z.pow2_bits_eqb by lia.
    destruct (Z.eqb_spec c k) as [<-|]; [by rewrite Hb | done].
Qed.

Lemma categoryGoesRight_testbit r c :
  0 <= c < 32 -> categoryGoesRight r c = Z.testbit (categoryDirections r) c.
Proof.
  intros Hc. unfold categoryGoesRight. rewrite shiftl_1_small by done.
  apply land_pow2_testbit. lia.
Qed.

Lemma categoryDirections_range r : 0 <= categoryDirections r < 2 ^ 32.
Proof. unfold categoryDirections. apply Z.mod_pos_bound. lia. Qed.

Lemma testbit_high u k : 0 <= u < 2 ^ 32 -> 32 <= k -> Z.testbit u k = false.
Proof.
  intros Hu Hk. destruct (Z.eq_dec u 0) as [->|Hne]; [apply Z.bits_0|].
  apply Z.bits_above_log2; [lia|].
  assert (Z.log2 u < 32) by (apply Z.log2_lt_pow2; lia). lia.
Qed.

Lemma range_of_bits u : 0 <= u -> (forall k, 32 <= k -> Z.testbit u k = false) -> u < 2 ^ 32.
Proof.
  intros Hu Hhigh. destruct (Z.eq_dec u 0) as [->|Hne]; [lia|].
  apply Z.log2_lt_pow2; [lia|].
  destruct (Z.lt_ge_cases (Z.log2 u) 32) as [|Hge]; [done|].
  pose proof (Z.bit_log2 u ltac:(lia)) as Hb. rewrite Hhigh in Hb by done. discriminate Hb.
Qed.

(** X14. The categories of a rule are set one by one: after
    [setCategoryGoesRight] the category goes right, after
    [setCategoryGoesLeft] it goes left, every other category goes where it
    went, and the variable of the rule is the same. *)
Theorem category_set_then_test (r : Rule) (c c' : Z) :
  0 <= c < 32 -> 0 <= c' < 32 ->
  categoryGoesRight (setCategoryGoesRight r c) c'
    = (if c =? c' then true else categoryGoesRight r c') /\
  categoryGoesRight (setCategoryGoesLeft r c) c'
    = (if c =? c' then false else categoryGoesRight r c') /\
  variableIndex (setCategoryGoesRight r c) = variableIndex r /\
  variableIndex (setCategoryGoesLeft r c) = variableIndex r.
Proof.
  intros Hc Hc'. pose proof (categoryDirections_range r) as Hr.
  rewrite !categoryGoesRight_testbit by done.
  unfold setCategoryGoesRight, setCategoryGoesLeft.
  rewrite !shiftl_1_small by done.
  assert (Hlnot : Z.lnot (2 ^ c) mod 2 ^ 32 = 2 ^ 32 - 1 - 2 ^ c).
  { unfold Z.lnot. replace (Z.pred (- 2 ^ c)) with (2 ^ 32 - 1 - 2 ^ c + (-1) * 2 ^ 32) by lia.
    rewrite Z.mod_add by lia. apply Z.mod_small.
    assert (0 < 2 ^ c < 2 ^ 32) by (split; [lia | apply Z.pow_lt_mono_r; lia]). lia. }
  assert (Hbits : forall k, 0 <= k < 32 ->
            Z.testbit (2 ^ 32 - 1 - 2 ^ c) k = negb (c =? k)).
  { intros k Hk. rewrite <- Hlnot.
    rewrite Z.mod_pow2_bits_low by lia.
    rewrite Z.lnot_spec, Z.pow2_bits_eqb by lia. done. }
  assert (Hnot_range : 0 <= 2 ^ 32 - 1 - 2 ^ c < 2 ^ 32).
  { assert (0 < 2 ^ c < 2 ^ 32) by (split; [lia | apply Z.pow_lt_mono_r; lia]). lia. }
  rewrite !categoryDirections_int32_of_bits.
  - rewrite Z.lor_spec, Hlnot, Z.land_spec, Hbits, Z.pow2_bits_eqb by lia.
    destruct (c =? c'); simpl;
      rewrite ?orb_true_r, ?orb_false_r, ?andb_true_r, ?andb_false_r; done.
  - rewrite Hlnot. split; [apply Z.land_nonneg; lia|].
    apply range_of_bits; [apply Z.land_nonneg; lia|].
    intros k Hk. rewrite Z.land_spec, (testbit_high (categoryDirections r)) by done. done.
  - split; [apply Z.lor_nonneg; lia|].
    apply range_of_bits; [apply Z.lor_nonneg; lia|].
    intros k Hk. rewrite Z.lor_spec, (testbit_high (categoryDirections r)) by done.
    rewrite Z.pow2_bits_false by lia. done.
Qed.

Lemma category_set_then_test_witness :
  categoryGoesRight (setCategoryGoesRight (mkRule 0 (-1)) 3) 3 = true /\
  categoryGoesRight (setCategoryGoesLeft (mkRule 0 (-1)) 3) 3 = false /\
  categoryGoesRight (setCategoryGoesLeft (mkRule 0 (-1)) 3) 31 = true.
Proof.
  destruct (category_set_then_test (mkRule 0 (-1)) 3 3 ltac:(lia) ltac:(lia))
    as (H1 & H2 & _).
  destruct (category_set_then_test (mkRule 0 (-1)) 3 31 ltac:(lia) ltac:(lia))
    as (_ & H3 & _).
  split; [exact H1|]. split; [exact H2|]. rewrite H3. reflexivity.
Defined.

(** ** copyFrom and equals *)

(** X15. After [a.copyFrom(b)], [a.equals(b)] holds unless [b] has the invalid
    variable index with a split index that is not the invalid one: the
    copy of an invalid rule is the rule that [invalidate] makes.  A copy of
    a copy is the copy. *)
Theorem copyFrom_then_equals (other : Rule) :
  (Rule_equals (Rule_copyFrom other) other = true <->
   variableIndex other <> DBARTS_INVALID_RULE_VARIABLE \/
   splitIndex other = DBARTS_INVALID_RULE_VARIABLE) /\
  (variableIndex other = DBARTS_INVALID_RULE_VARIABLE ->
   Rule_copyFrom other = invalidate other) /\
  Rule_copyFrom (Rule_copyFrom other) = Rule_copyFrom other.
Proof.
  unfold Rule_equals, Rule_copyFrom, invalidate, DBARTS_INVALID_RULE_VARIABLE.
  destruct other as [v s]. cbn [variableIndex splitIndex].
  destruct (Z.eqb_spec v (-1)) as [->|Hv]; cbn [variableIndex splitIndex negb].
  - change (-1 =? -1) with true. cbn [negb].
    destruct (Z.eqb_spec (-1) s) as [<-|Hs]; repeat split; auto; try tauto.
    intros [H|H]; [done | congruence].
  - rewrite !Z.eqb_refl. cbn [negb].
    destruct (Z.eqb_spec v (-1)); [done|].
    repeat split; auto; tauto.
Qed.

(** ** Counts of nodes *)

Lemma not_grand_counts n :
  (isBottom n || childrenAreBottom n) = true ->
  getNumSwappableNodes n = 0%nat /\ getNumNotBottomNodes n = getNumNoGrandNodes n.
Proof.
  destruct n as [i m | i l r rule]; [done|].
  cbn [isBottom orb]. intros Hc.
  cbn [getNumSwappableNodes getNumNotBottomNodes getNumNoGrandNodes]. rewrite Hc.
  simpl in Hc. apply andb_prop in Hc as [Hl Hr].
  destruct l; [|discriminate]. destruct r; [|discriminate]. done.
Qed.

(** X8. Every node has no child or two: a tree has one bottom node more than
    it has nodes with children, and below its top twice as many nodes as
    it has nodes with children.  A node with children either has two
    bottom nodes as children or is a swappable node. *)
Theorem counts_of_nodes (n : Node) :
  getNumBottomNodes n = (getNumNotBottomNodes n + 1)%nat /\
  getNumNodesBelow n = (2 * getNumNotBottomNodes n)%nat /\
  getNumNotBottomNodes n = (getNumNoGrandNodes n + getNumSwappableNodes n)%nat.
Proof.
  induction n as [i m | i l (IHl1 & IHl2 & IHl3) r (IHr1 & IHr2 & IHr3) rule]; [done|].
  cbn [getNumBottomNodes getNumNotBottomNodes getNumNodesBelow
       getNumNoGrandNodes getNumSwappableNodes].
  split; [lia|]. split; [lia|].
  destruct (childrenAreBottom (Parent i l r rule)) eqn:Hc.
  - simpl in Hc. apply andb_prop in Hc as [Hl Hr].
    destruct l; [|discriminate]. destruct r; [|discriminate]. done.
  - destruct ((isBottom l || childrenAreBottom l) && (isBottom r || childrenAreBottom r))
      eqn:Hs; [|lia].
    apply andb_prop in Hs as [Hl Hr].
    destruct (not_grand_counts l Hl) as [_ ->], (not_grand_counts r Hr) as [_ ->]. lia.
Qed.

(** X9. The depth below a node is at most the number of its nodes with
    children, a tree of that depth has at most [2 ^ depth] bottom nodes,
    and the depth is 0 at a bottom node only. *)
Theorem depth_bounds (n : Node) :
  (getDepthBelow n <= getNumNotBottomNodes n)%nat /\
  (getNumBottomNodes n <= 2 ^ getDepthBelow n)%nat /\
  (getDepthBelow n = 0%nat <-> isBottom n = true).
Proof.
  induction n as [i m | i l (IHl1 & IHl2 & IHl3) r (IHr1 & IHr2 & IHr3) rule];
    [simpl; repeat split; auto|].
  cbn [getDepthBelow getNumNotBottomNodes getNumBottomNodes isBottom].
  destruct (childrenAreBottom (Parent i l r rule)) eqn:Hc.
  - simpl in Hc. apply andb_prop in Hc as [Hl Hr].
    destruct l; [|discriminate]. destruct r; [|discriminate]. simpl.
    split; [lia|]. split; [lia|]. split; [lia|done].
  - split; [lia|]. split; [|split; [lia|done]].
    assert (2 ^ getDepthBelow l <= 2 ^ Nat.max (getDepthBelow l) (getDepthBelow r))%nat
      by (apply Nat.pow_le_mono_r; lia).
    assert (2 ^ getDepthBelow r <= 2 ^ Nat.max (getDepthBelow l) (getDepthBelow r))%nat
      by (apply Nat.pow_le_mono_r; lia).
    rewrite Nat.pow_succ_r'. lia.
Qed.

(** ** The vectors of nodes *)

Section Vectors.

Lemma fillBottomVector_app node : forall result,
  fillBottomVector node result = result ++ getBottomVector node.
Proof.
  unfold getBottomVector.
  induction node as [i m | i l IHl r IHr rule]; intros result; simpl; [done|].
  rewrite IHr, IHl, (IHr (fillBottomVector l [])). by rewrite app_assoc.
Qed.

Lemma getBottomVector_Parent i l r rule :
  getBottomVector (Parent i l r rule) = getBottomVector l ++ getBottomVector r.
Proof. unfold getBottomVector at 1. simpl. by rewrite !fillBottomVector_app. Qed.

Lemma fillNoGrandVector_app node : forall result,
  fillNoGrandVector node result = result ++ getNoGrandVector node.
Proof.
  unfold getNoGrandVector.
  induction node as [i m | i l IHl r IHr rule]; intros result;
    cbn [fillNoGrandVector]; [by rewrite app_nil_r|].
  destruct (childrenAreBottom (Parent i l r rule)); [done|].
  rewrite IHr, IHl, (IHr (fillNoGrandVector l [])). by rewrite app_assoc.
Qed.

Lemma fillNotBottomVector_app node : forall result,
  fillNotBottomVector node result = result ++ getNotBottomVector node.
Proof.
  unfold getNotBottomVector.
  induction node as [i m | i l IHl r IHr rule]; intros result;
    cbn [fillNotBottomVector]; [by rewrite app_nil_r|].
  destruct (childrenAreBottom (Parent i l r rule)); [done|].
  unfold push_back.
  rewrite IHr, IHl, (IHr (fillNotBottomVector l [])). by rewrite !app_assoc.
Qed.

Lemma fillSwappableVector_app node : forall result,
  fillSwappableVector node result = result ++ getSwappableVector node.
Proof.
  unfold getSwappableVector.
  induction node as [i m | i l IHl r IHr rule]; intros result;
    cbn [fillSwappableVector]; [by rewrite app_nil_r|].
  destruct (childrenAreBottom (Parent i l r rule)); [by rewrite app_nil_r|].
  destruct ((isBottom l || childrenAreBottom l) && (isBottom r || childrenAreBottom r));
    [done|].
  unfold push_back.
  rewrite IHr, IHl, (IHr (fillSwappableVector l [])). by rewrite !app_assoc.
Qed.

(** The vectors of a node with children that is not one with two bottom
    nodes as children. *)
Lemma vectors_Parent i l r rule :
  childrenAreBottom (Parent i l r rule) = false ->
  getNoGrandVector (Parent i l r rule) = getNoGrandVector l ++ getNoGrandVector r /\
  getNotBottomVector (Parent i l r rule)
  = getNotBottomVector l ++ getNotBottomVector r ++ [Parent i l r rule] /\
  getSwappableVector (Parent i l r rule)
  = if (isBottom l || childrenAreBottom l) && (isBottom r || childrenAreBottom r)
    then [Parent i l r rule]
    else getSwappableVector l ++ getSwappableVector r ++ [Parent i l r rule].
Proof.
  intros Hc. unfold getNoGrandVector at 1, getNotBottomVector at 1, getSwappableVector at 1.
  cbn [fillNoGrandVector fillNotBottomVector fillSwappableVector]. rewrite Hc.
  split; [by rewrite !fillNoGrandVector_app|]. split.
  - unfold push_back. rewrite !fillNotBottomVector_app. by rewrite <- app_assoc.
  - destruct ((isBottom l || childrenAreBottom l) && (isBottom r || childrenAreBottom r));
      [done|].
    unfold push_back. rewrite !fillSwappableVector_app. by rewrite <- app_assoc.
Qed.

Lemma vectors_no_grand n :
  childrenAreBottom n = true ->
  getNoGrandVector n = [n] /\ getNotBottomVector n = [n] /\ getSwappableVector n = [].
Proof.
  destruct n as [i m | i l r rule]; [done|]. intros Hc.
  unfold getNoGrandVector, getNotBottomVector, getSwappableVector.
  cbn [fillNoGrandVector fillNotBottomVector fillSwappableVector]. by rewrite Hc.
Qed.

Lemma vectors_not_grand n :
  (isBottom n || childrenAreBottom n) = true ->
  getNotBottomVector n = getNoGrandVector n /\ getSwappableVector n = [].
Proof.
  destruct n as [i m | i l r rule]; [done|]. cbn [isBottom orb]. intros Hc.
  by destruct (vectors_no_grand _ Hc) as (-> & -> & ->).
Qed.

End Vectors.

(** X10. Each vector holds the nodes it is named after: bottom nodes, nodes
    whose two children are bottom nodes, nodes with children, and nodes
    with children that have a grandchild.  The nodes with children are
    those of the two last kinds together. *)
Theorem vectors_hold_their_kind (n : Node) :
  Forall (fun m => isBottom m = true) (getBottomVector n) /\
  Forall (fun m => childrenAreBottom m = true) (getNoGrandVector n) /\
  Forall (fun m => isBottom m = false) (getNotBottomVector n) /\
  Forall (fun m => isBottom m = false /\ childrenAreBottom m = false)
         (getSwappableVector n) /\
  getNotBottomVector n ≡ₚ getNoGrandVector n ++ getSwappableVector n.
Proof.
  induction n as [i m | i l (IHl1 & IHl2 & IHl3 & IHl4 & IHl5)
                        r (IHr1 & IHr2 & IHr3 & IHr4 & IHr5) rule].
  { repeat split; by repeat constructor. }
  split; [by rewrite getBottomVector_Parent; apply Forall_app|].
  destruct (childrenAreBottom (Parent i l r rule)) eqn:Hc.
  { destruct (vectors_no_grand _ Hc) as (-> & -> & ->).
    repeat split; try by repeat constructor. }
  destruct (vectors_Parent i l r rule Hc) as (-> & -> & ->).
  split; [by apply Forall_app|].
  split; [by rewrite !Forall_app; repeat split; try done; repeat constructor|].
  destruct ((isBottom l || childrenAreBottom l) && (isBottom r || childrenAreBottom r))
    eqn:Hs.
  - apply andb_prop in Hs as [Hl Hr].
    destruct (vectors_not_grand l Hl) as [-> _], (vectors_not_grand r Hr) as [-> _].
    split; [by repeat constructor|]. by rewrite <- !app_assoc.
  - split; [by rewrite !Forall_app; repeat split; try done; repeat constructor|].
    rewrite IHl5, IHr5. solve_Permutation.
Qed.

(** X11. [findBottomNode] returns, for every row, a bottom node, and one of
    those of [getBottomVector]. *)
Theorem findBottomNode_in_vector (fit : BARTFit) (xt : list xint_t) (n : Node) :
  isBottom (findBottomNode fit xt n) = true /\
  findBottomNode fit xt n ∈ getBottomVector n.
Proof.
  induction n as [i m | i l [IHl1 IHl2] r [IHr1 IHr2] rule].
  - split; [done|]. unfold getBottomVector. simpl. set_solver.
  - cbn [findBottomNode]. rewrite getBottomVector_Parent.
    destruct (zth 0 xt (variableIndex rule) >? splitIndex rule);
      (split; [done|]); set_solver.
Qed.

(** ** Enumeration of the bottom nodes *)

Section Enumeration.

Lemma fillAndEnumerateBottomVector_spec node : forall result index,
  fillAndEnumerateBottomVector node result index
  = ((enumerateBottomNodes node index).1,
     result ++ getBottomVector (enumerateBottomNodes node index).1,
     (enumerateBottomNodes node index).2).
Proof.
  induction node as [i m | i l IHl r IHr rule]; intros result index.
  - done.
  - cbn [fillAndEnumerateBottomVector enumerateBottomNodes]. rewrite IHl.
    destruct (enumerateBottomNodes l index) as [l' index1]. cbn [fst snd].
    rewrite IHr. destruct (enumerateBottomNodes r index1) as [r' index2]. cbn [fst snd].
    by rewrite getBottomVector_Parent, app_assoc.
Qed.

Lemma enumerateBottomNodes_spec node : forall index,
  let '(node', index') := enumerateBottomNodes node index in
  index' = (index + getNumBottomNodes node)%nat /\
  length (getBottomVector node') = getNumBottomNodes node /\
  (forall k b, getBottomVector node' !! k = Some b ->
     enumerationIndex (getInfo b) = Z.of_nat (index + k)) /\
  (forall indices, bottomObservations indices node' = bottomObservations indices node).
Proof.
  induction node as [i m | i l IHl r IHr rule]; intros index.
  - cbn [enumerateBottomNodes]. split; [simpl; lia|]. split; [done|].
    split; [|done]. intros [|k] b; [|done]. intros [= <-]. simpl. f_equal. lia.
  - cbn [enumerateBottomNodes]. specialize (IHl index).
    destruct (enumerateBottomNodes l index) as [l' index1].
    destruct IHl as (-> & Hll & Hl & Hlo).
    specialize (IHr (index + getNumBottomNodes l)%nat).
    destruct (enumerateBottomNodes r _) as [r' index2].
    destruct IHr as (-> & Hrl & Hr & Hro).
    rewrite getBottomVector_Parent.
    split; [simpl; lia|]. split; [by rewrite length_app, Hll, Hrl|].
    split.
    + intros k b Hk. apply lookup_app_Some in Hk as [Hk | [Hge Hk]].
      * by apply Hl.
      * rewrite (Hr _ _ Hk). f_equal. lia.
    + intros indices. simpl. by rewrite Hlo, Hro.
Qed.

End Enumeration.

(** X12. [getAndEnumerateBottomVector] leaves the node as
    [enumerateBottomNodes] leaves it and returns its bottom nodes from left
    to right; the enumeration index of each is its position in the vector,
    and the slices of the bottom nodes are as they were. *)
Theorem enumeration_is_position (n : Node) :
  let '(n', v) := getAndEnumerateBottomVector n in
  n' = Node_enumerateBottomNodes n /\
  v = getBottomVector n' /\
  length v = getNumBottomNodes n /\
  (forall k b, v !! k = Some b -> enumerationIndex (getInfo b) = Z.of_nat k) /\
  (forall indices, bottomObservations indices n' = bottomObservations indices n).
Proof.
  unfold getAndEnumerateBottomVector, Node_enumerateBottomNodes.
  rewrite fillAndEnumerateBottomVector_spec. cbn [fst snd app].
  pose proof (enumerateBottomNodes_spec n 0) as H.
  destruct (enumerateBottomNodes n 0) as [n' index']. cbn [fst].
  destruct H as (_ & Hlen & Hidx & Hobs). auto.
Qed.

(** ** countVariableUses *)

(** X13. Over a tree whose rules are over variables that the array has a count
    for, [countVariableUses] adds to the count of each variable the number
    of nodes whose rule is over it, as a [uint32_t] does. *)
Theorem countVariableUses_counts (n : Node) : forall variableCounts,
  rulesWithin (length variableCounts) n ->
  Forall (fun c => 0 <= c < 2 ^ 32) variableCounts ->
  exists counts',
    countVariableUses n variableCounts = Some counts' /\
    length counts' = length variableCounts /\
    Forall (fun c => 0 <= c < 2 ^ 32) counts' /\
    forall v c, variableCounts !! v = Some c ->
      counts' !! v = Some ((c + Z.of_nat (numRulesOver v n)) mod 2 ^ 32).
Proof.
  induction n as [i m | i l IHl r IHr rule]; intros counts Hin Hrange.
  - exists counts. repeat split; [done|].
    intros v c Hv. rewrite Hv. f_equal. simpl. rewrite Z.add_0_r.
    symmetry. apply Z.mod_small.
    by apply (proj1 (Forall_lookup _ _) Hrange v c).
  - cbn [rulesWithin] in Hin. destruct Hin as (Hv0 & Hl & Hr).
    cbn [countVariableUses].
    destruct (Z.leb_spec 0 (variableIndex rule)) as [_|]; [|lia].
    destruct (lookup_lt_is_Some_2 counts (Z.to_nat (variableIndex rule))) as [c0 Hc0]; [lia|].
    rewrite Hc0. cbn [mbind option_bind].
    set (counts1 := <[Z.to_nat (variableIndex rule) := (c0 + 1) mod 2 ^ 32]> counts).
    assert (Hlen1 : length counts1 = length counts) by apply length_insert.
    assert (Hrange1 : Forall (fun c => 0 <= c < 2 ^ 32) counts1).
    { apply Forall_insert; [done|]. apply Z.mod_pos_bound. lia. }
    destruct (IHl counts1) as (counts2 & -> & Hlen2 & Hrange2 & Hl2);
      [by rewrite Hlen1 | done |].
    cbn [mbind option_bind].
    destruct (IHr counts2) as (counts3 & -> & Hlen3 & Hrange3 & Hr3);
      [by rewrite Hlen2, Hlen1 | done |].
    exists counts3. split; [done|]. split; [lia|]. split; [done|].
    intros v c Hv.
    assert (Hv1 : counts1 !! v
              = Some ((c + (if bool_decide (variableIndex rule = Z.of_nat v)
                            then 1 else 0)) mod 2 ^ 32)).
    { unfold counts1. case_bool_decide as Heq.
      - assert (Hto : Z.to_nat (variableIndex rule) = v) by lia.
        rewrite Hto in Hc0 |- *.
        rewrite list_lookup_insert_eq by (by apply lookup_lt_Some in Hv).
        congruence.
      - rewrite list_lookup_insert_ne by lia. rewrite Hv, Z.add_0_r. f_equal.
        symmetry. apply Z.mod_small. by apply (proj1 (Forall_lookup _ _) Hrange v c). }
    rewrite (Hr3 v _ (Hl2 v _ Hv1)). apply (f_equal Some).
    rewrite Z.add_mod_idemp_l, <- Z.add_assoc, Z.add_mod_idemp_l by lia.
    apply (f_equal (fun z => z mod 2 ^ 32)).
    cbn [numRulesOver]. case_bool_decide; lia.
Qed.

Lemma countVariableUses_counts_witness :
  exists counts',
    countVariableUses (stump (mkRule 0 1)) [2 ^ 32 - 1] = Some counts' /\
    length counts' = 1%nat /\
    Forall (fun c => 0 <= c < 2 ^ 32) counts' /\
    forall v c, [2 ^ 32 - 1] !! v = Some c ->
      counts' !! v = Some ((c + Z.of_nat (numRulesOver v (stump (mkRule 0 1)))) mod 2 ^ 32).
Proof.
  apply (countVariableUses_counts (stump (mkRule 0 1)) [2 ^ 32 - 1]).
  - simpl. lia.
  - repeat constructor; lia.
Defined.

(** ** subsetVector over the bottom nodes *)

Section Subsets.

Lemma bottomObservations_vector indices n :
  bottomObservations indices n
  = concat ((fun b => readSlice indices (observationIndices (getInfo b))
                        (numObservations (getInfo b))) <$> getBottomVector n).
Proof.
  induction n as [i m | i l IHl r IHr rule].
  - unfold getBottomVector. simpl. by rewrite app_nil_r.
  - rewrite getBottomVector_Parent, fmap_app, concat_app. simpl. by rewrite IHl, IHr.
Qed.

Lemma lookups_of_seq {T} (v : list T) :
  (fun i => v !! i) <$> seq 0 (length v) = Some <$> v.
Proof.
  apply list_eq. intros k. rewrite !list_lookup_fmap.
  destruct (decide (k < length v)%nat) as [Hk|Hk].
  - rewrite lookup_seq_lt by done. simpl.
    by destruct (lookup_lt_is_Some_2 v k Hk) as [y ->].
  - rewrite lookup_seq_ge by lia. by rewrite lookup_ge_None_2 by lia.
Qed.

Lemma lookups_of_Forall2 {T} (v : list T) indices ys :
  Forall2 (fun i y => v !! i = Some y) indices ys ->
  (fun i => v !! i) <$> indices = Some <$> ys.
Proof. induction 1 as [|i y indices ys Hi _ IH]; [done|]. rewrite !fmap_cons. congruence. Qed.

Lemma Forall2_of_concat {A B} (R : A -> B -> Prop) ls ks :
  Forall2 (Forall2 R) ls ks -> Forall2 R (concat ls) (concat ks).
Proof. induction 1; simpl; [constructor | by apply Forall2_app]. Qed.

(** A bottom node of a tree that lies within the index array points to as
    many indices as it has observations. *)
Lemma shape_slice_length indices n : forall isTop start len,
  shape isTop start len n -> (start + len <= length indices)%nat ->
  Forall (fun b => length (readSlice indices (observationIndices (getInfo b))
                             (numObservations (getInfo b)))
                   = numObservations (getInfo b)) (getBottomVector n).
Proof.
  induction n as [i m | i l IHl r IHr rule]; intros isTop start len Hshape Hlen.
  - unfold getBottomVector. simpl in *. repeat constructor. simpl.
    destruct Hshape as (_ & -> & [-> | ->] & _).
    + by destruct (observationIndices i).
    + simpl. rewrite length_take, length_drop. lia.
  - rewrite getBottomVector_Parent. simpl in Hshape.
    destruct Hshape as (_ & _ & _ & k & Hk & Hl & Hr).
    apply Forall_app. split; [apply (IHl _ _ _ Hl) | apply (IHr _ _ _ Hr)]; lia.
Qed.

End Subsets.

(** X2. In a tree built from a new tree by splits and orphanChildren calls,
    [subsetVector] reads, at every bottom node, entries of a vector that
    has one entry for each observation; and each entry of the vector is in
    the subset of one bottom node: the subsets of the bottom nodes,
    together, hold the entries of the vector in some order. *)
Theorem subsetVector_covers {S : MiscStats} {P : MiscPartition} {T : Type}
    (fit : BARTFit) (numPredictors : nat) (indices : list nat) (ops : list TreeOp)
    (v : list T) :
  partitionContract P ->
  indices ≡ₚ seq 0 (length indices) ->
  length v = length indices ->
  let t := applyOps fit ops (Tree_new indices numPredictors) in
  exists subsets,
    mapM (subsetVector v (treeIndices t)) (getBottomVector (top t)) = Some subsets /\
    concat subsets ≡ₚ v.
Proof.
  intros contract Hperm Hlen. cbv zeta.
  pose proof (applyOps_invariant contract fit (length indices) ops _
                (Tree_new_invariant indices numPredictors Hperm)) as [Hp Hs].
  generalize dependent (applyOps fit ops (Tree_new indices numPredictors)).
  intros t Hp Hs.
  assert (Hall : bottomObservations (treeIndices t) (top t) = treeIndices t).
  { rewrite (shape_bottomObservations _ _ _ _ _ Hs), drop_0.
    apply take_ge. by rewrite (Permutation_length Hp), length_seq. }
  rewrite bottomObservations_vector in Hall.
  assert (Hin : forall i, i ∈ treeIndices t -> is_Some (v !! i)).
  { intros i Hi. apply lookup_lt_is_Some. rewrite Hlen.
    rewrite Hp in Hi. apply elem_of_seq in Hi. lia. }
  assert (Hfull : Forall (fun b => subsetVector v (treeIndices t) b
                    = mapM (fun i => v !! i)
                        (readSlice (treeIndices t) (observationIndices (getInfo b))
                           (numObservations (getInfo b))))
                    (getBottomVector (top t))).
  { eapply Forall_impl.
    - apply (shape_slice_length (treeIndices t) (top t) _ _ _ Hs).
      by rewrite (Permutation_length Hp), length_seq.
    - intros b Hb. unfold subsetVector. cbv zeta. by rewrite Hb, Nat.eqb_refl. }
  assert (Hsome : is_Some (mapM (subsetVector v (treeIndices t)) (getBottomVector (top t)))).
  { apply mapM_is_Some, Forall_forall. intros b Hb. unfold compose.
    rewrite (proj1 (Forall_forall _ _) Hfull b Hb).
    apply mapM_is_Some, Forall_forall. intros i Hi. apply Hin.
    rewrite <- Hall. apply list_elem_of_In, in_concat.
    eexists. split; [|by apply list_elem_of_In, Hi].
    apply list_elem_of_In, list_elem_of_fmap. by exists b. }
  destruct Hsome as [subsets Hsubsets]. exists subsets. split; [done|].
  apply mapM_Some_1 in Hsubsets.
  assert (Hlook : Forall2 (fun i y => v !! i = Some y) (treeIndices t) (concat subsets)).
  { rewrite <- Hall. apply Forall2_of_concat, Forall2_fmap_l.
    apply Forall2_same_length_lookup. split; [by eapply Forall2_length|].
    intros k b ys Hkb Hkys.
    pose proof (Forall2_lookup_lr _ _ _ _ _ _ Hsubsets Hkb Hkys) as Hb.
    cbv beta in Hb.
    rewrite (proj1 (Forall_forall _ _) Hfull b (list_elem_of_lookup_2 _ _ _ Hkb)) in Hb.
    by apply mapM_Some_1 in Hb. }
  apply lookups_of_Forall2 in Hlook.
  assert (Hsomes : Some <$> concat subsets ≡ₚ Some <$> v).
  { rewrite <- Hlook, <- lookups_of_seq, Hlen. by apply fmap_Permutation. }
  symmetry in Hsomes. apply Permutation_map_inv in Hsomes as (ys & Hys & Hpe).
  apply (inj (fmap Some)) in Hys. subst ys. by symmetry.
Qed.

Lemma subsetVector_covers_witness :
  let t := applyOps (S := sequentialStats) (P := scalarPartition) fit_ordinal5 ops_example
             (Tree_new (S := sequentialStats) [4; 3; 2; 1; 0]%nat 1) in
  exists subsets,
    mapM (subsetVector y5 (treeIndices t)) (getBottomVector (top t)) = Some subsets /\
    concat subsets ≡ₚ y5.
Proof.
  apply (subsetVector_covers (S := sequentialStats) (P := scalarPartition)
           fit_ordinal5 1 [4; 3; 2; 1; 0]%nat ops_example y5).
  - exact scalarPartition_contract.
  - simpl. symmetry. apply (Permutation_rev [0; 1; 2; 3; 4]%nat).
  - reflexivity.
Defined.

(** ** The two variants of addObservationsToChildren *)

Section Variants.

Context {S : MiscStats} {P : MiscPartition}.
Variable fit : BARTFit.

Lemma addObservationsToChildren_repartitions chainNum y :
  repartitions fit (addObservationsToChildren fit chainNum y).
Proof.
  split.
  - apply addObservationsToChildren_bottom.
  - intros i l r rule indices. apply addObservationsToChildren_equation_2.
Qed.

Lemma addObservationsToChildren_nostats_repartitions :
  repartitions fit (addObservationsToChildren_nostats fit).
Proof.
  split.
  - apply addObservationsToChildren_nostats_bottom.
  - intros i l r rule indices. apply addObservationsToChildren_nostats_equation_2.
Qed.

Lemma withoutStatistics_size n : getNumNodes (withoutStatistics n) = getNumNodes n.
Proof. induction n; simpl; congruence. Qed.

(** Two functions with the recursion of [addObservationsToChildren] leave
    the same index array and the same node, but for what its bottom nodes
    store. *)
Lemma repartitions_agree (f g : Node -> list nat -> Node * list nat) size :
  repartitions fit f -> repartitions fit g ->
  forall node indices, (getNumNodes node <= size)%nat ->
    withoutStatistics (f node indices).1 = withoutStatistics (g node indices).1 /\
    (f node indices).2 = (g node indices).2.
Proof.
  intros [Hfb Hfp] [Hgb Hgp].
  induction size as [|size IH]; intros node indices Hsize.
  { destruct node; simpl in Hsize; lia. }
  destruct node as [i m | i l r rule].
  - destruct (Hfb i m indices) as [mf ->], (Hgb i m indices) as [mg ->]. done.
  - rewrite Hfp, Hgp. cbv zeta. simpl in Hsize.
    destruct (0 <? numObservations i)%nat; [|done].
    destruct (if parentIsNull i then _ else _) as [k slice].
    set (l1 := setObservations (clearObservations l) (observationIndices i) k).
    set (r1 := setObservations (clearObservations r) _ _).
    set (indices0 := writeSlice indices (observationIndices i) slice).
    destruct (IH l1 indices0) as [Hl Hli].
    { unfold l1. rewrite getNumNodes_setObservations, getNumNodes_clearObservations. lia. }
    destruct (f l1 indices0) as [lf indicesf], (g l1 indices0) as [lg indicesg].
    cbn [fst snd] in Hl, Hli. subst indicesg.
    destruct (IH r1 indicesf) as [Hr Hri].
    { unfold r1. rewrite getNumNodes_setObservations, getNumNodes_clearObservations. lia. }
    destruct (f r1 indicesf) as [rf indicesf'], (g r1 indicesf) as [rg indicesg'].
    cbn [fst snd] in *. split; [|done]. simpl. by rewrite Hl, Hr.
Qed.

Lemma withoutObservations_clearObservations n :
  withoutObservations (clearObservations n) = withoutObservations n.
Proof.
  induction n as [i m | i l IHl r IHr rule]; simpl.
  - by destruct i as [[] ? ? ? ?].
  - rewrite IHl, IHr. by destruct i as [[] ? ? ? ?].
Qed.

Lemma withoutObservations_setObservations n p num :
  withoutObservations (setObservations n p num) = withoutObservations n.
Proof. by destruct n. Qed.

(** A function with the recursion of [addObservationsToChildren] changes
    neither the node it is called on, but for what it stores as a bottom
    node, nor, below it, anything but the observations of the nodes and
    what the bottom nodes store. *)
Lemma repartitions_keeps (f : Node -> list nat -> Node * list nat) size :
  repartitions fit f ->
  forall node indices, (getNumNodes node <= size)%nat ->
    getInfo (f node indices).1 = getInfo node /\
    withoutObservations (f node indices).1 = withoutObservations node.
Proof.
  intros [Hfb Hfp].
  induction size as [|size IH]; intros node indices Hsize.
  { destruct node; simpl in Hsize; lia. }
  destruct node as [i m | i l r rule].
  - destruct (Hfb i m indices) as [mf ->]. done.
  - rewrite Hfp. cbv zeta. simpl in Hsize.
    destruct (0 <? numObservations i)%nat.
    + destruct (if parentIsNull i then _ else _) as [k slice].
      set (l1 := setObservations (clearObservations l) (observationIndices i) k).
      set (r1 := setObservations (clearObservations r) _ _).
      set (indices0 := writeSlice indices (observationIndices i) slice).
      destruct (IH l1 indices0) as [_ Hl].
      { unfold l1. rewrite getNumNodes_setObservations, getNumNodes_clearObservations. lia. }
      destruct (f l1 indices0) as [lf indicesf]. cbn [fst] in Hl.
      destruct (IH r1 indicesf) as [_ Hr].
      { unfold r1. rewrite getNumNodes_setObservations, getNumNodes_clearObservations. lia. }
      destruct (f r1 indicesf) as [rf indicesf']. cbn [fst] in *.
      split; [done|]. simpl. rewrite Hl, Hr. unfold l1, r1.
      by rewrite !withoutObservations_setObservations, !withoutObservations_clearObservations.
    + split; [done|]. simpl. by rewrite !withoutObservations_clearObservations.
Qed.

End Variants.

(** X6. The two variants of [split], called with the same rule and flags on
    the same node, both throw or both return; they leave the same index
    array and the same tree, but for the averages and the numbers of
    effective observations that the bottom nodes store. *)
Theorem split_variants_agree {S : MiscStats} {P : MiscPartition} (fit : BARTFit)
    (chainNum : nat) (newRule : Rule) (y : list double)
    (exhaustedLeftSplits exhaustedRightSplits : bool) (st : NodeState) :
  let '(outcome, (node, indices)) :=
    split fit chainNum newRule y exhaustedLeftSplits exhaustedRightSplits st in
  let '(outcome', (node', indices')) :=
    split_nostats fit newRule exhaustedLeftSplits exhaustedRightSplits st in
  outcome = outcome' /\ indices = indices' /\
  withoutStatistics node = withoutStatistics node'.
Proof.
  unfold split, split_nostats. destruct st as [node0 indices0].
  destruct (variableIndex newRule <? 0); [done|].
  set (n := splitChildren fit node0 newRule exhaustedLeftSplits exhaustedRightSplits).
  destruct (repartitions_agree fit (addObservationsToChildren fit chainNum y)
              (addObservationsToChildren_nostats fit) (getNumNodes n)
              (addObservationsToChildren_repartitions fit chainNum y)
              (addObservationsToChildren_nostats_repartitions fit) n indices0 ltac:(lia))
    as [Hn Hi].
  destruct (addObservationsToChildren fit chainNum y n indices0) as [n1 i1].
  destruct (addObservationsToChildren_nostats fit n indices0) as [n2 i2].
  by cbn [fst snd] in *.
Qed.

(** ** The bottom node of an observation *)

Section Sorted.

Context {P : MiscPartition}.
Hypothesis separates : partitionSeparates P.
Variable fit : BARTFit.

Lemma partitionSeparates_contract : partitionContract P.
Proof.
  intros x cut indices Hne. destruct (separates x cut indices Hne) as [Hi Hr]. split.
  - destruct (misc_partitionIndices _ _ _ _) as [k out]. by destruct Hi as (? & ? & _).
  - destruct (misc_partitionRange _ _ _ _) as [k out]. by destruct Hr as (? & ? & _).
Qed.

Lemma descendsRight_key rule (out : list nat) p :
  validRule fit rule -> (p < length out)%nat ->
  descendsRight fit rule (nth p out 0%nat) = (key (columnOf fit rule) out p >? splitIndex rule).
Proof. intros Hv Hp. unfold descendsRight, key. by rewrite zth_observationRow. Qed.

Lemma sorted_of_keys rule k (out : list nat) :
  validRule fit rule -> (k <= length out)%nat ->
  (forall p, (p < k)%nat -> key (columnOf fit rule) out p <= splitIndex rule) ->
  (forall p, (k <= p < length out)%nat -> key (columnOf fit rule) out p > splitIndex rule) ->
  (forall j, j ∈ take k out -> descendsRight fit rule j = false) /\
  (forall j, j ∈ drop k out -> descendsRight fit rule j = true).
Proof.
  intros Hv Hk Hle Hgt. split; intros j Hj.
  - apply list_elem_of_lookup in Hj as [p Hp].
    pose proof (lookup_lt_Some _ _ _ Hp) as Hlt. rewrite length_take in Hlt.
    rewrite lookup_take_lt in Hp by lia.
    rewrite <- (nth_lookup_Some _ _ 0%nat _ Hp), descendsRight_key by (done || lia).
    rewrite Z.gtb_ltb. apply Z.ltb_ge, Hle. lia.
  - apply list_elem_of_lookup in Hj as [p Hp].
    pose proof (lookup_lt_Some _ _ _ Hp) as Hlt. rewrite length_drop in Hlt.
    rewrite lookup_drop in Hp.
    rewrite <- (nth_lookup_Some _ _ 0%nat _ Hp), descendsRight_key by (done || lia).
    rewrite Z.gtb_ltb. apply Z.ltb_lt. specialize (Hgt (k + p)%nat). lia.
Qed.

(** Either mode of the partitioner, on the slice of a node with
    observations. *)
Lemma partition_sorted (isTop : bool) rule (slice : list nat) :
  validRule fit rule -> slice <> [] ->
  (isTop = true -> slice ≡ₚ seq 0 (length slice)) ->
  let '(k, slice') :=
    if isTop then partitionRange fit rule slice (length slice)
    else partitionIndices fit rule slice (length slice) in
  (k <= length slice')%nat /\ slice ≡ₚ slice' /\
  (forall j, j ∈ take k slice' -> descendsRight fit rule j = false) /\
  (forall j, j ∈ drop k slice' -> descendsRight fit rule j = true).
Proof.
  intros Hv Hne Htop.
  destruct (separates (columnOf fit rule) (splitIndex rule) slice Hne) as [Hi Hr].
  destruct isTop.
  - unfold partitionRange. destruct (misc_partitionRange _ _ _ _) as [k slice'].
    destruct Hr as (Hk & Hperm & Hle & Hgt). split; [done|].
    split; [etrans; [by apply Htop | done]|]. by apply sorted_of_keys.
  - unfold partitionIndices. destruct (misc_partitionIndices _ _ _ _) as [k slice'].
    destruct Hi as (Hk & Hperm & Hle & Hgt). split; [done|]. split; [done|].
    by apply sorted_of_keys.
Qed.

Lemma take_drop_app_at k (a b : list nat) :
  length a = k -> take k (a ++ b) = a /\ drop k (a ++ b) = b.
Proof. intros <-. by rewrite take_app_length, drop_app_length. Qed.

Lemma sorted_nil n : sorted fit [] n.
Proof.
  induction n as [i m | i l IHl r IHr rule]; simpl; [done|].
  rewrite take_nil, drop_nil. repeat split; try done; by intros j ?%elem_of_nil.
Qed.

Lemma rulesWithin_clearObservations len n :
  rulesWithin len n -> rulesWithin len (clearObservations n).
Proof. induction n as [i m | i l IHl r IHr rule]; simpl; [done|]. tauto. Qed.

Lemma rulesWithin_setObservations len n p num :
  rulesWithin len n -> rulesWithin len (setObservations n p num).
Proof. by destruct n. Qed.

Lemma shape_numObservations isTop start len n :
  shape isTop start len n -> numObservations (getInfo n) = len.
Proof. destruct n; simpl; tauto. Qed.

Variable repartition : Node -> list nat -> Node * list nat.
Hypothesis Hrepartitions : repartitions fit repartition.

Lemma repartition_sorted size : forall node isTop (pre mid post : list nat),
  (getNumNodes node <= size)%nat ->
  parentIsNull (getInfo node) = isTop ->
  notTopBelow node ->
  rulesWithin (numPredictors (data fit)) node ->
  numObservations (getInfo node) = length mid ->
  (length mid = 0%nat \/ observationIndices (getInfo node) = Some (length pre)) ->
  (isTop = true -> mid ≡ₚ seq 0 (length mid)) ->
  exists node' mid',
    repartition node (pre ++ mid ++ post) = (node', pre ++ mid' ++ post) /\
    mid ≡ₚ mid' /\ shape isTop (length pre) (length mid) node' /\
    sorted fit mid' node' /\ rulesWithin (numPredictors (data fit)) node'.
Proof.
  destruct Hrepartitions as [repartition_bottom repartition_parent].
  induction size as [|size IH];
    intros node isTop pre mid post Hsize Htop Hbelow Hrules Hnum Hobs Hseq.
  { destruct node; simpl in Hsize; lia. }
  destruct node as [i m | i l r rule]; simpl in *.
  - destruct (repartition_bottom i m (pre ++ mid ++ post)) as [m' ->].
    exists (Bottom i m'), mid. simpl. repeat split; auto.
  - destruct Hbelow as (Hlt & Hrt & Hlb & Hrb). destruct Hrules as (Hv & Hrl & Hrr).
    rewrite repartition_parent. cbv zeta.
    destruct (0 <? numObservations i)%nat eqn:Hpos.
    + apply Nat.ltb_lt in Hpos.
      destruct Hobs as [Hz | Hobs]; [lia|].
      rewrite Hobs, Hnum, readSlice_middle, Htop.
      assert (Hne : mid <> []) by (destruct mid; simpl in *; [lia|done]).
      pose proof (partition_sorted isTop rule mid Hv Hne Hseq) as Hpart.
      destruct (if isTop then partitionRange fit rule mid (length mid)
                else partitionIndices fit rule mid (length mid)) as [k mid1].
      destruct Hpart as (Hk & Hperm1 & Hleft & Hright).
      pose proof (Permutation_length Hperm1) as Hlen1.
      rewrite writeSlice_middle by done.
      rewrite <- (take_drop k mid1), <- app_assoc.
      assert (Hlk : length (take k mid1) = k) by (rewrite length_take; lia).
      assert (Hrk : length (drop k mid1) = (length mid - k)%nat)
        by (rewrite length_drop; lia).
      destruct (IH (setObservations (clearObservations l) (Some (length pre)) k)
                  false pre (take k mid1) (drop k mid1 ++ post))
        as (l2 & ml & -> & Hpl & Hsl & Hol & Hwl).
      { rewrite getNumNodes_setObservations, getNumNodes_clearObservations. lia. }
      { by rewrite getInfo_setObservations; simpl; rewrite parentIsNull_clearObservations. }
      { by apply notTopBelow_setObservations, notTopBelow_clearObservations. }
      { by apply rulesWithin_setObservations, rulesWithin_clearObservations. }
      { by rewrite getInfo_setObservations. }
      { right. by rewrite getInfo_setObservations. }
      { done. }
      pose proof (Permutation_length Hpl) as Hlml.
      replace (pre ++ ml ++ drop k mid1 ++ post)
        with ((pre ++ ml) ++ drop k mid1 ++ post) by (by rewrite <- app_assoc).
      destruct (IH (setObservations (clearObservations r)
                      ((fun p => (p + k)%nat) <$> Some (length pre)) (length mid - k))
                  false (pre ++ ml) (drop k mid1) post)
        as (r2 & mr & -> & Hpr & Hsr & Hor & Hwr).
      { rewrite getNumNodes_setObservations, getNumNodes_clearObservations. lia. }
      { by rewrite getInfo_setObservations; simpl; rewrite parentIsNull_clearObservations. }
      { by apply notTopBelow_setObservations, notTopBelow_clearObservations. }
      { by apply rulesWithin_setObservations, rulesWithin_clearObservations. }
      { rewrite getInfo_setObservations. simpl. lia. }
      { right. rewrite getInfo_setObservations. simpl. rewrite length_app. do 2 f_equal. lia. }
      { done. }
      exists (Parent i l2 r2 rule), (ml ++ mr). split; [by rewrite <- !app_assoc|].
      split.
      { etrans; [exact Hperm1|]. rewrite <- (take_drop k mid1) at 1.
        by apply Permutation_app. }
      rewrite Hlk in Hsl. rewrite length_app, Hrk in Hsr. rewrite <- Hlml, Hlk in Hsr.
      split; [|split; [|done]].
      { simpl. repeat split; auto. exists k. split; [lia|]. by split. }
      cbn [sorted]. rewrite (shape_numObservations _ _ _ _ Hsl).
      destruct (take_drop_app_at k ml mr ltac:(lia)) as [-> ->].
      repeat split; [| |done|done].
      * intros j Hj. apply Hleft. by rewrite Hpl.
      * intros j Hj. apply Hright. by rewrite Hpr.
    + apply Nat.ltb_ge in Hpos.
      assert (Hmid : mid = []) by (destruct mid; simpl in *; [done|lia]).
      subst mid. exists (Parent i (clearObservations l) (clearObservations r) rule), [].
      split; [done|]. split; [done|].
      split; [|split; [apply sorted_nil|]].
      * simpl. repeat split; auto. exists 0%nat. split; [lia|].
        split; by apply shape_clearObservations.
      * simpl. auto using rulesWithin_clearObservations.
Qed.

End Sorted.

Section SortedOperations.

Context {S : MiscStats} {P : MiscPartition}.
Hypothesis separates : partitionSeparates P.
Variable fit : BARTFit.

Lemma rulesWithin_splitChildren node newRule el er :
  0 <= variableIndex newRule < Z.of_nat (numPredictors (data fit)) ->
  rulesWithin (numPredictors (data fit)) (splitChildren fit node newRule el er).
Proof. intros Hv. unfold splitChildren. by destruct el, er. Qed.

Lemma split_staysSorted chainNum newRule y el er :
  variableIndex newRule < Z.of_nat (numPredictors (data fit)) ->
  staysSorted fit (fun st => returned (split fit chainNum newRule y el er st)).
Proof.
  intros Hv isTop node pre mid post node' indices' Hshape Hseq _ _.
  unfold split. destruct (Z.ltb_spec (variableIndex newRule) 0) as [|Hv0]; [done|]. simpl.
  destruct (shape_header _ _ _ _ Hshape) as (Htop & Hnum & Hobs).
  destruct (splitChildren_ready fit node newRule el er) as (Hinfo & Hbelow & Hsize).
  destruct (repartition_sorted separates fit (addObservationsToChildren fit chainNum y)
              (addObservationsToChildren_repartitions fit chainNum y)
              3 (splitChildren fit node newRule el er) isTop pre mid post)
    as (n2 & mid' & -> & Hperm & Hs & Ho & Hw);
    rewrite ?Hinfo; auto; [lia | by apply rulesWithin_splitChildren|].
  intros [= <- <-]. by exists mid'.
Qed.

Lemma split_nostats_staysSorted newRule el er :
  variableIndex newRule < Z.of_nat (numPredictors (data fit)) ->
  staysSorted fit (fun st => returned (split_nostats fit newRule el er st)).
Proof.
  intros Hv isTop node pre mid post node' indices' Hshape Hseq _ _.
  unfold split_nostats.
  destruct (Z.ltb_spec (variableIndex newRule) 0) as [|Hv0]; [done|]. simpl.
  destruct (shape_header _ _ _ _ Hshape) as (Htop & Hnum & Hobs).
  destruct (splitChildren_ready fit node newRule el er) as (Hinfo & Hbelow & Hsize).
  destruct (repartition_sorted separates fit (addObservationsToChildren_nostats fit)
              (addObservationsToChildren_nostats_repartitions fit)
              3 (splitChildren fit node newRule el er) isTop pre mid post)
    as (n2 & mid' & -> & Hperm & Hs & Ho & Hw);
    rewrite ?Hinfo; auto; [lia | by apply rulesWithin_splitChildren|].
  intros [= <- <-]. by exists mid'.
Qed.

Lemma orphanChildren_staysSorted :
  staysSorted fit (fun st => n ← orphanChildren st.1; Some (n, st.2)).
Proof.
  intros isTop node pre mid post node' indices' Hshape Hseq _ _. simpl.
  destruct node as [i m | i l r rule]; simpl; [done|].
  intros [= <- <-]. exists mid. repeat split; try done; simpl in Hshape; tauto.
Qed.

Lemma atPath_staysSorted f path :
  staysSorted fit f -> staysSorted fit (fun st => atPath f path st.1 st.2).
Proof.
  intros Hf. induction path as [|goRight path IH]; simpl.
  { intros isTop node pre mid post node' indices' Hshape Hseq Hsorted Hrules Heq.
    eapply Hf; eauto. }
  intros isTop node pre mid post node' indices' Hshape Hseq Hsorted Hrules. simpl.
  destruct node as [i m | i l r rule]; [done|].
  simpl in Hshape. destruct Hshape as (Htop & Hnum & Hobs & k & Hk & Hl & Hr).
  cbn [sorted] in Hsorted. rewrite (shape_numObservations _ _ _ _ Hl) in Hsorted.
  destruct Hsorted as (Hleft & Hright & Hsl & Hsr).
  cbn [rulesWithin] in Hrules. destruct Hrules as (Hv & Hwl & Hwr).
  assert (Hlk : length (take k mid) = k) by (rewrite length_take; lia).
  assert (Hrk : length (drop k mid) = (length mid - k)%nat) by (rewrite length_drop; lia).
  destruct goRight.
  - destruct (atPath f path r (pre ++ mid ++ post)) as [[r' ind]|] eqn:Hat; [|done].
    simpl. intros [= <- <-].
    rewrite <- (take_drop k mid) in Hat.
    replace (pre ++ (take k mid ++ drop k mid) ++ post)
      with ((pre ++ take k mid) ++ drop k mid ++ post) in Hat
      by (by rewrite <- !app_assoc).
    destruct (IH false r (pre ++ take k mid) (drop k mid) post r' ind)
      as (mr & Hperm & -> & Hshape' & Hsorted' & Hrules'); [| done | done | done | done |].
    { by rewrite length_app, Hlk, Hrk. }
    exists (take k mid ++ mr). split.
    { rewrite <- (take_drop k mid) at 1. by apply Permutation_app. }
    split; [by rewrite <- !app_assoc|].
    rewrite length_app, Hlk, Hrk in Hshape'.
    split; [|split; [|done]].
    { simpl. repeat split; auto. exists k. by repeat split. }
    cbn [sorted]. rewrite (shape_numObservations _ _ _ _ Hl).
    destruct (take_drop_app_at k (take k mid) mr Hlk) as [-> ->].
    repeat split; [done| |done|done].
    intros j Hj. apply Hright. by rewrite Hperm.
  - destruct (atPath f path l (pre ++ mid ++ post)) as [[l' ind]|] eqn:Hat; [|done].
    simpl. intros [= <- <-].
    rewrite <- (take_drop k mid), <- app_assoc in Hat.
    destruct (IH false l pre (take k mid) (drop k mid ++ post) l' ind)
      as (ml & Hperm & -> & Hshape' & Hsorted' & Hrules'); [| done | done | done | done |].
    { by rewrite Hlk. }
    exists (ml ++ drop k mid). split.
    { rewrite <- (take_drop k mid) at 1. by apply Permutation_app. }
    split; [by rewrite <- !app_assoc|].
    rewrite Hlk in Hshape'.
    split; [|split; [|done]].
    { simpl. repeat split; auto. exists k. by repeat split. }
    cbn [sorted]. rewrite (shape_numObservations _ _ _ _ Hshape').
    assert (Hkml : length ml = k) by (by rewrite <- (Permutation_length Hperm)).
    destruct (take_drop_app_at k ml (drop k mid) Hkml) as [-> ->].
    repeat split; [|done|done|done].
    intros j Hj. apply Hleft. by rewrite Hperm.
Qed.

Lemma Tree_new_sorted indices numPredictors :
  indices ≡ₚ seq 0 (length indices) ->
  treeSorted fit (length indices) (Tree_new indices numPredictors).
Proof. intros Hperm. split; [by apply Tree_new_invariant|]. by split. Qed.

Lemma applyOp_sorted n op t :
  opRuleValid fit op -> treeSorted fit n t -> treeSorted fit n (applyOp fit op t).
Proof.
  intros Hop ([Hperm Hshape] & Hsorted & Hrules).
  assert (Hlen : length (treeIndices t) = n)
    by (by rewrite (Permutation_length Hperm), length_seq).
  assert (Hany : forall f, staysSorted fit f -> forall path,
            treeSorted fit n
              match atPath f path (top t) (treeIndices t) with
              | Some (node, indices) => mkTree node indices
              | None => t
              end).
  { intros f Hf path.
    destruct (atPath f path (top t) (treeIndices t)) as [[node ind]|] eqn:Hat;
      [|exact (conj (conj Hperm Hshape) (conj Hsorted Hrules))].
    destruct (atPath_staysSorted f path Hf true (top t) [] (treeIndices t) [] node ind)
      as (mid' & Hp & -> & Hs & Ho & Hw); simpl.
    - by rewrite Hlen.
    - intros _. by rewrite Hlen.
    - done.
    - done.
    - by rewrite app_nil_r.
    - rewrite app_nil_r. repeat split; simpl; [by rewrite <- Hp | by rewrite Hlen in Hs | done..]. }
  unfold applyOp. destruct op as [path c rule y el er | path rule el er | path].
  - apply (Hany _ (split_staysSorted c rule y el er Hop) path).
  - apply (Hany _ (split_nostats_staysSorted rule el er Hop) path).
  - apply (Hany _ orphanChildren_staysSorted path).
Qed.

Lemma applyOps_sorted n ops : forall t,
  Forall (opRuleValid fit) ops -> treeSorted fit n t -> treeSorted fit n (applyOps fit ops t).
Proof.
  unfold applyOps. induction ops as [|op ops IH]; intros t Hops Ht; simpl; [done|].
  apply Forall_cons in Hops as [Hop Hops]. by apply IH, applyOp_sorted.
Qed.

(** In a slice that is sorted by the rules of the node, every observation
    is in the slice of the bottom node that [findBottomNode] returns for
    its row. *)
Lemma findBottomNode_sorted node : forall isTop pre mid post j,
  shape isTop (length pre) (length mid) node ->
  sorted fit mid node ->
  j ∈ mid ->
  let b := findBottomNode fit (observationRow fit j) node in
  j ∈ readSlice (pre ++ mid ++ post) (observationIndices (getInfo b))
        (numObservations (getInfo b)).
Proof.
  induction node as [i m | i l IHl r IHr rule]; intros isTop pre mid post j Hshape Hsorted Hj.
  - simpl in *. destruct Hshape as (_ & -> & [Hz | ->] & _).
    + destruct mid; [by apply elem_of_nil in Hj | discriminate Hz].
    + by rewrite readSlice_middle.
  - simpl in Hshape. destruct Hshape as (Htop & Hnum & Hobs & k & Hk & Hl & Hr).
    cbn [sorted] in Hsorted. rewrite (shape_numObservations _ _ _ _ Hl) in Hsorted.
    destruct Hsorted as (Hleft & Hright & Hsl & Hsr).
    assert (Hlk : length (take k mid) = k) by (rewrite length_take; lia).
    assert (Hrk : length (drop k mid) = (length mid - k)%nat) by (rewrite length_drop; lia).
    cbn [findBottomNode].
    change (zth 0 (observationRow fit j) (variableIndex rule) >? splitIndex rule)
      with (descendsRight fit rule j).
    rewrite <- (take_drop k mid) in Hj. apply elem_of_app in Hj as [Hj | Hj].
    + rewrite (Hleft j Hj).
      rewrite <- (take_drop k mid), <- app_assoc.
      apply (IHl false pre (take k mid) (drop k mid ++ post) j); [by rewrite Hlk|done|done].
    + rewrite (Hright j Hj).
      rewrite <- (take_drop k mid) at 1.
      replace (pre ++ (take k mid ++ drop k mid) ++ post)
        with ((pre ++ take k mid) ++ drop k mid ++ post) by (by rewrite <- !app_assoc).
      apply (IHr false (pre ++ take k mid) (drop k mid) post j);
        [by rewrite length_app, Hlk, Hrk|done|done].
Qed.

End SortedOperations.

(** The scalar loop puts the entries at most the cut before the others. *)
Lemma scalarPartition_separates : partitionSeparates scalarPartition.
Proof.
  intros x cut indices Hne. split.
  - exact (scalar_partitionIndices_spec x cut indices Hne).
  - exact (scalar_partitionRange_spec x cut indices Hne).
Qed.

(** X1. In a tree built from a new tree by splits, whose rules are over
    predictors, and orphanChildren calls, with a partitioner that puts the
    observations whose code is at most the split index before the others:
    [findBottomNode], handed the row of a training observation, returns the
    bottom node whose slice holds the observation. *)
Theorem findBottomNode_finds_owner {S : MiscStats} {P : MiscPartition}
    (fit : BARTFit) (numPredictors : nat) (indices : list nat) (ops : list TreeOp) :
  partitionSeparates P ->
  indices ≡ₚ seq 0 (length indices) ->
  Forall (opRuleValid fit) ops ->
  let t := applyOps fit ops (Tree_new indices numPredictors) in
  forall j, (j < length indices)%nat ->
    let b := findBottomNode fit (observationRow fit j) (top t) in
    j ∈ readSlice (treeIndices t) (observationIndices (getInfo b))
          (numObservations (getInfo b)).
Proof.
  intros separates Hperm Hops. cbv zeta.
  pose proof (applyOps_sorted separates fit (length indices) ops _ Hops
                (Tree_new_sorted fit indices numPredictors Hperm))
    as ([Hp Hs] & Ho & _).
  generalize dependent (applyOps fit ops (Tree_new indices numPredictors)).
  intros t Hp Hs Ho j Hj.
  assert (Hlen : length (treeIndices t) = length indices)
    by (by rewrite (Permutation_length Hp), length_seq).
  assert (Hin : j ∈ treeIndices t) by (rewrite Hp; apply elem_of_seq; lia).
  pose proof (findBottomNode_sorted fit (top t) true [] (treeIndices t) [] j) as H.
  rewrite app_nil_r in H. apply H; [by rewrite Hlen|done|done].
Qed.

Lemma findBottomNode_finds_owner_witness :
  let t := applyOps (S := sequentialStats) (P := scalarPartition) fit_ordinal5 ops_example
             (Tree_new (S := sequentialStats) [4; 3; 2; 1; 0]%nat 1) in
  let b := findBottomNode fit_ordinal5 (observationRow fit_ordinal5 3) (top t) in
  3%nat ∈ readSlice (treeIndices t) (observationIndices (getInfo b))
            (numObservations (getInfo b)).
Proof.
  apply (findBottomNode_finds_owner (S := sequentialStats) (P := scalarPartition)
           fit_ordinal5 1 [4; 3; 2; 1; 0]%nat ops_example).
  - exact scalarPartition_separates.
  - simpl. symmetry. apply (Permutation_rev [0; 1; 2; 3; 4]%nat).
  - unfold ops_example. repeat constructor; simpl; lia.
  - simpl. lia.
Defined.

(** ** split, orphanChildren and the flags of the variables *)

Section SplitChildren.

Context {S : MiscStats} {P : MiscPartition}.
Variable fit : BARTFit.

(** The flags of a child that [split] creates. *)
Lemma splitChildren_flags node newRule el er :
  exists il ml ir mr,
    splitChildren fit node newRule el er
    = Parent (getInfo node) (Bottom il ml) (Bottom ir mr) newRule /\
    let flags := take (numPredictors (data fit)) (variablesAvailableForSplit (getInfo node)) in
    variablesAvailableForSplit il
    = (if el then <[Z.to_nat (variableIndex newRule) := false]> flags else flags) /\
    variablesAvailableForSplit ir
    = (if er then <[Z.to_nat (variableIndex newRule) := false]> flags else flags).
Proof. unfold splitChildren. destruct el, er; by eexists _, _, _, _. Qed.

Lemma repartitions_split (f : Node -> list nat -> Node * list nat) node newRule el er indices :
  repartitions fit f ->
  exists il ml ir mr,
    (f (splitChildren fit node newRule el er) indices).1
    = Parent (getInfo node) (Bottom il ml) (Bottom ir mr) newRule /\
    let flags := take (numPredictors (data fit)) (variablesAvailableForSplit (getInfo node)) in
    parentIsNull il = false /\ parentIsNull ir = false /\
    variablesAvailableForSplit il
    = (if el then <[Z.to_nat (variableIndex newRule) := false]> flags else flags) /\
    variablesAvailableForSplit ir
    = (if er then <[Z.to_nat (variableIndex newRule) := false]> flags else flags).
Proof.
  intros Hf.
  destruct (splitChildren_ready fit node newRule el er) as (Hinfo & _ & Hsize).
  destruct (repartitions_keeps fit f 3 Hf (splitChildren fit node newRule el er) indices)
    as [Hi Hw]; [lia|].
  destruct (splitChildren_flags node newRule el er) as (il & ml & ir & mr & Heq & Hl & Hr).
  assert (Htl : parentIsNull il = false /\ parentIsNull ir = false).
  { unfold splitChildren in Heq. destruct el, er; by injection Heq as <- <- <- <-. }
  rewrite Heq in Hw, Hi |- *. cbn [getInfo] in Hi.
  destruct (f (Parent (getInfo node) (Bottom il ml) (Bottom ir mr) newRule) indices).1
    as [i' m' | i' l' r' rule']; [discriminate Hw|].
  cbn [getInfo] in Hi. subst i'. simpl in Hw.
  destruct l' as [il' ml' | ? ? ? ?]; [|discriminate Hw].
  destruct r' as [ir' mr' | ? ? ? ?]; [|discriminate Hw].
  simpl in Hw. injection Hw as Hil1 Hil2 Hil3 Hir1 Hir2 Hir3 ->.
  exists il', ml', ir', mr'. split; [done|]. cbv zeta.
  rewrite Hil1, Hir1, Hil3, Hir3. tauto.
Qed.

End SplitChildren.

(** X4. A [split] that is handed a rule over a predictor returns, in both
    variants, and makes the node, whatever was below it, the parent of two
    bottom nodes under that rule.  The node keeps its observations, its
    flags and its enumeration index; each child has the flags of the node,
    but for the variable of the rule when the caller says that its splits
    are exhausted on that side.  [orphanChildren], called next, makes the
    node a bottom node again, with the observations and the flags it had
    before the split. *)
Theorem split_then_orphanChildren {S : MiscStats} {P : MiscPartition} (fit : BARTFit)
    (chainNum : nat) (newRule : Rule) (y : list double)
    (exhaustedLeftSplits exhaustedRightSplits : bool)
    (node : Node) (indices : list nat) :
  0 <= variableIndex newRule < Z.of_nat (numPredictors (data fit)) ->
  length (variablesAvailableForSplit (getInfo node)) = numPredictors (data fit) ->
  forall st,
    st = split fit chainNum newRule y exhaustedLeftSplits exhaustedRightSplits (node, indices)
    \/ st = split_nostats fit newRule exhaustedLeftSplits exhaustedRightSplits (node, indices) ->
    let flags := variablesAvailableForSplit (getInfo node) in
    let v := Z.to_nat (variableIndex newRule) in
    st.1 = Returned /\
    exists il ml ir mr,
      st.2.1 = Parent (getInfo node) (Bottom il ml) (Bottom ir mr) newRule /\
      variablesAvailableForSplit il
      = (if exhaustedLeftSplits then <[v := false]> flags else flags) /\
      variablesAvailableForSplit ir
      = (if exhaustedRightSplits then <[v := false]> flags else flags) /\
      exists m, orphanChildren st.2.1 = Some (Bottom (getInfo node) m).
Proof.
  intros Hv Hlen st Hst. cbv zeta.
  assert (Hflags : take (numPredictors (data fit)) (variablesAvailableForSplit (getInfo node))
                   = variablesAvailableForSplit (getInfo node))
    by (apply take_ge; lia).
  assert (Hany : forall f, repartitions fit f ->
    exists il ml ir mr,
      (f (splitChildren fit node newRule exhaustedLeftSplits exhaustedRightSplits) indices).1
      = Parent (getInfo node) (Bottom il ml) (Bottom ir mr) newRule /\
      variablesAvailableForSplit il
      = (if exhaustedLeftSplits
         then <[Z.to_nat (variableIndex newRule) := false]>
                (variablesAvailableForSplit (getInfo node))
         else variablesAvailableForSplit (getInfo node)) /\
      variablesAvailableForSplit ir
      = (if exhaustedRightSplits
         then <[Z.to_nat (variableIndex newRule) := false]>
                (variablesAvailableForSplit (getInfo node))
         else variablesAvailableForSplit (getInfo node)) /\
      exists m,
        orphanChildren
          (f (splitChildren fit node newRule exhaustedLeftSplits exhaustedRightSplits)
             indices).1
        = Some (Bottom (getInfo node) m)).
  { intros f Hf.
    destruct (repartitions_split fit f node newRule exhaustedLeftSplits exhaustedRightSplits
                indices Hf) as (il & ml & ir & mr & -> & _ & _ & Hl & Hr).
    rewrite Hflags in Hl, Hr. exists il, ml, ir, mr.
    split; [done|]. split; [done|]. split; [done|]. by eexists. }
  unfold split, split_nostats in Hst.
  destruct (Z.ltb_spec (variableIndex newRule) 0) as [|_]; [lia|].
  destruct Hst as [-> | ->]; cbn [fst snd]; (split; [done|]).
  - apply Hany, addObservationsToChildren_repartitions.
  - apply Hany, addObservationsToChildren_nostats_repartitions.
Qed.

Lemma split_then_orphanChildren_witness :
  let st := split (S := sequentialStats) (P := scalarPartition) fit_ordinal5 0
              (mkRule 0 1) y5 true false
              (Node_top (S := sequentialStats) (Some 0%nat) 5 1, [4; 3; 2; 1; 0]%nat) in
  st.1 = Returned /\
  exists il ml ir mr,
    st.2.1 = Parent (mkNodeInfo true BART_INVALID_NODE_ENUM [true] (Some 0%nat) 5)
               (Bottom il ml) (Bottom ir mr) (mkRule 0 1) /\
    variablesAvailableForSplit il = [false] /\
    variablesAvailableForSplit ir = [true] /\
    exists m, orphanChildren (S := sequentialStats) st.2.1
              = Some (Bottom (mkNodeInfo true BART_INVALID_NODE_ENUM [true] (Some 0%nat) 5) m).
Proof.
  apply (split_then_orphanChildren (S := sequentialStats) (P := scalarPartition)
           fit_ordinal5 0 (mkRule 0 1) y5 true false
           (Node_top (S := sequentialStats) (Some 0%nat) 5 1) [4; 3; 2; 1; 0]%nat).
  - simpl. lia.
  - reflexivity.
  - by left.
Defined.

(** ** The flags narrow down the tree *)

Section Narrowing.

Context {S : MiscStats} {P : MiscPartition}.
Variable fit : BARTFit.

Lemma lookup_exhausted (flags : list bool) v x :
  <[v := false]> flags !! x = Some true -> flags !! x = Some true.
Proof.
  intros H. apply list_lookup_insert_Some in H as [(_ & H & _) | [_ H]]; [discriminate H | done].
Qed.

Lemma repartitions_staysNarrow (f : Node -> list nat -> Node * list nat) newRule el er :
  repartitions fit f ->
  staysNarrow (numPredictors (data fit))
    (fun st => Some (f (splitChildren fit st.1 newRule el er) st.2)).
Proof.
  intros Hf node indices node' indices' Hn. cbn [fst snd]. intros [= Heq].
  assert (Hlen : length (variablesAvailableForSplit (getInfo node)) = numPredictors (data fit))
    by (destruct node; apply Hn).
  assert (Hflags : take (numPredictors (data fit)) (variablesAvailableForSplit (getInfo node))
                   = variablesAvailableForSplit (getInfo node))
    by (apply take_ge; lia).
  destruct (repartitions_split fit f node newRule el er indices Hf)
    as (il & ml & ir & mr & Hnode & _ & _ & Hl & Hr).
  rewrite Hflags in Hl, Hr.
  rewrite Heq in Hnode. cbn [fst] in Hnode.
  subst node'. split; [|done]. simpl.
  split; [done|]. rewrite Hl, Hr.
  split; [|split; [|split]].
  - destruct el; [apply lookup_exhausted | done].
  - destruct er; [apply lookup_exhausted | done].
  - split; [|done]. destruct el; by rewrite ?length_insert.
  - split; [|done]. destruct er; by rewrite ?length_insert.
Qed.

Lemma split_staysNarrow chainNum newRule y el er :
  staysNarrow (numPredictors (data fit))
    (fun st => returned (split fit chainNum newRule y el er st)).
Proof.
  intros node indices node' indices' Hn. unfold split.
  destruct (variableIndex newRule <? 0); [done|]. simpl.
  apply (repartitions_staysNarrow (addObservationsToChildren fit chainNum y) newRule el er
           (addObservationsToChildren_repartitions fit chainNum y) node indices node' indices' Hn).
Qed.

Lemma split_nostats_staysNarrow newRule el er :
  staysNarrow (numPredictors (data fit))
    (fun st => returned (split_nostats fit newRule el er st)).
Proof.
  intros node indices node' indices' Hn. unfold split_nostats.
  destruct (variableIndex newRule <? 0); [done|]. simpl.
  apply (repartitions_staysNarrow (addObservationsToChildren_nostats fit) newRule el er
           (addObservationsToChildren_nostats_repartitions fit) node indices node' indices' Hn).
Qed.

Lemma orphanChildren_staysNarrow np :
  staysNarrow np (fun st => n ← orphanChildren st.1; Some (n, st.2)).
Proof.
  intros node indices node' indices' Hn. simpl.
  destruct node as [i m | i l r rule]; simpl; [done|].
  intros [= <- <-]. simpl in *. tauto.
Qed.

Lemma atPath_staysNarrow np f path :
  staysNarrow np f -> staysNarrow np (fun st => atPath f path st.1 st.2).
Proof.
  intros Hf. induction path as [|goRight path IH]; simpl.
  { intros node indices node' indices' Hn Heq. eapply Hf; eauto. }
  intros node indices node' indices' Hn. simpl.
  destruct node as [i m | i l r rule]; [done|].
  cbn [availabilityNarrows getInfo] in Hn. destruct Hn as (Hlen & Hl & Hr & Hnl & Hnr).
  destruct goRight.
  - destruct (atPath f path r indices) as [[r' ind]|] eqn:Hat; [|done].
    simpl. intros [= <- <-].
    destruct (IH r indices r' ind Hnr Hat) as [Hnr' Hflags].
    split; [|done]. cbn [availabilityNarrows getInfo]. rewrite Hflags. auto.
  - destruct (atPath f path l indices) as [[l' ind]|] eqn:Hat; [|done].
    simpl. intros [= <- <-].
    destruct (IH l indices l' ind Hnl Hat) as [Hnl' Hflags].
    split; [|done]. cbn [availabilityNarrows getInfo]. rewrite Hflags. auto.
Qed.

Lemma applyOp_narrows op t :
  availabilityNarrows (numPredictors (data fit)) (top t) ->
  availabilityNarrows (numPredictors (data fit)) (top (applyOp fit op t)).
Proof.
  intros Hn.
  assert (Hany : forall f, staysNarrow (numPredictors (data fit)) f -> forall path,
            availabilityNarrows (numPredictors (data fit))
              (top match atPath f path (top t) (treeIndices t) with
                   | Some (node, indices) => mkTree node indices
                   | None => t
                   end)).
  { intros f Hf path.
    destruct (atPath f path (top t) (treeIndices t)) as [[node ind]|] eqn:Hat; [|done].
    by destruct (atPath_staysNarrow _ f path Hf (top t) (treeIndices t) node ind Hn Hat). }
  unfold applyOp. destruct op as [path c rule y el er | path rule el er | path].
  - apply (Hany _ (split_staysNarrow c rule y el er) path).
  - apply (Hany _ (split_nostats_staysNarrow rule el er) path).
  - apply (Hany _ (orphanChildren_staysNarrow _) path).
Qed.

End Narrowing.

(** X3. In a tree built from a new tree by splits, whose rules are over
    predictors, and orphanChildren calls, every node has a flag for each
    predictor, and a variable is available for a split in a node only if
    it is available in the parent of the node: what is exhausted in a node
    is exhausted below it. *)
Theorem availability_narrows {S : MiscStats} {P : MiscPartition}
    (fit : BARTFit) (indices : list nat) (ops : list TreeOp) :
  Forall (opRuleValid fit) ops ->
  availabilityNarrows (numPredictors (data fit))
    (top (applyOps fit ops (Tree_new indices (numPredictors (data fit))))).
Proof.
  intros _.
  assert (Hnew : availabilityNarrows (numPredictors (data fit))
                   (top (Tree_new indices (numPredictors (data fit)))))
    by (split; [apply length_replicate | done]).
  generalize dependent (Tree_new indices (numPredictors (data fit))).
  unfold applyOps. induction ops as [|op ops IH]; intros t Ht; simpl; [done|].
  by apply IH, applyOp_narrows.
Qed.

Lemma availability_narrows_witness :
  availabilityNarrows 1
    (top (applyOps (S := sequentialStats) (P := scalarPartition) fit_ordinal5 ops_example
            (Tree_new (S := sequentialStats) [4; 3; 2; 1; 0]%nat 1))).
Proof.
  apply (availability_narrows (S := sequentialStats) (P := scalarPartition)
           fit_ordinal5 [4; 3; 2; 1; 0]%nat ops_example).
  unfold ops_example. repeat constructor; simpl; lia.
Defined.

(** ** setAverages and clear *)

Section Averages.

Context {S : MiscStats} {P : MiscPartition}.
Variable fit : BARTFit.

(** What either variant of [split] leaves of a node with observations, in
    terms of what the partitioner returns. *)
Lemma split_of_node_with_observations node newRule el er indices :
  (0 < numObservations (getInfo node))%nat ->
  exists il ir ml mr indices0,
    (forall chainNum y,
       addObservationsToChildren fit chainNum y
         (splitChildren fit node newRule el er) indices
       = (Parent (getInfo node)
            (Bottom il (leafStatistics fit y il ml indices0))
            (Bottom ir (leafStatistics fit y ir mr indices0)) newRule, indices0)) /\
    addObservationsToChildren_nostats fit (splitChildren fit node newRule el er) indices
    = (Parent (getInfo node)
         (Bottom il (setAverageField ml 0%float))
         (Bottom ir (setAverageField mr 0%float)) newRule, indices0).
Proof.
  intros Hpos. apply Nat.ltb_lt in Hpos.
  destruct (splitChildren_flags fit node newRule el er)
    as (il & ml & ir & mr & -> & _ & _).
  destruct (if parentIsNull (getInfo node)
            then partitionRange fit newRule
                   (readSlice indices (observationIndices (getInfo node))
                      (numObservations (getInfo node)))
                   (numObservations (getInfo node))
            else partitionIndices fit newRule
                   (readSlice indices (observationIndices (getInfo node))
                      (numObservations (getInfo node)))
                   (numObservations (getInfo node))) as [k slice] eqn:Hpart.
  eexists _, _, _, _, _. split.
  - intros chainNum y.
    rewrite addObservationsToChildren_equation_2. cbv zeta. rewrite Hpos, Hpart.
    cbn [clearObservations setObservations getInfo setInfo].
    rewrite !addObservationsToChildren_equation_1. reflexivity.
  - rewrite addObservationsToChildren_nostats_equation_2. cbv zeta. rewrite Hpos, Hpart.
    cbn [clearObservations setObservations getInfo setInfo].
    rewrite !addObservationsToChildren_nostats_equation_1.
    reflexivity.
Qed.

Lemma getInfo_atPath f path node indices node' indices' :
  (forall st st', f st = Some st' -> getInfo st'.1 = getInfo st.1) ->
  atPath f path node indices = Some (node', indices') ->
  getInfo node' = getInfo node.
Proof.
  intros Hf. destruct path as [|goRight path]; simpl.
  { intros Heq. apply (Hf _ _ Heq). }
  destruct node as [i m | i l r rule]; [done|].
  destruct goRight.
  - destruct (atPath f path r indices) as [[r' ind]|]; [|done]. by intros [= <- <-].
  - destruct (atPath f path l indices) as [[l' ind]|]; [|done]. by intros [= <- <-].
Qed.

Lemma getInfo_repartition (f : Node -> list nat -> Node * list nat) node newRule el er indices :
  repartitions fit f ->
  getInfo (f (splitChildren fit node newRule el er) indices).1 = getInfo node.
Proof.
  intros Hf.
  destruct (splitChildren_ready fit node newRule el er) as (Hinfo & _ & Hsize).
  destruct (repartitions_keeps fit f 3 Hf (splitChildren fit node newRule el er) indices)
    as [Hi _]; [lia|].
  by rewrite Hi.
Qed.

Lemma getInfo_applyOp op t : getInfo (top (applyOp fit op t)) = getInfo (top t).
Proof.
  unfold applyOp.
  destruct op as [path c rule y el er | path rule el er | path];
    match goal with
    | |- context [atPath ?f ?p ?n ?i] =>
        destruct (atPath f p n i) as [[node ind]|] eqn:Hat; [|done];
        apply (getInfo_atPath f p n i node ind); [|exact Hat]
    end; intros [node0 ind0] [node1 ind1]; cbn [fst snd].
  - unfold split. destruct (variableIndex rule <? 0); [done|]. simpl. intros [= Heq].
    rewrite <- (getInfo_repartition (addObservationsToChildren fit c y) node0 rule el er ind0
                  (addObservationsToChildren_repartitions fit c y)).
    by rewrite Heq.
  - unfold split_nostats. destruct (variableIndex rule <? 0); [done|]. simpl. intros [= Heq].
    rewrite <- (getInfo_repartition (addObservationsToChildren_nostats fit) node0 rule el er ind0
                  (addObservationsToChildren_nostats_repartitions fit)).
    by rewrite Heq.
  - destruct node0 as [i m | i l r rule]; simpl; [done|]. by intros [= <- <-].
Qed.

End Averages.

(** X5. On a node with observations, and with a rule that [split] does not
    refuse, the [split] that is handed [y] leaves what the [split] without
    [y] followed by [setAverages] leaves: the same index array and the same
    tree; and a [setAverages] after it changes nothing. *)
Theorem split_is_split_then_setAverages {S : MiscStats} {P : MiscPartition} (fit : BARTFit)
    (chainNum : nat) (newRule : Rule) (y : list double)
    (exhaustedLeftSplits exhaustedRightSplits : bool)
    (node : Node) (indices : list nat) :
  0 <= variableIndex newRule ->
  (0 < numObservations (getInfo node))%nat ->
  let '(_, (node1, indices1)) :=
    split fit chainNum newRule y exhaustedLeftSplits exhaustedRightSplits (node, indices) in
  let '(_, (node2, indices2)) :=
    split_nostats fit newRule exhaustedLeftSplits exhaustedRightSplits (node, indices) in
  node1 = setAverages fit chainNum y node2 indices2 /\ indices1 = indices2 /\
  setAverages fit chainNum y node1 indices1 = node1.
Proof.
  intros Hv Hpos. unfold split, split_nostats.
  destruct (Z.ltb_spec (variableIndex newRule) 0) as [Hneg|_]; [lia|].
  destruct (split_of_node_with_observations fit node newRule exhaustedLeftSplits
              exhaustedRightSplits indices Hpos)
    as (il & ir & ml & mr & indices0 & Hstats & Hnostats).
  rewrite (Hstats chainNum y), Hnostats. by repeat split.
Qed.

Lemma split_is_split_then_setAverages_witness :
  let '(_, (node1, indices1)) :=
    split (S := sequentialStats) (P := scalarPartition) fit_ordinal5 0 (mkRule 0 1) y5
      false false (Node_top (S := sequentialStats) (Some 0%nat) 5 1, [4; 3; 2; 1; 0]%nat) in
  let '(_, (node2, indices2)) :=
    split_nostats (S := sequentialStats) (P := scalarPartition) fit_ordinal5 (mkRule 0 1)
      false false (Node_top (S := sequentialStats) (Some 0%nat) 5 1, [4; 3; 2; 1; 0]%nat) in
  node1 = setAverages (S := sequentialStats) fit_ordinal5 0 y5 node2 indices2 /\
  indices1 = indices2 /\
  setAverages (S := sequentialStats) fit_ordinal5 0 y5 node1 indices1 = node1.
Proof.
  apply (split_is_split_then_setAverages (S := sequentialStats) (P := scalarPartition)
           fit_ordinal5 0 (mkRule 0 1) y5 false false
           (Node_top (S := sequentialStats) (Some 0%nat) 5 1) [4; 3; 2; 1; 0]%nat).
  - simpl. lia.
  - simpl. lia.
Defined.

(** X7. [clear], called on the top node of a tree built from a new tree by
    splits and orphanChildren calls, leaves the one node of the new tree,
    with its observations and its flags, and with the average 0. *)
Theorem clear_undoes_operations {S : MiscStats} {P : MiscPartition}
    (fit : BARTFit) (numPredictors : nat) (indices : list nat) (ops : list TreeOp) :
  let t := applyOps fit ops (Tree_new indices numPredictors) in
  withoutStatistics (clear (top t)) = withoutStatistics (top (Tree_new indices numPredictors)) /\
  average (getM (clear (top t))) = 0%float.
Proof.
  cbv zeta.
  assert (Hinfo : getInfo (top (applyOps fit ops (Tree_new indices numPredictors)))
                  = getInfo (top (Tree_new indices numPredictors))).
  { generalize (Tree_new indices numPredictors). unfold applyOps.
    induction ops as [|op ops IH]; intros t; simpl; [done|].
    by rewrite IH, getInfo_applyOp. }
  destruct (top (applyOps fit ops (Tree_new indices numPredictors))) as [i m | i l r rule];
    simpl in Hinfo; subst i; done.
Qed.

(** ** split followed by orphanChildren *)




(** * Properties of the codec *)

Module BinaryIOFacts.

Import BinaryIO.

Section Triples.

Context {T : Type}.
Implicit Types P : World T -> Prop.
Implicit Types E : Z -> World T -> Prop.

Lemma triple_bind {A B} P (m : IO T A) (k : A -> IO T B) Q R E :
  triple P m Q E -> (forall a, triple (Q a) (k a) R E) -> triple P (m ≫= k) R E.
Proof.
  intros Hm Hk w HP. specialize (Hm w HP).
  unfold mbind, IO_bind. destruct (m w) as [[a | e | |] w']; [|done..].
  by apply Hk.
Qed.

Lemma triple_consequence {A} P P' (m : IO T A) (Q Q' : A -> World T -> Prop) E E' :
  triple P' m Q' E' -> (forall w, P w -> P' w) ->
  (forall a w, Q' a w -> Q a w) -> (forall e w, E' e w -> E e w) ->
  triple P m Q E.
Proof.
  intros Hm HP HQ HE w Hw. specialize (Hm w (HP w Hw)).
  destruct (m w) as [[a | e | |] w']; [auto | | done..].
  destruct Hm. auto.
Qed.

Lemma triple_ret {A} P (a : A) (Q : A -> World T -> Prop) E :
  (forall w, P w -> Q a w) -> triple P (mret a) Q E.
Proof. intros H w Hw. by apply H. Qed.

Lemma triple_fail {A} P e (Q : A -> World T -> Prop) E :
  e <> 0 -> (forall w, P w -> E e w) -> triple P (fail e) Q E.
Proof. intros He H w Hw. split; [done|]. by apply H. Qed.

Lemma triple_get P E : triple P get (fun a w => a = self w /\ P w) E.
Proof. by intros w Hw. Qed.

Lemma triple_modify P f (Q : unit -> World T -> Prop) E :
  (forall w, P w ->
     Q tt (mkWorld (f (self w)) (bio w) (heap w) (warnings w) (memory w) (stack w))) ->
  triple P (modify f) Q E.
Proof. intros H w Hw. by apply H. Qed.

Lemma triple_modify_keeps P f E :
  (forall w, P w ->
     P (mkWorld (f (self w)) (bio w) (heap w) (warnings w) (memory w) (stack w))) ->
  triple P (modify f) (fun _ => P) E.
Proof. intros H. by apply triple_modify. Qed.

Lemma triple_readBytes P n E :
  ignoresStream P -> (forall w, P w -> E EIO w) ->
  triple P (readBytes n) (fun _ => P) E.
Proof.
  intros HP HE w Hw. unfold readBytes.
  destruct (n <=? length (unread (bio w)))%nat; [by apply HP|].
  split; [done|]. by apply HE.
Qed.

Lemma triple_fmap {A B} P (m : IO T A) (f : A -> B) (Q : World T -> Prop) E :
  triple P m (fun _ => Q) E -> triple P (f <$> m) (fun _ => Q) E.
Proof.
  intros Hm. unfold fmap, IO_fmap. eapply triple_bind; [exact Hm|].
  intros a. by apply triple_ret.
Qed.

(** Every read of the stream, for a property that ignores the stream. *)
Lemma triple_read P E :
  ignoresStream P -> (forall w, P w -> E EIO w) ->
  triple P ext_bio_readUnsigned32BitInteger (fun _ => P) E /\
  triple P ext_bio_readSizeType (fun _ => P) E /\
  triple P ext_bio_readDouble (fun _ => P) E /\
  (forall n, triple P (ext_bio_readNDoubles n) (fun _ => P) E) /\
  (forall n, triple P (ext_bio_readNUnsigned32BitIntegers n) (fun _ => P) E) /\
  (forall n, triple P (ext_bio_readNChars n) (fun _ => P) E).
Proof.
  intros HP HE. repeat split; intros;
    try apply triple_fmap; by apply triple_readBytes.
Qed.

Lemma triple_when P (b : bool) (m : IO T unit) (Q : unit -> World T -> Prop) E :
  (b = true -> triple P m Q E) -> (b = false -> forall w, P w -> Q tt w) ->
  triple P (when_ b m) Q E.
Proof. destruct b; intros Ht Hf; [by apply Ht | by apply triple_ret, Hf]. Qed.

Lemma triple_issueWarning P text e (Q : unit -> World T -> Prop) E :
  (forall w, P w ->
     Q tt (mkWorld (self w) (bio w) (heap w) (warnings w ++ [(text, e)]) (memory w)
             (stack w))) ->
  triple P (ext_issueWarning text e) Q E.
Proof. intros H w Hw. by apply H. Qed.

(** The code at the cleanup label: the function returns [true] after
    the last field and [false] after a failure, and does not fail
    itself. *)
Lemma triple_atCleanup {A} P (fields : IO T A) cleanup
    (Q : A -> World T -> Prop) E (R : bool -> World T -> Prop) E' :
  triple P fields Q E ->
  triple (fun w => exists a, Q a w) (cleanup 0) (fun _ => R true) (fun _ _ => False) ->
  (forall e, e <> 0 -> triple (E e) (cleanup e) (fun _ => R false) (fun _ _ => False)) ->
  triple P (atCleanup fields cleanup) R E'.
Proof.
  intros Hf H0 He w Hw. specialize (Hf w Hw). unfold atCleanup.
  destruct (fields w) as [[a | e | |] w']; simpl; [| |done..].
  - specialize (H0 w' (ex_intro _ a Hf)). unfold mbind, IO_bind.
    destruct (cleanup 0 w') as [[[] | e | |] w'']; [done| |done..]. by destruct H0.
  - destruct Hf as [Hne Hf]. specialize (He e Hne w' Hf). unfold mbind, IO_bind.
    destruct (cleanup e w') as [[[] | e' | |] w'']; [| |done..].
    + simpl. by rewrite (proj2 (Z.eqb_neq e 0) Hne).
    + by destruct He.
Qed.

End Triples.

(** Calls that may throw or end in undefined behaviour. *)

Section Outcomes.

Context {T : Type}.
Implicit Types P : World T -> Prop.
Implicit Types E : Z -> World T -> Prop.
Implicit Types X U : World T -> Prop.

Lemma outcomes_of_triple {A} P (m : IO T A) (Q : A -> World T -> Prop) E X U :
  triple P m Q E -> outcomes P m Q E X U.
Proof. intros Hm w Hw. specialize (Hm w Hw). by destruct (m w) as [[a | e | |] w']. Qed.

Lemma outcomes_bind {A B} P (m : IO T A) (k : A -> IO T B) Q R E X U :
  outcomes P m Q E X U -> (forall a, outcomes (Q a) (k a) R E X U) ->
  outcomes P (m ≫= k) R E X U.
Proof.
  intros Hm Hk w HP. specialize (Hm w HP).
  unfold mbind, IO_bind. destruct (m w) as [[a | e | |] w']; [|done..].
  by apply Hk.
Qed.

Lemma outcomes_consequence {A} P P' (m : IO T A) (Q Q' : A -> World T -> Prop)
    E E' X X' U U' :
  outcomes P' m Q' E' X' U' -> (forall w, P w -> P' w) ->
  (forall a w, Q' a w -> Q a w) -> (forall e w, E' e w -> E e w) ->
  (forall w, X' w -> X w) -> (forall w, U' w -> U w) ->
  outcomes P m Q E X U.
Proof.
  intros Hm HP HQ HE HX HU w Hw. specialize (Hm w (HP w Hw)).
  destruct (m w) as [[a | e | |] w']; [auto | | auto..].
  destruct Hm. auto.
Qed.

(** The code at the cleanup label, which an exception does not reach. *)
Lemma outcomes_atCleanup {A} P (fields : IO T A) cleanup
    (Q : A -> World T -> Prop) E (R : bool -> World T -> Prop) E' X U :
  outcomes P fields Q E X U ->
  triple (fun w => exists a, Q a w) (cleanup 0) (fun _ => R true) (fun _ _ => False) ->
  (forall e, e <> 0 -> triple (E e) (cleanup e) (fun _ => R false) (fun _ _ => False)) ->
  outcomes P (atCleanup fields cleanup) R E' X U.
Proof.
  intros Hf H0 He w Hw. specialize (Hf w Hw). unfold atCleanup.
  destruct (fields w) as [[a | e | |] w']; simpl; [| |done..].
  - specialize (H0 w' (ex_intro _ a Hf)). unfold mbind, IO_bind.
    destruct (cleanup 0 w') as [[[] | e | |] w'']; [done| |done..]. by destruct H0.
  - destruct Hf as [Hne Hf]. specialize (He e Hne w' Hf). unfold mbind, IO_bind.
    destruct (cleanup e w') as [[[] | e' | |] w'']; [| |done..].
    + simpl. by rewrite (proj2 (Z.eqb_neq e 0) Hne).
    + by destruct He.
Qed.

End Outcomes.

(** ** readControl *)

Section ReadControl.

Variables cb cbd : pointer.

Lemma readControl_fields_spec :
  triple (callbackKept cb cbd) readControl_fields
    (fun _ => callbackReset) (fun _ => callbackKept cb cbd).
Proof.
  assert (Hs : ignoresStream (callbackKept cb cbd)) by (by intros w b).
  destruct (triple_read (callbackKept cb cbd) (fun _ => (callbackKept cb cbd)) Hs ltac:(done))
    as (H32 & Hsz & _).
  unfold readControl_fields.
  repeat (eapply triple_bind;
          [first [exact H32 | exact Hsz | by apply triple_modify_keeps] | intros ?]).
  by apply triple_modify.
Qed.

Lemma readControl_spec :
  triple (callbackKept cb cbd) readControl
    (fun ok w => if ok then callbackReset w else (callbackKept cb cbd) w) (fun _ _ => False).
Proof.
  eapply triple_atCleanup; [exact readControl_fields_spec | |].
  - apply triple_when; [done|]. by intros _ w [_ Hw].
  - intros e He. apply triple_when; [|done].
    intros _. by apply triple_issueWarning.
Qed.

End ReadControl.

(** C8 (as amended): a call of [readControl] that succeeds leaves
    [callback] and [callbackData] NULL; a call that fails leaves them as
    they were at the call.  In neither case does a value of the stream
    reach them. *)
Theorem readControl_callback (w : World Control) :
  match readControl w with
  | (Done ok, w') =>
      if ok then callback (self w') = None /\ callbackData (self w') = None
      else callback (self w') = callback (self w) /\
           callbackData (self w') = callbackData (self w)
  | _ => False
  end.
Proof.
  pose proof (readControl_spec (callback (self w)) (callbackData (self w)) w) as H.
  specialize (H (conj eq_refl eq_refl)).
  destruct (readControl w) as [[ok | e | |] w']; [|by destruct H|done..].
  by destruct ok.
Qed.

(** C8 as stated fails for a call that fails: on a stream that ends
    after the flags, [readControl] returns [false] and the callback is
    the one the aggregate had. *)
Lemma readControl_callback_counterexample :
  ~ (forall w : World Control,
       callback (self (readControl w).2) = None /\
       callbackData (self (readControl w).2) = None).
Proof.
  intros H.
  destruct (H (mkWorld control_with_callback (mkBinaryIO [0; 0; 0; 1] [] 0) ∅ [] 1000 1000))
    as [Hcb _].
  vm_compute in Hcb. discriminate.
Qed.

(** ** readData *)

Lemma getArray_setArray f g v d :
  getArray g (setArray f v d) = if decide (f = g) then v else getArray g d.
Proof. by destruct f, g. Qed.

Section ReadDataSteps.

Variable h0 : gmap nat Block.

(** What the call keeps besides: a property of the sizes and the estimate
    of the aggregate. *)
Variable K : World Data -> Prop.
Hypothesis K_keeps :
  forall w w', K w -> dataScalars (self w') = dataScalars (self w) -> K w'.

Lemma arraysOwned_fewer U U' w :
  (forall f, f ∈ U' -> f ∈ U) -> arraysOwned U h0 w -> arraysOwned U' h0 w.
Proof.
  intros Hsub (H1 & H2 & H3 & H4). split; [|done].
  intros f Hf. apply H1, Hsub, Hf.
Qed.

Lemma arraysOwned_nil U w : arraysOwned U h0 w -> arraysOwned [] h0 w.
Proof. apply arraysOwned_fewer. by intros f ?%elem_of_nil. Qed.

(** The aggregate and the heap are all that the property is about. *)
Lemma arraysOwned_same U w w' :
  self w' = self w -> heap w' = heap w -> arraysOwned U h0 w -> arraysOwned U h0 w'.
Proof. unfold arraysOwned. by intros -> ->. Qed.

Lemma arraysOwned_ignoresStream U : ignoresStream (arraysOwned U h0).
Proof. by intros w b. Qed.

(** A change of a member that is not a pointer. *)
Lemma arraysOwned_scalar U f w :
  (forall d g, getArray g (f d) = getArray g d) ->
  arraysOwned U h0 w ->
  arraysOwned U h0
    (mkWorld (f (self w)) (bio w) (heap w) (warnings w) (memory w) (stack w)).
Proof.
  intros Hf (H1 & H2 & H3 & H4). unfold arraysOwned. simpl.
  split; [|split; [|split]].
  - intros g Hg. rewrite Hf. by apply H1.
  - intros g a. rewrite Hf. apply H2.
  - intros g1 g2 a. rewrite !Hf. apply H3.
  - intros a Hn. apply H4. intros g. specialize (Hn g). by rewrite Hf in Hn.
Qed.

(** [data.f = new ...] for a member that is still NULL. *)
Lemma arraysOwned_assign f U w b mem :
  f ∉ U -> arraysOwned (f :: U) h0 w ->
  let a := fresh (dom (heap w)) in
  arraysOwned U h0
    (mkWorld (setArray f (Some a) (self w)) (bio w) (<[a:=b]> (heap w)) (warnings w)
       mem (stack w)) /\
  getArray f (setArray f (Some a) (self w)) = Some a.
Proof.
  intros Hf (H1 & H2 & H3 & H4) a.
  assert (Ha : heap w !! a = None) by apply not_elem_of_dom, is_fresh.
  assert (Hnf : getArray f (self w) = None) by (apply H1; left).
  assert (Hpt : forall g, getArray g (self w) <> Some a).
  { intros g Hg. destruct (H2 g a Hg) as [_ [? Hl]]. congruence. }
  split; [|by rewrite getArray_setArray, decide_True].
  unfold arraysOwned. simpl. split; [|split; [|split]].
  - intros g Hg. rewrite getArray_setArray. case_decide; [by subst|]. apply H1. by right.
  - intros g a'. rewrite getArray_setArray. case_decide as Hfg.
    + intros [= <-]. split; [by rewrite <- H4 | by rewrite lookup_insert_eq].
    + intros Hg. destruct (H2 g a' Hg) as [Hh Hl]. split; [done|].
      rewrite lookup_insert_ne; [done|]. intros <-. by apply (Hpt g).
  - intros g1 g2 a'. rewrite !getArray_setArray.
    case_decide as Hg1; case_decide as Hg2; subst.
    + done.
    + intros [= <-] Hg. by destruct (Hpt g2).
    + intros Hg [= <-]. by destruct (Hpt g1).
    + apply H3.
  - intros a' Hn.
    assert (a' <> a).
    { intros ->. apply (Hn f). by rewrite getArray_setArray, decide_True. }
    rewrite lookup_insert_ne by done. apply H4.
    intros g Hg. apply (Hn g). rewrite getArray_setArray.
    case_decide; [subst; congruence | done].
Qed.

(** [data.f = NULL] for a member that is still NULL. *)
Lemma arraysOwned_null f U w :
  arraysOwned (f :: U) h0 w ->
  arraysOwned U h0
    (mkWorld (setArray f None (self w)) (bio w) (heap w) (warnings w) (memory w) (stack w)).
Proof.
  intros Hw.
  assert (Hnf : getArray f (self w) = None) by (apply Hw; left).
  assert (Hsame : forall g, getArray g (setArray f None (self w)) = getArray g (self w)).
  { intros g. rewrite getArray_setArray. case_decide; by subst. }
  apply (arraysOwned_fewer (f :: U)); [by right|].
  destruct Hw as (H1 & H2 & H3 & H4). unfold arraysOwned. simpl.
  split; [|split; [|split]].
  - intros g Hg. rewrite Hsame. by apply H1.
  - intros g a. rewrite Hsame. apply H2.
  - intros g1 g2 a. rewrite !Hsame. apply H3.
  - intros a Hn. apply H4. intros g. specialize (Hn g). by rewrite Hsame in Hn.
Qed.

(** A store into the array of a member. *)
Lemma arraysOwned_store f U w a b :
  arraysOwned U h0 w -> getArray f (self w) = Some a ->
  arraysOwned U h0
    (mkWorld (self w) (bio w) (<[a:=b]> (heap w)) (warnings w) (memory w) (stack w)).
Proof.
  intros (H1 & H2 & H3 & H4) Hf. unfold arraysOwned. simpl.
  split; [done|]. split; [|split; [done|]].
  - intros g a' Hg. destruct (H2 g a' Hg) as [Hh Hl]. split; [done|].
    destruct (decide (a = a')) as [->|]; [by rewrite lookup_insert_eq|].
    by rewrite lookup_insert_ne.
  - intros a' Hn. rewrite lookup_insert_ne; [by apply H4|].
    intros ->. by apply (Hn f).
Qed.

#[local] Abbreviation owning U := (fun w : World Data => arraysOwned U h0 w /\ K w).

Definition ownedAt (U : list DataArray) (f : DataArray) (a : nat) (w : World Data) : Prop :=
  owning U w /\ getArray f (self w) = Some a.

#[local] Abbreviation failing := (fun (_ : Z) => arraysOwned [] h0).

Lemma owning_ignoresStream U : ignoresStream (owning U).
Proof. intros w b [Hw HK]. split; [done|]. by apply (K_keeps w). Qed.

Lemma step_read U :
  triple (owning U) ext_bio_readSizeType (fun _ => owning U) failing /\
  triple (owning U) ext_bio_readDouble (fun _ => owning U) failing /\
  (forall n, triple (owning U) (ext_bio_readNUnsigned32BitIntegers n)
               (fun _ => owning U) failing).
Proof.
  destruct (triple_read (owning U) failing (owning_ignoresStream U)) as (_ & ? & ? & _ & ? & _);
    [|done].
  intros w [Hw _]. by apply (arraysOwned_nil U).
Qed.

Lemma step_scalar U f :
  (forall d g, getArray g (f d) = getArray g d) ->
  (forall w, K w ->
     K (mkWorld (f (self w)) (bio w) (heap w) (warnings w) (memory w) (stack w))) ->
  triple (owning U) (modify f) (fun _ => owning U) failing.
Proof.
  intros Hf HK. apply triple_modify_keeps. intros w [Hw Hk].
  split; [by apply arraysOwned_scalar | by apply HK].
Qed.

Lemma step_null f U :
  triple (owning (f :: U)) (modify (setArray f None)) (fun _ => owning U) failing.
Proof.
  apply triple_modify. intros w [Hw Hk].
  split; [by apply arraysOwned_null | by apply (K_keeps w)].
Qed.

(** [data.f = new ...[n]] followed by what reads into the new array.  When
    the allocation throws, the arrays allocated before are as they
    were. *)
Lemma step_newArray {A} f U b (k : pointer -> IO Data A) Q V :
  f ∉ U ->
  (forall a, outcomes (ownedAt U f a) (k (Some a)) Q failing (arraysOwned [] h0) V) ->
  outcomes (owning (f :: U)) (q ← newArray b; modify (setArray f q);; k q) Q failing
    (arraysOwned [] h0) V.
Proof.
  intros Hf Hk w [Hw HK].
  unfold mbind at 1, IO_bind at 1, newArray.
  destruct ((arrayBytes b <? 2 ^ 64) && (arrayBytes b <=? memory w));
    [|by apply (arraysOwned_nil (f :: U))].
  destruct (arraysOwned_assign f U w b (memory w - arrayBytes b) Hf Hw) as [Hown Hget].
  unfold mbind, IO_bind, modify. simpl.
  apply (Hk (fresh (dom (heap w)))). split; [|done].
  split; [done|]. by apply (K_keeps w).
Qed.

Lemma step_read_store f U a n (mk : list Z -> Block) (rd : nat -> IO Data (list Z)) :
  (forall P E, ignoresStream P -> (forall w, P w -> E EIO w) ->
               triple P (rd n) (fun _ => P) E) ->
  triple (ownedAt U f a) (d ← rd n; store (Some a) (mk d))
    (fun _ => owning U) failing.
Proof.
  intros Hrd. eapply triple_bind.
  - apply (Hrd (ownedAt U f a) failing).
    + intros w b [Hw Hf]. split; [by apply owning_ignoresStream | done].
    + intros w [[Hw _] _]. by apply (arraysOwned_nil U).
  - intros d w [[Hw HK] Hf]. unfold store.
    destruct (proj1 (proj2 Hw) f a Hf) as [_ [blk Hl]]. rewrite Hl.
    split; [by apply (arraysOwned_store f) | by apply (K_keeps w)].
Qed.

Lemma readNDoubles_keeps n P E :
  ignoresStream P -> (forall w, P w -> E EIO w) ->
  triple P (ext_bio_readNDoubles (T := Data) n) (fun _ => P) E.
Proof. intros HP HE. by apply (triple_read P E HP HE). Qed.

Lemma readNUnsigned32_keeps n P E :
  ignoresStream P -> (forall w, P w -> E EIO w) ->
  triple P (ext_bio_readNUnsigned32BitIntegers (T := Data) n) (fun _ => P) E.
Proof. intros HP HE. by apply (triple_read P E HP HE). Qed.

Lemma step_readNewDoubles f U n V :
  f ∉ U ->
  outcomes (owning (f :: U)) (readNewDoubles f n) (fun _ => owning U) failing
    (arraysOwned [] h0) V.
Proof.
  intros Hf. unfold readNewDoubles. apply step_newArray; [done|].
  intros a. apply outcomes_of_triple.
  apply (step_read_store f U a n DoubleArray ext_bio_readNDoubles).
  intros P E. apply readNDoubles_keeps.
Qed.

Lemma step_optional f U (b : bool) n V :
  f ∉ U ->
  outcomes (owning (f :: U))
    (if b then readNewDoubles f n else modify (setArray f None))
    (fun _ => owning U) failing (arraysOwned [] h0) V.
Proof.
  intros Hf. destruct b; [by apply step_readNewDoubles|].
  apply outcomes_of_triple, step_null.
Qed.

End ReadDataSteps.

Section ReadData.

Variable h0 : gmap nat Block.

#[local] Abbreviation failing := (fun (_ : Z) => arraysOwned [] h0).
#[local] Abbreviation leaking := (arraysOwned [] h0).

Lemma triple_get_keeps {T} (P : World T -> Prop) E : triple P get (fun _ => P) E.
Proof. by intros w Hw. Qed.

Lemma outcomes_get_bind {T A} (P : World T -> Prop) (k : T -> IO T A) Q E X U :
  (forall d, outcomes (fun w => self w = d /\ P w) (k d) Q E X U) ->
  outcomes P (get ≫= k) Q E X U.
Proof. intros Hk w Hw. by apply (Hk (self w)). Qed.

(** The storage of the type tags: where the stack does not have it, the
    call is undefined. *)
Lemma step_stackAllocate (P : World Data -> Prop) np E X :
  (forall w, P w -> numPredictors (self w) = np) ->
  outcomes P (ext_stackAllocate (Z.to_nat np) 4) (fun _ => P) E X stackExhausted.
Proof.
  intros Hnp w Hw. unfold ext_stackAllocate.
  destruct (Z.leb_spec (4 * Z.of_nat (Z.to_nat np)) (stack w)) as [_|Hlt]; [done|].
  unfold stackExhausted. by rewrite (Hnp w Hw).
Qed.

Ltac not_in_list :=
  let H := fresh in
  intros H; repeat (apply elem_of_cons in H as [H|H]; [discriminate|]);
  by apply elem_of_nil in H.

Ltac lifted tac := apply outcomes_of_triple; tac.

Lemma readData_fields_spec :
  outcomes (arraysOwned allArrays h0) readData_fields (fun _ => arraysOwned [] h0)
    failing leaking stackExhausted.
Proof.
  pose (K0 := fun _ : World Data => True).
  assert (HK0 : forall w w' : World Data,
             K0 w -> dataScalars (self w') = dataScalars (self w) -> K0 w') by done.
  eapply outcomes_consequence with
    (P' := fun w => arraysOwned allArrays h0 w /\ K0 w)
    (Q' := fun _ => arraysOwned [] h0) (E' := failing) (X' := leaking)
    (U' := stackExhausted); [|done..].
  unfold readData_fields, allArrays.
  eapply outcomes_bind;
    [apply outcomes_of_triple, triple_fmap, (step_read h0 K0 HK0)|]. intros dataFlags.
  do 4 (eapply outcomes_bind; [apply outcomes_of_triple, (step_read h0 K0 HK0)|]; intros ?;
        eapply outcomes_bind; [by apply outcomes_of_triple, (step_scalar h0 K0)|];
        intros ?).
  apply outcomes_get_bind. intros data. cbv zeta.
  pose (K := fun w : World Data => numPredictors (self w) = numPredictors data).
  assert (HK : forall w w' : World Data,
             K w -> dataScalars (self w') = dataScalars (self w) -> K w').
  { unfold K, dataScalars. intros w w' Hw [= _ Hp _ _]. by rewrite Hp. }
  eapply outcomes_consequence with
    (P' := fun w => arraysOwned allArrays h0 w /\ K w)
    (Q' := fun _ => arraysOwned [] h0) (E' := failing) (X' := leaking)
    (U' := stackExhausted); [|by intros w [<- [Hw _]]|done..].
  unfold allArrays.
  do 2 (eapply outcomes_bind; [apply (step_readNewDoubles h0 K HK); not_in_list|];
        intros ?).
  do 4 (eapply outcomes_bind; [apply (step_optional h0 K HK); not_in_list|]; intros ?).
  eapply outcomes_bind; [apply step_stackAllocate; by intros w [_ Hw]|]. intros ?.
  eapply outcomes_bind; [apply outcomes_of_triple, (step_read h0 K HK)|]. intros vts.
  apply (step_newArray h0 K HK); [not_in_list|]. intros q0.
  eapply outcomes_consequence with
    (P' := fun w => arraysOwned [Array_maxNumCuts] h0 w /\ K w)
    (Q' := fun _ w => arraysOwned [] h0 w /\ K w) (E' := failing) (X' := leaking)
    (U' := stackExhausted); [|by intros w [? _]|by intros ? w [? _]|done..].
  destruct (hasFlag dataFlags DATA_HAS_MAX_NUM_CUTS);
    [|apply outcomes_of_triple, (step_null h0 K HK)].
  apply (step_newArray h0 K HK); [not_in_list|]. intros q.
  apply outcomes_of_triple.
  apply (step_read_store h0 K HK Array_maxNumCuts [] q _ UInt32Array
           ext_bio_readNUnsigned32BitIntegers).
  intros P E. apply readNUnsigned32_keeps.
Qed.

Lemma arraysDeleted_start w : arraysOwned [] h0 w -> arraysDeleted [] (self w) h0 w.
Proof.
  intros (_ & H2 & H3 & H4). split; [done|]. split; [|done].
  intros f a Hf. destruct (H2 f a Hf). split; [done|]. split; [|done].
  by intros ?%elem_of_nil.
Qed.

Lemma step_delete f D d :
  f ∉ D ->
  triple (arraysDeleted D d h0) (delete_ (getArray f d))
    (fun _ => arraysDeleted (f :: D) d h0) (fun _ _ => False).
Proof.
  intros HfD w (Hd & H2 & H3 & H4). unfold delete_.
  destruct (getArray f d) as [a|] eqn:Hf.
  - destruct (H2 f a Hf) as (Hh & _ & [blk Hl]); [done|]. rewrite Hl.
    split; [done|]. simpl. split; [|split; [done|]].
    + intros g a' Hg. destruct (H2 g a' Hg) as (Hh' & Hdel & Hlive). split; [done|].
      destruct (decide (g = f)) as [->|Hne].
      * assert (a' = a) as -> by congruence.
        split; [by rewrite lookup_delete_eq | intros Hn; destruct Hn; by left].
      * assert (a <> a') by (intros ->; by apply Hne, (H3 g f a')).
        rewrite lookup_delete_ne by done. split.
        -- intros [?|?]%elem_of_cons; [done | by apply Hdel].
        -- intros Hn. apply Hlive. intros ?. apply Hn. by right.
    + intros a' Hn. rewrite lookup_delete_ne; [by apply H4|].
      intros ->. by apply (Hn f).
  - split; [done|]. split; [|done].
    intros g a' Hg. destruct (H2 g a' Hg) as (Hh' & Hdel & Hlive). split; [done|].
    assert (g <> f) by congruence. split.
    + intros [?|?]%elem_of_cons; [done | by apply Hdel].
    + intros Hn. apply Hlive. intros ?. apply Hn. by right.
Qed.

Lemma arraysDeleted_iff D D' d w :
  (forall f, f ∈ D <-> f ∈ D') -> arraysDeleted D d h0 w -> arraysDeleted D' d h0 w.
Proof.
  intros HD (Hd & H2 & H3 & H4). split; [done|]. split; [|done].
  intros f a Hf. destruct (H2 f a Hf) as (Hh & Hdel & Hlive). split; [done|].
  split; intros HfD; [apply Hdel | apply Hlive]; by rewrite HD.
Qed.

Lemma elem_of_allArrays f : f ∈ allArrays.
Proof. unfold allArrays. destruct f; set_solver. Qed.

Lemma arraysDeleted_all d w :
  arraysDeleted [Array_y; Array_X; Array_X_test; Array_weights; Array_offset;
                 Array_testOffset; Array_variableTypes; Array_maxNumCuts] d h0 w ->
  self w = d /\ heap w = h0 /\ noArrayReachable w.
Proof.
  intros (Hd & H2 & H3 & H4). fold allArrays in H2.
  assert (Hreach : noArrayReachable w).
  { intros f a Hf. rewrite Hd in Hf. destruct (H2 f a Hf) as (_ & Hdel & _).
    apply Hdel, elem_of_allArrays. }
  split; [done|]. split; [|done]. apply map_eq. intros a.
  destruct (decide (Exists (fun f => getArray f d = Some a) allArrays)) as [Hex|Hno].
  - apply Exists_exists in Hex as (f & _ & Hf).
    destruct (H2 f a Hf) as (-> & Hdel & _). apply Hdel, elem_of_allArrays.
  - apply H4. intros f Hf. apply Hno, Exists_exists. exists f. split; [|done].
    apply elem_of_allArrays.
Qed.

Lemma triple_get_bind {T A} (P : World T -> Prop) (k : T -> IO T A) Q E :
  (forall d, triple (fun w => self w = d /\ P w) (k d) Q E) -> triple P (get ≫= k) Q E.
Proof. intros Hk w Hw. by apply (Hk (self w)). Qed.

Lemma triple_assume {T A} (C : Prop) (P : World T -> Prop) (m : IO T A) Q E :
  (C -> triple P m Q E) -> triple (fun w => C /\ P w) m Q E.
Proof. intros H w [HC Hw]. by apply H. Qed.

(** The cleanup deletes the arrays and assigns to no member. *)
Lemma deleteArrays_spec d :
  triple (fun w => self w = d /\ arraysOwned [] h0 w) deleteArrays
    (fun _ w => self w = d /\ heap w = h0 /\ noArrayReachable w) (fun _ _ => False).
Proof.
  unfold deleteArrays. apply triple_get_bind. intros d'.
  eapply triple_consequence with
    (P' := fun w => d' = d /\ arraysDeleted [] d h0 w)
    (Q' := fun _ w => self w = d /\ heap w = h0 /\ noArrayReachable w)
    (E' := fun _ _ => False); [|by intros w (<- & <- & Hw); split;
                                  [|apply arraysDeleted_start]|done|done].
  apply triple_assume. intros ->.
  eapply triple_bind; [apply (step_delete Array_maxNumCuts); not_in_list|]. intros ?.
  eapply triple_bind; [apply (step_delete Array_variableTypes); not_in_list|]. intros ?.
  eapply triple_bind; [apply (step_delete Array_testOffset); not_in_list|]. intros ?.
  eapply triple_bind; [apply (step_delete Array_offset); not_in_list|]. intros ?.
  eapply triple_bind; [apply (step_delete Array_weights); not_in_list|]. intros ?.
  eapply triple_bind; [apply (step_delete Array_X_test); not_in_list|]. intros ?.
  eapply triple_bind; [apply (step_delete Array_X); not_in_list|]. intros ?.
  eapply triple_consequence;
    [apply (step_delete Array_y
              [Array_X; Array_X_test; Array_weights; Array_offset; Array_testOffset;
               Array_variableTypes; Array_maxNumCuts] d); not_in_list
    | by intros w Hw | | by intros e w Hw].
  intros u w Hw. apply (arraysDeleted_all d).
  eapply arraysDeleted_iff; [|exact Hw].
  intros f. split; intros _; [apply elem_of_allArrays | destruct f; set_solver].
Qed.

End ReadData.

(** C6 (as amended): called with the array members of [Data] NULL, a
    [readData] one of whose reads of a field fails returns [false] after
    it has deleted every array that it allocated: the heap is the heap of
    the call and no member leads to a live array.  At the failure every
    member that is not NULL led to a live array of its own, which the call
    had allocated; the cleanup assigns to no member, so that these members
    hold the addresses of the deleted arrays and the others are NULL.
    When an allocation throws, the call does not return and deletes
    nothing: the members lead to the arrays allocated before.  The call
    meets undefined behaviour only where the stack does not have the
    storage of the type tags. *)
Theorem readData_failure_frees (w : World Data) :
  (forall f, getArray f (self w) = None) ->
  match readData w with
  | (Done true, _) => True
  | (Done false, w') =>
      exists e w1,
        readData_fields w = (Failed e, w1) /\ e <> 0 /\
        arraysOwned [] (heap w) w1 /\
        self w' = self w1 /\ heap w' = heap w /\ noArrayReachable w'
  | (Failed _, _) => False
  | (Thrown, w') => arraysOwned [] (heap w) w'
  | (Undefined, w') => stackExhausted w'
  end.
Proof.
  intros Hnull.
  assert (Hown : arraysOwned allArrays (heap w) w).
  { split; [by intros f _|]. split; [|split; [|done]].
    - intros f a Hf. by rewrite Hnull in Hf.
    - intros f g a Hf. by rewrite Hnull in Hf. }
  pose proof (readData_fields_spec (heap w) w Hown) as Hfields.
  unfold readData, atCleanup.
  destruct (readData_fields w) as [[[] | e | |] w1]; cbn [isUndefined isThrown errorCodeOf];
    [done| |done..].
  destruct Hfields as [He Hw1]. rewrite (proj2 (Z.eqb_neq e 0) He). cbn [negb when_].
  pose proof (deleteArrays_spec (heap w) (self w1) w1 (conj eq_refl Hw1)) as Hdel.
  unfold mbind, IO_bind.
  destruct (deleteArrays w1) as [[[] | e' | |] w2]; [|by destruct Hdel|done..].
  destruct Hdel as (Hself & Hheap & Hreach).
  unfold ext_issueWarning, mret, IO_ret.
  exists e, w1. split; [done|]. split; [done|]. split; [done|]. by split.
Qed.

Lemma readData_failure_frees_witness :
  (readData world_short_X).1 = Done false /\
  match readData world_short_X with
  | (Done true, _) => True
  | (Done false, w') =>
      exists e w1,
        readData_fields world_short_X = (Failed e, w1) /\ e <> 0 /\
        arraysOwned [] (heap world_short_X) w1 /\
        self w' = self w1 /\ heap w' = heap world_short_X /\ noArrayReachable w'
  | (Failed _, _) => False
  | (Thrown, w') => arraysOwned [] (heap world_short_X) w'
  | (Undefined, w') => stackExhausted w'
  end.
Proof.
  split; [vm_compute; reflexivity|].
  exact (readData_failure_frees world_short_X ltac:(by intros [])).
Defined.

(** C6 as stated fails: after the failure within [X], the members [y] and
    [X] hold the addresses of the arrays that were deleted, not NULL. *)
Lemma readData_not_cleared_counterexample :
  ~ (forall w : World Data,
       (forall f, getArray f (self w) = None) ->
       (readData w).1 = Done false ->
       forall f, getArray f (self (readData w).2) = None).
Proof.
  intros H.
  assert (Hnull : forall f, getArray f (self world_short_X) = None) by (by intros []).
  assert (Hr : (readData world_short_X).1 = Done false) by (vm_compute; reflexivity).
  specialize (H world_short_X Hnull Hr Array_y).
  vm_compute in H. discriminate H.
Qed.

(** ** readModel *)

Lemma lookup_fresh (m : gmap nat Block) : m !! fresh (dom m) = None.
Proof. apply not_elem_of_dom, is_fresh. Qed.

Lemma delete_fresh (m : gmap nat Block) : delete (fresh (dom m)) m = m.
Proof. apply delete_id, lookup_fresh. Qed.






Ltac tag_matches :=
  unfold strncmp_differs at 1; rewrite bool_decide_eq_true_2 by reflexivity.

Ltac heap_step :=
  rewrite ?lookup_insert_eq, ?insert_insert_eq, ?delete_insert_eq, ?delete_fresh.




(** ** writeData *)

(** C3, the input on which the round trip of [Data] fails: a [Data] with a
    predictor and without [maxNumCuts].  [writeData] clears the flag for
    [maxNumCuts] and then writes the array all the same, through NULL. *)
Theorem writeData_without_maxNumCuts_undefined :
  (writeData world_without_maxNumCuts).1 = Undefined /\
  (writeData world_with_maxNumCuts).1 = Done true.
Proof. split; vm_compute; reflexivity. Qed.

(** ** [writeData] without [maxNumCuts] *)

Section PartialTriples.

Context {T : Type}.
Implicit Types P : World T -> Prop.

Lemma partialTriple_bind {A B} P (m : IO T A) (k : A -> IO T B) R :
  partialTriple P m (fun _ => P) -> (forall a, partialTriple P (k a) R) ->
  partialTriple P (m ≫= k) R.
Proof.
  intros Hm Hk w HP. specialize (Hm w HP).
  unfold mbind, IO_bind. destruct (m w) as [[a | e | |] w']; [|done..].
  by apply Hk.
Qed.

Lemma partialTriple_ret {A} P (a : A) : partialTriple P (mret a) (fun _ => P).
Proof. by intros w Hw. Qed.

Lemma partialTriple_undefined {A} P Q : partialTriple P (undefined (A:=A)) Q.
Proof. by intros w Hw. Qed.

Lemma partialTriple_writeBytes P bs :
  ignoresStream P -> partialTriple P (writeBytes bs) (fun _ => P).
Proof.
  intros HP w Hw. unfold writeBytes.
  destruct (length bs <=? room (bio w))%nat; [by apply HP|done].
Qed.

Lemma partialTriple_load P p : partialTriple P (load p) (fun _ => P).
Proof. intros w Hw. unfold load. by destruct (p ≫= _). Qed.

Lemma partialTriple_loadDoubles P p n : partialTriple P (loadDoubles p n) (fun _ => P).
Proof.
  unfold loadDoubles. destruct (n =? 0)%nat; [apply partialTriple_ret|].
  apply partialTriple_bind; [apply partialTriple_load|].
  intros []; try apply partialTriple_undefined.
  destruct (n <=? length a)%nat; [apply partialTriple_ret | apply partialTriple_undefined].
Qed.

Lemma partialTriple_loadVariableTypes P p n :
  partialTriple P (loadVariableTypes p n) (fun _ => P).
Proof.
  unfold loadVariableTypes. destruct (n =? 0)%nat; [apply partialTriple_ret|].
  apply partialTriple_bind; [apply partialTriple_load|].
  intros []; try apply partialTriple_undefined.
  destruct (n <=? length a)%nat; [apply partialTriple_ret | apply partialTriple_undefined].
Qed.

Lemma partialTriple_when P (b : bool) (m : IO T unit) :
  partialTriple P m (fun _ => P) -> partialTriple P (when_ b m) (fun _ => P).
Proof. destruct b; intros Hm; [done | apply partialTriple_ret]. Qed.

Lemma partialTriple_stackAllocate P n elementSize :
  partialTriple P (ext_stackAllocate n elementSize) (fun _ => P).
Proof.
  intros w Hw. unfold ext_stackAllocate.
  by destruct (elementSize * Z.of_nat n <=? stack w).
Qed.

(** What [writeData] writes through NULL it does not write. *)
Lemma partialTriple_loadUInt32s_null {A} P n (k : list Z -> IO T A) Q :
  (0 < n)%nat -> partialTriple P (loadUInt32s None n ≫= k) Q.
Proof.
  intros Hn w Hw. unfold loadUInt32s.
  destruct (Nat.eqb_spec n 0) as [->|_]; [lia|]. done.
Qed.

End PartialTriples.

(** X18. A [writeData] that is handed a [Data] with a predictor and without
    [maxNumCuts] writes no stream for it, whatever else the [Data] holds
    and whatever the room in the sink: it ends in undefined behaviour at
    the write of [maxNumCuts], or has failed before it. *)
Lemma writeData_needs_maxNumCuts (w : World Data) :
  maxNumCuts (self w) = None -> 0 < numPredictors (self w) ->
  (writeData w).1 <> Done true.
Proof.
  intros Hnull Hp.
  set (P := fun w' : World Data => self w' = self w).
  assert (HP : ignoresStream P) by (by intros w' b Hw').
  assert (Hwrite : forall bs, partialTriple P (writeBytes bs) (fun _ => P))
    by (intros bs; by apply partialTriple_writeBytes).
  assert (Hfields : partialTriple P writeData_fields (fun _ _ => False)).
  { unfold writeData_fields. intros w' Hw'.
    unfold mbind at 1, IO_bind at 1, get at 1. rewrite Hw'. revert w' Hw'.
    change (partialTriple P
      (let data := self w in
       ext_bio_writeUnsigned32BitInteger (dataFlagsOf data);;
       ext_bio_writeSizeType (numObservations data);;
       ext_bio_writeSizeType (numPredictors data);;
       ext_bio_writeSizeType (numTestObservations data);;
       ext_bio_writeDouble (sigmaEstimate data);;
       (d ← loadDoubles (y data) (Z.to_nat (numObservations data));
        ext_bio_writeNDoubles d);;
       (d ← loadDoubles (X data)
              (Z.to_nat (size_mul (numObservations data) (numPredictors data)));
        ext_bio_writeNDoubles d);;
       when_ (0 <? numTestObservations data)
         (d ← loadDoubles (X_test data)
                (Z.to_nat (size_mul (numTestObservations data) (numPredictors data)));
          ext_bio_writeNDoubles d);;
       when_ (negb (isNull (weights data)))
         (d ← loadDoubles (weights data) (Z.to_nat (numObservations data));
          ext_bio_writeNDoubles d);;
       when_ (negb (isNull (offset data)))
         (d ← loadDoubles (offset data) (Z.to_nat (numObservations data));
          ext_bio_writeNDoubles d);;
       when_ (negb (isNull (testOffset data)))
         (d ← loadDoubles (testOffset data) (Z.to_nat (numTestObservations data));
          ext_bio_writeNDoubles d);;
       ext_stackAllocate (Z.to_nat (numPredictors data)) 4;;
       variableTypes ← loadVariableTypes (variableTypes data)
                         (Z.to_nat (numPredictors data));
       ext_bio_writeNUnsigned32BitIntegers (uint32_of_VariableType <$> variableTypes);;
       (u ← loadUInt32s (maxNumCuts data) (Z.to_nat (numPredictors data));
        ext_bio_writeNUnsigned32BitIntegers u))
      (fun _ _ => False)).
    cbv zeta. rewrite Hnull.
    repeat first
      [ apply partialTriple_loadUInt32s_null; lia
      | apply partialTriple_bind; [|intros ?]
      | apply partialTriple_when
      | apply partialTriple_loadDoubles
      | apply partialTriple_loadVariableTypes
      | apply partialTriple_stackAllocate
      | apply Hwrite ]. }
  specialize (Hfields w eq_refl). unfold writeData, atCleanup.
  destruct (writeData_fields w) as [[a | e | |] w']; [done| |done..].
  destruct Hfields as [He _]. cbn [isUndefined isThrown errorCodeOf].
  rewrite (proj2 (Z.eqb_neq e 0) He). done.
Qed.

(** ** Round trips *)

(** With [maxNumCuts] the same [Data] makes the round trip: [readData]
    reads the stream of [writeData] to its end and builds arrays that
    hold what the arrays written held. *)
Lemma data_round_trip_with_maxNumCuts :
  let written_out := written (bio (writeData world_with_maxNumCuts).2) in
  (readData_of written_out).1 = Done true /\
  dataScalars (self (readData_of written_out).2)
  = dataScalars (self world_with_maxNumCuts) /\
  dataArrays (readData_of written_out).2 = dataArrays world_with_maxNumCuts /\
  unread (bio (readData_of written_out).2) = [].
Proof. vm_compute. repeat split. Qed.


Lemma length_encodeBE width v : length (encodeBE width v) = width.
Proof.
  revert v. induction width as [|width IH]; intros v; simpl; [done|].
  rewrite length_app, IH. simpl. lia.
Qed.

Lemma decodeBE_snoc bs b : decodeBE (bs ++ [b]) = decodeBE bs * 256 + b.
Proof. unfold decodeBE. by rewrite foldl_app. Qed.

Lemma decodeBE_encodeBE width v :
  0 <= v < 256 ^ Z.of_nat width -> decodeBE (encodeBE width v) = v.
Proof.
  revert v. induction width as [|width IH]; intros v Hv.
  - simpl in *. unfold decodeBE. simpl. lia.
  - cbn [encodeBE]. rewrite decodeBE_snoc, IH.
    + pose proof (Z.div_mod v 256 ltac:(lia)). lia.
    + rewrite Nat2Z.inj_succ, Z.pow_succ_r in Hv by lia.
      split; [apply Z.div_pos; lia | apply Z.div_lt_upper_bound; lia].
Qed.

Section Runs.

Context {T : Type}.
Implicit Types w : World T.

(** A read from a stream that starts with the encoding of the value. *)
Lemma run_readBytes n bs rest (s : T) wr rm h ws mem stk :
  length bs = n ->
  readBytes n (mkWorld s (mkBinaryIO (bs ++ rest) wr rm) h ws mem stk)
  = (Done bs, mkWorld s (mkBinaryIO rest wr rm) h ws mem stk).
Proof.
  intros <-. unfold readBytes. cbn [bio unread written room self heap warnings].
  rewrite length_app, (proj2 (Nat.leb_le _ _)) by lia.
  by rewrite take_app_length, drop_app_length.
Qed.

Lemma run_readWidth width v rest (s : T) wr rm h ws mem stk :
  0 <= v < 256 ^ Z.of_nat width ->
  (decodeBE <$> readBytes width)
    (mkWorld s (mkBinaryIO (encodeBE width v ++ rest) wr rm) h ws mem stk)
  = (Done v, mkWorld s (mkBinaryIO rest wr rm) h ws mem stk).
Proof.
  intros Hv. unfold fmap, IO_fmap, mbind, IO_bind.
  rewrite run_readBytes by apply length_encodeBE.
  unfold mret, IO_ret. by rewrite decodeBE_encodeBE.
Qed.

Lemma run_readUnsigned32 v rest (s : T) wr rm h ws mem stk :
  0 <= v < 2 ^ 32 ->
  ext_bio_readUnsigned32BitInteger
    (mkWorld s (mkBinaryIO (encodeBE 4 v ++ rest) wr rm) h ws mem stk)
  = (Done v, mkWorld s (mkBinaryIO rest wr rm) h ws mem stk).
Proof. intros Hv. by apply run_readWidth. Qed.

Lemma run_readSizeType v rest (s : T) wr rm h ws mem stk :
  0 <= v < 2 ^ 64 ->
  ext_bio_readSizeType (mkWorld s (mkBinaryIO (encodeBE 8 v ++ rest) wr rm) h ws mem stk)
  = (Done v, mkWorld s (mkBinaryIO rest wr rm) h ws mem stk).
Proof. intros Hv. by apply run_readWidth. Qed.

Lemma run_readDouble v rest (s : T) wr rm h ws mem stk :
  0 <= v < 2 ^ 64 ->
  ext_bio_readDouble (mkWorld s (mkBinaryIO (encodeBE 8 v ++ rest) wr rm) h ws mem stk)
  = (Done v, mkWorld s (mkBinaryIO rest wr rm) h ws mem stk).
Proof. intros Hv. by apply run_readWidth. Qed.

(** A write into a sink that has room for it. *)
Lemma run_writeWidth width v (s : T) un wr rm h ws mem stk :
  (width <= rm)%nat ->
  writeBytes (encodeBE width v) (mkWorld s (mkBinaryIO un wr rm) h ws mem stk)
  = (Done tt, mkWorld s (mkBinaryIO un (wr ++ encodeBE width v) (rm - width)) h ws mem stk).
Proof.
  intros Hrm. unfold writeBytes. cbn [bio unread written room self heap warnings].
  by rewrite length_encodeBE, (proj2 (Nat.leb_le _ _)) by lia.
Qed.

Lemma run_writeBytes bs (s : T) un wr rm h ws mem stk :
  (length bs <= rm)%nat ->
  writeBytes bs (mkWorld s (mkBinaryIO un wr rm) h ws mem stk)
  = (Done tt, mkWorld s (mkBinaryIO un (wr ++ bs) (rm - length bs)) h ws mem stk).
Proof.
  intros Hrm. unfold writeBytes. cbn [bio unread written room self heap warnings].
  by rewrite (proj2 (Nat.leb_le _ _)) by lia.
Qed.

End Runs.

(** One run of a call of the codec up to its next access to the stream. *)
Ltac run_codec :=
  lazy beta iota zeta delta
    [atCleanup when_ isUndefined isThrown errorCodeOf
     mbind IO_bind mret IO_ret get modify fail undefined ext_issueWarning
     ext_bio_writeUnsigned32BitInteger ext_bio_writeSizeType ext_bio_writeDouble
     ext_bio_writeNChars ext_bio_readNChars
     self bio heap warnings memory stack unread written room negb Z.eqb].

Ltac run_write :=
  run_codec;
  first [ rewrite run_writeWidth by lia
        | rewrite run_writeBytes by (simpl; lia) ].

Ltac run_read :=
  run_codec;
  first [ rewrite run_readUnsigned32 by (done || lia)
        | rewrite run_readSizeType by (done || lia)
        | rewrite run_readDouble by (done || lia)
        | rewrite run_readBytes by reflexivity ].

(** *** Control *)

Lemma controlFlagsOf_range c : 0 <= controlFlagsOf c < 2 ^ 32.
Proof.
  unfold controlFlagsOf.
  destruct (responseIsBinary c), (verbose c), (keepTrainingFits c), (useQuantiles c);
    vm_compute; split; congruence.
Qed.

Lemma setControlFlags_controlFlagsOf c c' :
  setControlFlags (controlFlagsOf c) c'
  = mkControl (responseIsBinary c) (verbose c) (keepTrainingFits c) (useQuantiles c)
      (numSamples c') (numBurnIn c') (numTrees c') (numThreads c')
      (treeThinningRate c') (printEvery c') (printCutoffs c')
      (callback c') (callbackData c').
Proof.
  unfold setControlFlags, controlFlagsOf.
  by destruct (responseIsBinary c), (verbose c), (keepTrainingFits c), (useQuantiles c).
Qed.

Lemma writeControl_run c un wr rm h ws mem stk :
  (48 <= rm)%nat ->
  writeControl (mkWorld c (mkBinaryIO un wr rm) h ws mem stk)
  = (Done true, mkWorld c (mkBinaryIO un (wr ++ encodeControl c) (rm - 48)) h ws mem stk).
Proof.
  intros Hrm. unfold writeControl, writeControl_fields.
  do 8 run_write. run_codec.
  unfold encodeControl. rewrite <- !app_assoc.
  do 3 f_equal. lia.
Qed.

Lemma readControl_run c c0 rest wr rm h ws mem stk :
  Control_wf c ->
  readControl (mkWorld c0 (mkBinaryIO (encodeControl c ++ rest) wr rm) h ws mem stk)
  = (Done true, mkWorld (resetCallback c) (mkBinaryIO rest wr rm) h ws mem stk).
Proof.
  intros (H1 & H2 & H3 & H4 & H5 & H6 & H7).
  pose proof (controlFlagsOf_range c) as H0.
  unfold readControl, readControl_fields, encodeControl. rewrite <- !app_assoc.
  do 8 run_read. run_codec.
  rewrite setControlFlags_controlFlagsOf. reflexivity.
Qed.

(** X16. The round trip of [Control]: what [writeControl] writes into a sink with
    room for it, [readControl] reads back into any [Control], member by
    member; the callback, which is not written, is NULL. *)
Lemma control_round_trip c c0 rest un rm h ws mem stk wr' rm' h' ws' mem' stk' :
  Control_wf c -> (48 <= rm)%nat ->
  exists out,
    writeControl (mkWorld c (mkBinaryIO un [] rm) h ws mem stk)
    = (Done true, mkWorld c (mkBinaryIO un out (rm - 48)) h ws mem stk) /\
    readControl (mkWorld c0 (mkBinaryIO (out ++ rest) wr' rm') h' ws' mem' stk')
    = (Done true, mkWorld (resetCallback c) (mkBinaryIO rest wr' rm') h' ws' mem' stk').
Proof.
  intros Hwf Hrm. exists (encodeControl c). split.
  - by rewrite writeControl_run.
  - by apply readControl_run.
Qed.

(** *** Model *)

Lemma fresh_ne (m : gmap nat Block) a : is_Some (m !! a) -> fresh (dom m) <> a.
Proof. intros [b Hb] <-. by rewrite lookup_fresh in Hb. Qed.

Ltac run_model :=
  lazy beta iota zeta delta
    [readModel readModel_fields writeModel writeModel_fields atCleanup when_
     isUndefined isThrown errorCodeOf
     mbind IO_bind mret IO_ret get modify fail undefined ext_issueWarning
     new load store loadCGMPrior loadMeanNormalModel loadChiSquaredPrior
     ext_bio_writeDouble ext_bio_writeNChars ext_bio_readNChars
     set_birthOrDeathProbability set_swapProbability set_changeProbability
     set_birthProbability set_treePrior set_endNodeModel set_sigmaSqPrior
     self bio heap warnings memory stack unread written room
     birthOrDeathProbability swapProbability changeProbability birthProbability
     treePrior endNodeModel sigmaSqPrior option_bind negb Z.eqb].

Ltac step_model :=
  run_model;
  first [ rewrite run_readDouble by (done || lia)
        | rewrite run_readBytes by reflexivity
        | rewrite run_writeWidth by lia
        | rewrite run_writeBytes by (simpl; lia)
        | tag_matches
        | progress heap_step ].

Lemma modelFields_Some w f :
  modelFields w = Some f ->
  exists a1 a2 a3,
    treePrior (self w) = Some a1 /\ endNodeModel (self w) = Some a2 /\
    sigmaSqPrior (self w) = Some a3 /\
    heap w !! a1 = Some (CGMPriorObject (cgm f).1 (cgm f).2) /\
    heap w !! a2 = Some (MeanNormalModelObject (nrml f)) /\
    heap w !! a3 = Some (ChiSquaredPriorObject (chsq f).1 (chsq f).2) /\
    probabilities f = (birthOrDeathProbability (self w), swapProbability (self w),
                       changeProbability (self w), birthProbability (self w)).
Proof.
  unfold modelFields.
  destruct (treePrior (self w)) as [a1|]; simpl; [|done].
  destruct (heap w !! a1) as [[]|] eqn:H1; try done.
  destruct (endNodeModel (self w)) as [a2|]; simpl; [|done].
  destruct (heap w !! a2) as [[]|] eqn:H2; try done.
  destruct (sigmaSqPrior (self w)) as [a3|]; simpl; [|done].
  destruct (heap w !! a3) as [[]|] eqn:H3; try done.
  intros [= <-]. exists a1, a2, a3. by rewrite H1, H2, H3.
Qed.

Lemma writeModel_run w f :
  modelFields w = Some f -> (84 <= room (bio w))%nat ->
  writeModel w
  = (Done true,
     mkWorld (self w)
       (mkBinaryIO (unread (bio w)) (written (bio w) ++ encodeModel f)
          (room (bio w) - 84))
       (heap w) (warnings w) (memory w) (stack w)).
Proof.
  intros Hf Hrm.
  destruct (modelFields_Some w f Hf) as (a1 & a2 & a3 & Hp1 & Hp2 & Hp3 & Hl1 & Hl2 & Hl3 & Hpr).
  destruct w as [[m1 m2 m3 m4 p1 p2 p3] [un wr rm] h ws mem stk].
  cbn [self bio heap warnings memory stack unread written room
       treePrior endNodeModel sigmaSqPrior
       birthOrDeathProbability swapProbability changeProbability birthProbability] in *.
  subst p1 p2 p3.
  do 5 step_model.
  run_model; rewrite Hl1. step_model.
  run_model; rewrite Hl1. step_model.
  step_model.
  run_model; rewrite Hl2. step_model.
  step_model.
  run_model; rewrite Hl3. step_model.
  run_model; rewrite Hl3. step_model.
  run_model.
  unfold encodeModel. rewrite Hpr, <- !app_assoc.
  do 3 f_equal. rewrite !length_encodeBE. simpl. lia.
Qed.

Lemma readModel_run f m0 rest wr rm h ws mem stk :
  ModelFields_wf f ->
  exists w',
    readModel (mkWorld m0 (mkBinaryIO (encodeModel f ++ rest) wr rm) h ws mem stk)
    = (Done true, w') /\
    modelFields w' = Some f /\ unread (bio w') = rest /\ warnings w' = ws.
Proof.
  destruct f as [[[[q1 q2] q3] q4] [base power] precision [degreesOfFreedom scale]].
  unfold ModelFields_wf, double_wf, encodeModel.
  cbn [probabilities cgm nrml chsq fst snd].
  intros (H1 & H2 & H3 & H4 & H5 & H6 & H7 & H8 & H9).
  rewrite <- !app_assoc.
  eexists. split; [repeat step_model; reflexivity|].
  set (m1 := <[fresh (dom h) := CGMPriorObject base power]> h).
  set (m2 := <[fresh (dom m1) := MeanNormalModelObject precision]> m1).
  assert (Hn21 : fresh (dom m1) <> fresh (dom h)).
  { apply fresh_ne. unfold m1. by rewrite lookup_insert_eq. }
  assert (Hn32 : fresh (dom m2) <> fresh (dom m1)).
  { apply fresh_ne. unfold m2. by rewrite lookup_insert_eq. }
  assert (Hn31 : fresh (dom m2) <> fresh (dom h)).
  { apply fresh_ne. unfold m2. rewrite lookup_insert_ne by done.
    unfold m1. by rewrite lookup_insert_eq. }
  split; [|done]. unfold modelFields.
  cbn [self heap treePrior endNodeModel sigmaSqPrior
       birthOrDeathProbability swapProbability changeProbability birthProbability
       mbind option_bind].
  subst m2. rewrite (lookup_insert_ne _ _ (fresh (dom h))) by done.
  rewrite (lookup_insert_ne _ _ (fresh (dom h))) by done.
  rewrite (lookup_insert_ne _ _ (fresh (dom m1))) by done.
  rewrite (lookup_insert_eq _ (fresh (dom m1))).
  rewrite (lookup_insert_eq _ (fresh (dom (<[fresh (dom m1):=_]> m1)))).
  subst m1. by rewrite lookup_insert_eq.
Qed.

(** X17. The round trip of [Model]: what [writeModel] writes of a [Model] with its
    three priors into a sink with room for it, [readModel] reads back into
    any [Model], member by member, into priors that it allocates. *)
Lemma model_round_trip w f m0 rest wr rm h ws mem stk :
  modelFields w = Some f -> ModelFields_wf f ->
  written (bio w) = [] -> (84 <= room (bio w))%nat ->
  exists w1 w2,
    writeModel w = (Done true, w1) /\
    readModel (mkWorld m0 (mkBinaryIO (written (bio w1) ++ rest) wr rm) h ws mem stk)
    = (Done true, w2) /\
    modelFields w2 = Some f /\ unread (bio w2) = rest.
Proof.
  intros Hf Hwf Hempty Hrm.
  destruct (readModel_run f m0 rest wr rm h ws mem stk Hwf) as (w2 & Hread & Hfields & Hrest & _).
  eexists _, w2. split; [by apply writeModel_run|].
  cbn [bio written]. by rewrite Hempty.
Qed.

(** ** More of the codec *)

Lemma control_round_trip_witness :
  exists out,
    writeControl (mkWorld control_with_callback (mkBinaryIO [] [] 48) ∅ [] 1000 1000)
    = (Done true, mkWorld control_with_callback (mkBinaryIO [] out (48 - 48)) ∅ [] 1000 1000) /\
    readControl (mkWorld control_with_callback (mkBinaryIO (out ++ [1]) [] 0) ∅ [] 1000 1000)
    = (Done true,
       mkWorld (resetCallback control_with_callback) (mkBinaryIO [1] [] 0) ∅ [] 1000 1000).
Proof.
  apply (control_round_trip control_with_callback control_with_callback [1] [] 48 ∅ []
           1000 1000 [] 0%nat ∅ [] 1000 1000).
  - unfold Control_wf. simpl. lia.
  - lia.
Defined.

Lemma model_round_trip_witness :
  exists w1 w2,
    writeModel world_with_priors = (Done true, w1) /\
    readModel (mkWorld model_null (mkBinaryIO (written (bio w1) ++ [1]) [] 0) ∅ [] 1000 1000)
    = (Done true, w2) /\
    modelFields w2 = Some (mkModelFields (1, 2, 3, 4) (5, 6) 7 (8, 9)) /\
    unread (bio w2) = [1].
Proof.
  apply (model_round_trip world_with_priors (mkModelFields (1, 2, 3, 4) (5, 6) 7 (8, 9))
           model_null [1] [] 0%nat ∅ [] 1000 1000).
  - reflexivity.
  - unfold ModelFields_wf, double_wf. simpl. lia.
  - reflexivity.
  - simpl. lia.
Defined.

Lemma writeData_needs_maxNumCuts_witness :
  (writeData world_without_maxNumCuts).1 <> Done true.
Proof.
  apply (writeData_needs_maxNumCuts world_without_maxNumCuts).
  - reflexivity.
  - reflexivity.
Defined.

(** *** Calls that may end in undefined behaviour *)

Section Quiet.

Context {T : Type}.
Variable P : World T -> Prop.
Hypothesis P_of_warnings :
  forall w s b h mem stk, P w -> P (mkWorld s b h (warnings w) mem stk).

Lemma P_ignoresStream : ignoresStream P.
Proof. intros w b Hw. by apply (P_of_warnings w). Qed.

Lemma quiet_readBytes n : partialTriple P (readBytes n) (fun _ => P).
Proof.
  intros w Hw. unfold readBytes.
  destruct (n <=? length (unread (bio w)))%nat; [by apply (P_of_warnings w)|done].
Qed.

Lemma quiet_writeBytes bs : partialTriple P (writeBytes bs) (fun _ => P).
Proof. apply partialTriple_writeBytes, P_ignoresStream. Qed.

Lemma quiet_get : partialTriple P get (fun _ => P).
Proof. by intros w Hw. Qed.

Lemma quiet_modify f : partialTriple P (modify f) (fun _ => P).
Proof. intros w Hw. by apply (P_of_warnings w). Qed.

Lemma quiet_fail {A} e : e <> 0 -> partialTriple P (fail (A := A) e) (fun _ => P).
Proof. by intros He w Hw. Qed.

Lemma quiet_new b : partialTriple P (new b) (fun _ => P).
Proof. intros w Hw. by apply (P_of_warnings w). Qed.

Lemma quiet_newArray b : partialTriple P (newArray b) (fun _ => P).
Proof.
  intros w Hw. unfold newArray.
  destruct ((arrayBytes b <? 2 ^ 64) && (arrayBytes b <=? memory w)); [|done].
  by apply (P_of_warnings w).
Qed.

Lemma quiet_store p b : partialTriple P (store p b) (fun _ => P).
Proof.
  intros w Hw. unfold store. destruct p as [a|]; [|done].
  destruct (heap w !! a); [by apply (P_of_warnings w)|done].
Qed.

Lemma quiet_delete p : partialTriple P (delete_ p) (fun _ => P).
Proof.
  intros w Hw. unfold delete_. destruct p as [a|]; [|done].
  destruct (heap w !! a); [by apply (P_of_warnings w)|done].
Qed.

Lemma quiet_fmap {A B} (f : A -> B) (m : IO T A) :
  partialTriple P m (fun _ => P) -> partialTriple P (f <$> m) (fun _ => P).
Proof.
  intros Hm. unfold fmap, IO_fmap. apply partialTriple_bind; [done|].
  intros a. apply partialTriple_ret.
Qed.

End Quiet.

(** One step of a proof that a call keeps a property of the warnings. *)
Ltac quiet_step HP :=
  first
    [ apply partialTriple_ret
    | apply partialTriple_undefined
    | apply (quiet_readBytes _ HP)
    | apply (quiet_writeBytes _ HP)
    | apply (quiet_get _)
    | apply (quiet_modify _ HP)
    | apply (quiet_fail _); discriminate
    | apply (quiet_new _ HP)
    | apply (quiet_newArray _ HP)
    | apply partialTriple_stackAllocate
    | apply (quiet_store _ HP)
    | apply (quiet_delete _ HP)
    | apply partialTriple_load
    | apply (quiet_fmap _)
    | apply partialTriple_when
    | apply partialTriple_bind; [|intros ?]
    | match goal with
      | |- partialTriple _ (match ?x with _ => _ end) _ => destruct x
      | |- partialTriple _ (let '(_, _) := ?x in _) _ => destruct x
      end ].

Ltac quiet HP :=
  unfold readControl_fields, writeControl_fields, readData_fields, writeData_fields,
    readModel_fields, writeModel_fields, deleteArrays, deletePriors, readNewDoubles,
    loadDoubles, loadUInt32s, loadVariableTypes,
    loadCGMPrior, loadMeanNormalModel, loadChiSquaredPrior,
    ext_bio_writeUnsigned32BitInteger, ext_bio_writeSizeType, ext_bio_writeDouble,
    ext_bio_writeNDoubles, ext_bio_writeNUnsigned32BitIntegers, ext_bio_writeNChars,
    ext_bio_readUnsigned32BitInteger, ext_bio_readSizeType, ext_bio_readDouble,
    ext_bio_readNDoubles, ext_bio_readNUnsigned32BitIntegers, ext_bio_readNChars;
  cbv zeta; repeat quiet_step HP.

Section WarnsOnce.

Context {T : Type}.

Lemma noWarning_of_warnings ws :
  forall (w : World T) (s : T) b h mem stk,
    noWarning ws w -> noWarning ws (mkWorld s b h (warnings w) mem stk).
Proof. by intros w s b h mem stk Hw. Qed.

(** The code at a cleanup label, [extra] being what is done there before
    the warning: deletions, which return or are undefined. *)
Lemma warnsOnce_atCleanup {A} text (fields : IO T A) (extra : IO T unit) :
  (forall ws, partialTriple (noWarning ws) fields (fun _ => noWarning ws)) ->
  (forall ws, partialTriple (noWarning ws) extra (fun _ => noWarning ws)) ->
  (forall w, (extra w).1 = Done tt \/ (extra w).1 = Undefined) ->
  warnsOnce text fields
    (atCleanup fields (fun errorCode =>
       when_ (negb (errorCode =? 0)) (extra;; ext_issueWarning text errorCode))).
Proof.
  intros Hfields Hextra Hends w. unfold atCleanup.
  specialize (Hfields (warnings w) w eq_refl).
  destruct (fields w) as [[a | e | |] w1]; cbn [isUndefined isThrown errorCodeOf];
    [| |done..].
  - split; [by exists a, w1 | done].
  - destruct Hfields as [He Hw1]. rewrite (proj2 (Z.eqb_neq e 0) He). cbn [negb when_].
    unfold mbind, IO_bind.
    specialize (Hextra (warnings w) w1 Hw1). pose proof (Hends w1) as Hend.
    destruct (extra w1) as [[[] | e' | |] w2]; cbn [fst] in Hend;
      [| by destruct Hend | by destruct Hend | done].
    unfold ext_issueWarning, mret, IO_ret. cbn [warnings].
    exists e, w1. unfold noWarning in Hextra. by rewrite Hextra.
Qed.

(** The same where nothing is done before the warning. *)
Lemma warnsOnce_atCleanup_plain {A} text (fields : IO T A) :
  (forall ws, partialTriple (noWarning ws) fields (fun _ => noWarning ws)) ->
  warnsOnce text fields
    (atCleanup fields (fun errorCode =>
       when_ (negb (errorCode =? 0)) (ext_issueWarning text errorCode))).
Proof.
  intros Hfields w. unfold atCleanup.
  specialize (Hfields (warnings w) w eq_refl).
  destruct (fields w) as [[a | e | |] w1]; cbn [isUndefined isThrown errorCodeOf];
    [| |done..].
  - split; [by exists a, w1 | done].
  - destruct Hfields as [He Hw1]. rewrite (proj2 (Z.eqb_neq e 0) He). cbn [negb when_].
    unfold mbind, IO_bind, ext_issueWarning, mret, IO_ret. cbn [warnings].
    exists e, w1. unfold noWarning in Hw1. by rewrite Hw1.
Qed.

End WarnsOnce.

Lemma delete_ends {T} p (w : World T) :
  (delete_ p w).1 = Done tt \/ (delete_ p w).1 = Undefined.
Proof.
  unfold delete_. destruct p as [a|]; [|by left].
  destruct (heap w !! a); [by left | by right].
Qed.

Lemma bind_ends {T A} (m : IO T A) (k : A -> IO T unit) :
  (forall w, (exists a, (m w).1 = Done a) \/ (m w).1 = Undefined) ->
  (forall a w, (k a w).1 = Done tt \/ (k a w).1 = Undefined) ->
  forall w, ((m ≫= k) w).1 = Done tt \/ ((m ≫= k) w).1 = Undefined.
Proof.
  intros Hm Hk w. unfold mbind, IO_bind. pose proof (Hm w) as Hw.
  destruct (m w) as [[a | e1 | |] w1]; cbn [fst] in Hw;
    [apply Hk | by destruct Hw as [[? ?]|?] | by destruct Hw as [[? ?]|?] | by right].
Qed.

Lemma delete_then_ends {T} p (k : unit -> IO T unit) :
  (forall w, (k tt w).1 = Done tt \/ (k tt w).1 = Undefined) ->
  forall w, ((delete_ p ≫= k) w).1 = Done tt \/ ((delete_ p ≫= k) w).1 = Undefined.
Proof.
  intros Hk. apply bind_ends; [|by intros []].
  intros w. destruct (delete_ends p w) as [H|H]; [left; by exists tt | by right].
Qed.

Lemma deleteArrays_ends w :
  (deleteArrays w).1 = Done tt \/ (deleteArrays w).1 = Undefined.
Proof.
  revert w. unfold deleteArrays. apply bind_ends; [intros w; left; by eexists|].
  intros data. repeat apply delete_then_ends. apply delete_ends.
Qed.

Lemma deletePriors_ends w :
  (deletePriors w).1 = Done tt \/ (deletePriors w).1 = Undefined.
Proof.
  revert w. unfold deletePriors. apply bind_ends; [intros w; left; by eexists|].
  intros model. repeat apply delete_then_ends. apply delete_ends.
Qed.

(** X20. When one of the six functions returns [true], its fields ran to
    the end and it has issued no warning.  When it returns [false], one of
    the calls of its fields had returned an error code, which is not 0,
    and it has issued one warning: the text that names the function's
    aggregate, with the error code that the call returned.  When an
    exception leaves it, as the one of an allocation in [readData], it has
    issued no warning.  No error code of a call inside leaves the
    function. *)
Theorem codec_warns_once :
  warnsOnce "error writing control object" writeControl_fields writeControl /\
  warnsOnce "error reading control object" readControl_fields readControl /\
  warnsOnce "error writing data object" writeData_fields writeData /\
  warnsOnce "error reading data object" readData_fields readData /\
  warnsOnce "error writing model object" writeModel_fields writeModel /\
  warnsOnce "error reading model object" readModel_fields readModel.
Proof.
  repeat split.
  - apply (warnsOnce_atCleanup_plain "error writing control object" writeControl_fields).
    intros ws. quiet (noWarning_of_warnings (T := Control) ws).
  - apply (warnsOnce_atCleanup_plain "error reading control object" readControl_fields).
    intros ws. quiet (noWarning_of_warnings (T := Control) ws).
  - apply (warnsOnce_atCleanup_plain "error writing data object" writeData_fields).
    intros ws. quiet (noWarning_of_warnings (T := Data) ws).
  - apply (warnsOnce_atCleanup "error reading data object" readData_fields deleteArrays);
      [| |apply deleteArrays_ends];
      intros ws; quiet (noWarning_of_warnings (T := Data) ws).
  - apply (warnsOnce_atCleanup_plain "error writing model object" writeModel_fields).
    intros ws. quiet (noWarning_of_warnings (T := Model) ws).
  - apply (warnsOnce_atCleanup "error reading model object" readModel_fields deletePriors);
      [| |apply deletePriors_ends];
      intros ws; quiet (noWarning_of_warnings (T := Model) ws).
Qed.

(** *** writeModel without a prior *)

Section NullPrior.

Variable d : Model.

#[local] Abbreviation handed := (fun w : World Model => self w = d).

Lemma handed_ignoresStream : ignoresStream handed.
Proof. by intros w b Hw. Qed.

Lemma partialTriple_get_bind {A} (k : Model -> IO Model A) Q :
  partialTriple handed (k d) Q -> partialTriple handed (get ≫= k) Q.
Proof. intros Hk w Hw. unfold mbind, IO_bind, get. rewrite Hw. by apply Hk. Qed.

(** A read through NULL. *)
Lemma partialTriple_load_null {A B} (f : Block -> IO Model A) (k : A -> IO Model B) Q :
  partialTriple handed ((load None ≫= f) ≫= k) Q.
Proof. by intros w Hw. Qed.

End NullPrior.

Ltac null_prior_step :=
  first
    [ apply partialTriple_load_null
    | apply partialTriple_bind; [|intros ?]
    | apply partialTriple_writeBytes; apply handed_ignoresStream
    | apply partialTriple_load
    | apply partialTriple_ret
    | apply partialTriple_undefined
    | match goal with
      | |- partialTriple _ (match ?x with _ => _ end) _ => destruct x
      | |- partialTriple _ (let '(_, _) := ?x in _) _ => destruct x
      end ].

(** X19. A [writeModel] that is handed a [Model] one of whose three priors is
    NULL does not return [true], whatever the other members and the room
    in the sink: it reads the members of each prior through the pointer,
    without a test. *)
Theorem writeModel_needs_priors (w : World Model) :
  treePrior (self w) = None \/ endNodeModel (self w) = None \/
  sigmaSqPrior (self w) = None ->
  (writeModel w).1 <> Done true.
Proof.
  intros Hnull.
  assert (Hfields : partialTriple (fun w' => self w' = self w) writeModel_fields
                      (fun _ _ => False)).
  { unfold writeModel_fields. apply partialTriple_get_bind.
    unfold loadCGMPrior, loadMeanNormalModel, loadChiSquaredPrior,
      ext_bio_writeDouble, ext_bio_writeNChars.
    destruct Hnull as [-> | [-> | ->]]; repeat null_prior_step. }
  specialize (Hfields w eq_refl). unfold writeModel, atCleanup.
  destruct (writeModel_fields w) as [[a | e | |] w']; [done| |done..].
  destruct Hfields as [He _]. cbn [isUndefined isThrown errorCodeOf].
  rewrite (proj2 (Z.eqb_neq e 0) He). done.
Qed.

Lemma writeModel_needs_priors_witness :
  (writeModel (mkWorld model_null (mkBinaryIO [] [] 100) ∅ [] 1000 1000)).1 <> Done true.
Proof.
  apply (writeModel_needs_priors (mkWorld model_null (mkBinaryIO [] [] 100) ∅ [] 1000 1000)).
  by left.
Defined.

(** *** readModel on a Model that has priors *)

Lemma run_readDouble_short {T} (s : T) un wr rm h ws mem stk :
  (length un < 8)%nat ->
  ext_bio_readDouble (mkWorld s (mkBinaryIO un wr rm) h ws mem stk)
  = (Failed EIO, mkWorld s (mkBinaryIO un wr rm) h ws mem stk).
Proof.
  intros Hshort. unfold ext_bio_readDouble, fmap, IO_fmap, mbind, IO_bind, readBytes.
  cbn [bio unread]. by rewrite (proj2 (Nat.leb_gt _ _)) by lia.
Qed.

Ltac run_deletePriors :=
  lazy beta iota zeta delta
    [atCleanup when_ isUndefined isThrown errorCodeOf deletePriors delete_
     mbind IO_bind mret IO_ret get ext_issueWarning
     self bio heap warnings memory stack unread written room
     treePrior endNodeModel sigmaSqPrior negb EIO Z.eqb Pos.eqb].

(** X22. A [readModel] that is handed a [Model] with three priors and a stream
    that ends before the first probability returns [false] and has deleted
    the three priors of the caller: a failure deletes whatever the
    members lead to, not only what [readModel] allocated. *)
Theorem readModel_deletes_priors_handed_in (w : World Model) (a1 a2 a3 : nat)
    (b1 b2 b3 : Block) :
  treePrior (self w) = Some a1 -> endNodeModel (self w) = Some a2 ->
  sigmaSqPrior (self w) = Some a3 ->
  heap w !! a1 = Some b1 -> heap w !! a2 = Some b2 -> heap w !! a3 = Some b3 ->
  a1 <> a2 -> a1 <> a3 -> a2 <> a3 ->
  (length (unread (bio w)) < 8)%nat ->
  readModel w
  = (Done false,
     mkWorld (self w) (bio w) (delete a1 (delete a2 (delete a3 (heap w))))
       (warnings w ++ [("error reading model object"%string, EIO)])
       (memory w + arrayBytes b3 + arrayBytes b2 + arrayBytes b1) (stack w)).
Proof.
  intros Hp1 Hp2 Hp3 Hl1 Hl2 Hl3 H12 H13 H23 Hshort.
  destruct w as [[m1 m2 m3 m4 p1 p2 p3] [un wr rm] h ws mem stk].
  cbn [self bio heap warnings unread treePrior endNodeModel sigmaSqPrior] in *.
  subst p1 p2 p3.
  run_model. rewrite run_readDouble_short by done.
  run_deletePriors. rewrite Hl3.
  run_deletePriors. rewrite lookup_delete_ne, Hl2 by done.
  run_deletePriors. rewrite !lookup_delete_ne, Hl1 by done.
  run_deletePriors. reflexivity.
Qed.

Lemma readModel_deletes_priors_handed_in_witness :
  readModel world_with_priors
  = (Done false,
     mkWorld model_with_priors (mkBinaryIO [] [] 100)
       (delete 1%nat (delete 2%nat (delete 3%nat heap_with_priors)))
       [("error reading model object"%string, EIO)] 1000 1000).
Proof.
  apply (readModel_deletes_priors_handed_in world_with_priors 1 2 3
           (CGMPriorObject 5 6) (MeanNormalModelObject 7) (ChiSquaredPriorObject 8 9));
    try reflexivity; try lia.
  simpl. lia.
Defined.

(** *** readModel and the priors it allocates *)

Section ReadModel.

Variable h0 : gmap nat Block.

#[local] Abbreviation failingModel := (fun (_ : Z) w => exists owned, priorsOwned h0 owned w).

Lemma priorsAre_ext owned m m' :
  treePrior m' = treePrior m -> endNodeModel m' = endNodeModel m ->
  sigmaSqPrior m' = sigmaSqPrior m ->
  priorsAre owned m -> priorsAre owned m'.
Proof.
  intros H1 H2 H3. unfold priorsAre. rewrite H1, H2, H3. done.
Qed.

Lemma priorBeingRead_owned K a owned w :
  priorBeingRead h0 K a owned w -> priorsOwned h0 (a :: owned) w.
Proof.
  intros (Hp & b & h' & Hh & Hfree & Ha & _). split; [done|].
  simpl. by exists b, h'.
Qed.

(** What either predicate is to a read from the stream. *)
Lemma priorsOwned_read owned :
  ignoresStream (priorsOwned h0 owned) /\
  forall w, priorsOwned h0 owned w -> failingModel EIO w.
Proof. split; [by intros w b | by intros w Hw; exists owned]. Qed.

Lemma priorBeingRead_read K a owned :
  ignoresStream (priorBeingRead h0 K a owned) /\
  forall w, priorBeingRead h0 K a owned w -> failingModel EIO w.
Proof.
  split; [by intros w b|].
  intros w Hw. exists (a :: owned). by apply (priorBeingRead_owned K).
Qed.

Lemma step_readDouble (P : World Model -> Prop) :
  ignoresStream P /\ (forall w, P w -> failingModel EIO w) ->
  triple P ext_bio_readDouble (fun _ => P) failingModel.
Proof. intros [HP HE]. by apply (triple_read P failingModel HP). Qed.

Lemma step_readTag (P : World Model -> Prop) :
  ignoresStream P /\ (forall w, P w -> failingModel EIO w) ->
  triple P (ext_bio_readNChars 4) (fun _ => P) failingModel.
Proof. intros [HP HE]. by apply (triple_read P failingModel HP). Qed.

(** The comparison of the four bytes read with the tag expected. *)
Lemma step_compareTag (P : World Model -> Prop) priorName tag :
  (forall w, P w -> failingModel EIO w) ->
  triple P (if strncmp_differs priorName tag then fail EILSEQ else mret tt)
    (fun _ => P) failingModel.
Proof.
  intros HE. destruct (strncmp_differs priorName tag).
  - apply triple_fail; [done|]. intros w Hw. by apply HE.
  - by apply triple_ret.
Qed.

(** A probability: a member that is not a pointer. *)
Lemma step_probability owned (f : Model -> Model) :
  (forall m, treePrior (f m) = treePrior m /\ endNodeModel (f m) = endNodeModel m /\
             sigmaSqPrior (f m) = sigmaSqPrior m) ->
  triple (priorsOwned h0 owned) (modify f) (fun _ => priorsOwned h0 owned) failingModel.
Proof.
  intros Hf. apply triple_modify_keeps. intros w [Hp Ha]. split; [|done].
  destruct (Hf (self w)) as (H1 & H2 & H3). by apply (priorsAre_ext owned (self w)).
Qed.

(** [model.member = new ...] for a member that is still NULL, followed by
    what reads the members of the new prior. *)
Lemma step_newPrior {A} owned (set : pointer -> Model -> Model) (K : Block -> Prop) b
    (k : pointer -> IO Model A) Q :
  K b ->
  (forall a m, priorsAre owned m -> priorsAre (a :: owned) (set (Some a) m)) ->
  (forall a, triple (priorBeingRead h0 K a owned) (k (Some a)) Q failingModel) ->
  triple (priorsOwned h0 owned) (p ← new b; modify (set p);; k p) Q failingModel.
Proof.
  intros HK Hset Hk w [Hp Ha].
  unfold mbind, IO_bind, new, modify. simpl.
  apply (Hk (fresh (dom (heap w)))). split; [by apply Hset|].
  exists b, (heap w). split; [done|]. split; [apply lookup_fresh|]. by split.
Qed.

(** The members of the prior that was allocated last, for the members
    that the read does not set. *)
Lemma step_loadCGMPrior a owned :
  triple (priorBeingRead h0 isCGMPrior a owned) (loadCGMPrior (Some a))
    (fun _ => priorBeingRead h0 isCGMPrior a owned) failingModel.
Proof.
  intros w Hw. pose proof Hw as (Hp & b & h' & Hh & Hfree & Ha & HK).
  unfold loadCGMPrior, mbind, IO_bind, load. simpl. rewrite Hh, lookup_insert_eq.
  destruct b; done.
Qed.

Lemma step_loadChiSquaredPrior a owned :
  triple (priorBeingRead h0 isChiSquaredPrior a owned) (loadChiSquaredPrior (Some a))
    (fun _ => priorBeingRead h0 isChiSquaredPrior a owned) failingModel.
Proof.
  intros w Hw. pose proof Hw as (Hp & b & h' & Hh & Hfree & Ha & HK).
  unfold loadChiSquaredPrior, mbind, IO_bind, load. simpl. rewrite Hh, lookup_insert_eq.
  destruct b; done.
Qed.

(** A store into the prior that was allocated last. *)
Lemma step_storePrior (K : Block -> Prop) a owned b :
  K b ->
  triple (priorBeingRead h0 K a owned) (store (Some a) b)
    (fun _ => priorBeingRead h0 K a owned) failingModel.
Proof.
  intros HK w (Hp & b0 & h' & Hh & Hfree & Ha & _).
  unfold store. rewrite Hh, lookup_insert_eq.
  split; [done|]. exists b, h'. simpl. split; [by rewrite insert_insert_eq|]. auto.
Qed.

Ltac model_step :=
  eapply triple_bind;
  [ first
      [ apply step_readDouble; first [apply priorsOwned_read | apply priorBeingRead_read]
      | apply step_readTag; first [apply priorsOwned_read | apply priorBeingRead_read]
      | apply step_compareTag; first [apply priorsOwned_read | apply priorBeingRead_read]
      | by apply step_probability
      | apply step_loadCGMPrior
      | apply step_loadChiSquaredPrior
      | by apply step_storePrior ]
  | intros ? ].

Lemma readModel_fields_spec :
  triple (priorsOwned h0 []) readModel_fields
    (fun _ w => exists a1 a2 a3, priorsOwned h0 [a3; a2; a1] w) failingModel.
Proof.
  unfold readModel_fields.
  (* the four probabilities and the tag of the tree prior *)
  do 10 model_step.
  apply (step_newPrior [] set_treePrior isCGMPrior); [done | by intros ? ? (?&?&?) |].
  intros q1.
  model_step. model_step.
  match goal with x : (double_bits * double_bits)%type |- _ => destruct x end.
  model_step.
  model_step. model_step.
  match goal with x : (double_bits * double_bits)%type |- _ => destruct x end.
  model_step.
  (* the end-node model *)
  do 2 model_step.
  eapply triple_consequence with (P' := priorsOwned h0 [q1]);
    [|apply (priorBeingRead_owned isCGMPrior)|intros ? ? H'; exact H'|intros ? ? H'; exact H'].
  apply (step_newPrior [q1] set_endNodeModel isMeanNormalModel);
    [done | by intros ? ? (?&?&?) |].
  intros q2.
  do 2 model_step.
  (* the prior of the variance *)
  do 2 model_step.
  eapply triple_consequence with (P' := priorsOwned h0 [q2; q1]);
    [|apply (priorBeingRead_owned isMeanNormalModel)
     |intros ? ? H'; exact H'|intros ? ? H'; exact H'].
  apply (step_newPrior [q2; q1] set_sigmaSqPrior isChiSquaredPrior);
    [done | by intros ? ? (?&?&?) |].
  intros q3.
  model_step. model_step.
  match goal with x : (double_bits * double_bits)%type |- _ => destruct x end.
  model_step.
  model_step. model_step.
  match goal with x : (double_bits * double_bits)%type |- _ => destruct x end.
  eapply triple_consequence;
    [by apply (step_storePrior isChiSquaredPrior) | by intros w Hw | | by intros e w Hw].
  intros ? w Hw. exists q1, q2, q3. by apply (priorBeingRead_owned isChiSquaredPrior).
Qed.

(** What the priors allocated are to the heap of the call. *)
Lemma allocated_spec owned : forall h,
  allocated h0 owned h ->
  NoDup owned /\
  (forall a, a ∈ owned -> h0 !! a = None /\ is_Some (h !! a)) /\
  (forall a, a ∉ owned -> h !! a = h0 !! a) /\
  foldr (fun a h => delete a h) h (rev owned) = h0.
Proof.
  induction owned as [|a owned IH]; intros h; simpl.
  - intros ->. split; [constructor|]. split; [by intros a ?%elem_of_nil|]. done.
  - intros (b & h' & -> & Hfree & Ha).
    destruct (IH h' Ha) as (Hnd & Hin & Hout & Hdel).
    assert (Hnot : a ∉ owned).
    { intros Hel. destruct (Hin a Hel) as [_ [? Hl]]. congruence. }
    split; [by constructor|]. split; [|split].
    + intros a' [-> | Hel]%elem_of_cons.
      * split; [by rewrite <- Hout | by rewrite lookup_insert_eq].
      * destruct (Hin a' Hel) as [Hn Hl]. split; [done|].
        rewrite lookup_insert_ne; [done | by intros ->].
    + intros a' Hn. apply not_elem_of_cons in Hn as [Hne Hn].
      rewrite lookup_insert_ne by done. by apply Hout.
    + rewrite foldr_app. simpl. rewrite delete_insert_eq, (delete_id _ _ Hfree). done.
Qed.

Lemma deletePriors_spec :
  triple (fun w => exists owned, priorsOwned h0 owned w) deletePriors
    (fun _ w => heap w = h0 /\ noPriorReachable w) (fun _ _ => False).
Proof.
  intros w (owned & Hp & Ha).
  destruct (allocated_spec owned (heap w) Ha) as (Hnd & Hin & Hout & Hdel).
  assert (Hreach : forall a h, h = h0 -> a ∈ owned -> h !! a = None).
  { intros a h -> Hel. by destruct (Hin a Hel). }
  destruct w as [[m1 m2 m3 m4 p1 p2 p3] bio_ h ws mem stk].
  cbn [self heap priorsOwned priorsAre treePrior endNodeModel sigmaSqPrior] in *.
  destruct owned as [|x1 [|x2 [|x3 [|? ?]]]]; simpl in Hp; [| | | |done];
    destruct Hp as (-> & -> & ->); simpl in Ha, Hdel.
  - subst h. run_deletePriors. split; [done|]. by intros a [|[|]].
  - destruct Ha as (b1 & h1 & -> & Hf1 & ->).
    run_deletePriors. rewrite lookup_insert_eq.
    split; [by rewrite delete_insert_eq, delete_id|].
    intros x [[= <-]|[|]]; try done. cbn [heap]. apply Hreach; [|by repeat constructor].
    by rewrite delete_insert_eq, delete_id.
  - destruct Ha as (b1 & h1 & -> & Hf1 & b2 & h2 & -> & Hf2 & ->).
    run_deletePriors. rewrite lookup_insert_eq.
    run_deletePriors. rewrite delete_insert_eq, (delete_id _ _ Hf1), lookup_insert_eq.
    rewrite delete_insert_eq, (delete_id _ _ Hf2).
    split; [done|]. intros x [[= <-]|[[= <-]|]]; try done; cbn [heap];
      (apply Hreach; [done | by repeat constructor]).
  - destruct Ha as (b1 & h1 & -> & Hf1 & b2 & h2 & -> & Hf2 & b3 & h3 & -> & Hf3 & ->).
    run_deletePriors. rewrite lookup_insert_eq.
    run_deletePriors. rewrite delete_insert_eq, (delete_id _ _ Hf1), lookup_insert_eq.
    run_deletePriors. rewrite delete_insert_eq, (delete_id _ _ Hf2), lookup_insert_eq.
    rewrite delete_insert_eq, (delete_id _ _ Hf3).
    split; [done|]. intros x [[= <-]|[[= <-]|[= <-]]]; cbn [heap];
      (apply Hreach; [done | by repeat constructor]).
Qed.

Lemma readModel_spec :
  triple (priorsOwned h0 []) readModel
    (fun ok w => if ok then exists a1 a2 a3, priorsOwned h0 [a3; a2; a1] w
                 else heap w = h0 /\ noPriorReachable w)
    (fun _ _ => False).
Proof.
  eapply triple_atCleanup; [exact readModel_fields_spec | |].
  - apply triple_when; [done|]. by intros _ w [_ Hw].
  - intros e He. apply triple_when; [|by rewrite (proj2 (Z.eqb_neq e 0) He)]. intros _.
    eapply triple_bind; [apply deletePriors_spec|]. intros ?.
    by apply triple_issueWarning.
Qed.

End ReadModel.

(** X21. A [readModel] that is handed a [Model] without priors meets no
    undefined behaviour, whatever the stream holds.  When it returns
    [false], at whichever field it failed, it has deleted every prior that
    it allocated: the heap is the heap of the call and no member leads to
    a live prior.  When it returns [true], the three members lead to three
    priors of their own that were not in the heap of the call, and the
    heap is otherwise as it was. *)
Theorem readModel_owns_or_frees (w : World Model) :
  treePrior (self w) = None -> endNodeModel (self w) = None ->
  sigmaSqPrior (self w) = None ->
  match readModel w with
  | (Done true, w') =>
      exists a1 a2 a3,
        treePrior (self w') = Some a1 /\ endNodeModel (self w') = Some a2 /\
        sigmaSqPrior (self w') = Some a3 /\
        NoDup [a3; a2; a1] /\
        (forall a, a ∈ [a3; a2; a1] -> heap w !! a = None /\ is_Some (heap w' !! a)) /\
        (forall a, a ∉ [a3; a2; a1] -> heap w' !! a = heap w !! a)
  | (Done false, w') => heap w' = heap w /\ noPriorReachable w'
  | _ => False
  end.
Proof.
  intros H1 H2 H3.
  pose proof (readModel_spec (heap w) w (conj (conj H1 (conj H2 H3)) eq_refl)) as H.
  destruct (readModel w) as [[[] | e | |] w']; [| done | by destruct H..].
  destruct H as (a1 & a2 & a3 & (Hp1 & Hp2 & Hp3) & Ha).
  destruct (allocated_spec (heap w) _ _ Ha) as (Hnd & Hin & Hout & _).
  by exists a1, a2, a3.
Qed.

Lemma readModel_owns_or_frees_witness :
  match readModel world_bad_tag with
  | (Done true, w') =>
      exists a1 a2 a3,
        treePrior (self w') = Some a1 /\ endNodeModel (self w') = Some a2 /\
        sigmaSqPrior (self w') = Some a3 /\
        NoDup [a3; a2; a1] /\
        (forall a, a ∈ [a3; a2; a1] ->
           heap world_bad_tag !! a = None /\ is_Some (heap w' !! a)) /\
        (forall a, a ∉ [a3; a2; a1] -> heap w' !! a = heap world_bad_tag !! a)
  | (Done false, w') => heap w' = heap world_bad_tag /\ noPriorReachable w'
  | _ => False
  end.
Proof.
  apply (readModel_owns_or_frees world_bad_tag); reflexivity.
Defined.

(** *** readData and the arrays it allocates *)

(** X23. A [readData] that is handed a [Data] without arrays and returns
    [true] has left every member that is not NULL leading to an array of
    its own that was not in the heap of the call, and has left the heap
    otherwise as it was: no two members share an array, and none leads to
    an array that the caller had.  The same holds of the arrays allocated
    so far when an allocation throws, in which case the call does not
    return and the arrays are not deleted.  The call is undefined only
    where the stack does not have the storage of the type tags. *)
Theorem readData_owns_arrays (w : World Data) :
  (forall f, getArray f (self w) = None) ->
  match readData w with
  | (Done true, w') =>
      (forall f a, getArray f (self w') = Some a ->
         heap w !! a = None /\ is_Some (heap w' !! a)) /\
      (forall f g a, getArray f (self w') = Some a -> getArray g (self w') = Some a ->
         f = g) /\
      (forall a, (forall f, getArray f (self w') <> Some a) -> heap w' !! a = heap w !! a)
  | (Done false, _) => True
  | (Failed _, _) => False
  | (Thrown, w') =>
      (forall f a, getArray f (self w') = Some a ->
         heap w !! a = None /\ is_Some (heap w' !! a)) /\
      (forall f g a, getArray f (self w') = Some a -> getArray g (self w') = Some a ->
         f = g) /\
      (forall a, (forall f, getArray f (self w') <> Some a) -> heap w' !! a = heap w !! a)
  | (Undefined, w') => stackExhausted w'
  end.
Proof.
  intros Hnull.
  assert (Hown : arraysOwned allArrays (heap w) w).
  { split; [by intros f _|]. split; [|split; [|done]].
    - intros f a Hf. by rewrite Hnull in Hf.
    - intros f g a Hf. by rewrite Hnull in Hf. }
  pose proof (readData_fields_spec (heap w) w Hown) as Hfields.
  unfold readData, atCleanup.
  destruct (readData_fields w) as [[a | e | |] w1]; cbn [isUndefined isThrown errorCodeOf].
  - change (negb (0 =? 0)) with false. cbn [when_]. unfold mbind, IO_bind, mret, IO_ret.
    cbn [Z.eqb]. by destruct Hfields as (_ & ? & ? & ?).
  - destruct Hfields as [He Hw1]. rewrite (proj2 (Z.eqb_neq e 0) He). cbn [negb when_].
    pose proof (deleteArrays_spec (heap w) (self w1) w1 (conj eq_refl Hw1)) as Hdel.
    unfold mbind, IO_bind.
    destruct (deleteArrays w1) as [[[] | e' | |] w2]; [|by destruct Hdel|done..].
    by unfold ext_issueWarning, mret, IO_ret.
  - by destruct Hfields as (_ & ? & ? & ?).
  - done.
Qed.

Lemma readData_owns_arrays_witness :
  (readData_of (written (bio (writeData world_with_maxNumCuts).2))).1 = Done true /\
  match readData_of (written (bio (writeData world_with_maxNumCuts).2)) with
  | (Done true, w') =>
      (forall f a, getArray f (self w') = Some a ->
         (∅ : gmap nat Block) !! a = None /\ is_Some (heap w' !! a)) /\
      (forall f g a, getArray f (self w') = Some a -> getArray g (self w') = Some a ->
         f = g) /\
      (forall a, (forall f, getArray f (self w') <> Some a) ->
         heap w' !! a = (∅ : gmap nat Block) !! a)
  | (Done false, _) => True
  | (Failed _, _) => False
  | (Thrown, w') =>
      (forall f a, getArray f (self w') = Some a ->
         (∅ : gmap nat Block) !! a = None /\ is_Some (heap w' !! a)) /\
      (forall f g a, getArray f (self w') = Some a -> getArray g (self w') = Some a ->
         f = g) /\
      (forall a, (forall f, getArray f (self w') <> Some a) ->
         heap w' !! a = (∅ : gmap nat Block) !! a)
  | (Undefined, w') => stackExhausted w'
  end.
Proof.
  split; [vm_compute; reflexivity|].
  apply (readData_owns_arrays
           (mkWorld data_null
              (mkBinaryIO (written (bio (writeData world_with_maxNumCuts).2)) [] 0) ∅ []
              1000 1000)).
  by intros [].
Defined.

(** ** The round trip of [Data] *)

Lemma length_encodeDoubles d : length (encodeDoubles d) = (8 * length d)%nat.
Proof.
  unfold encodeDoubles. induction d as [|v d IH]; [done|].
  cbn [fmap list_fmap concat]. rewrite length_app, length_encodeBE.
  change (length (concat (encodeBE 8 <$> d)) = (8 * length d)%nat) in IH.
  rewrite IH. simpl. lia.
Qed.

Lemma length_encodeUInt32s u : length (encodeUInt32s u) = (4 * length u)%nat.
Proof.
  unfold encodeUInt32s. induction u as [|v u IH]; [done|].
  cbn [fmap list_fmap concat]. rewrite length_app, length_encodeBE.
  change (length (concat (encodeBE 4 <$> u)) = (4 * length u)%nat) in IH.
  rewrite IH. simpl. lia.
Qed.

Lemma chunks_concat width vs :
  Forall (fun v => 0 <= v < 256 ^ Z.of_nat width) vs ->
  decodeBE <$> chunks width (length vs) (concat (encodeBE width <$> vs)) = vs.
Proof.
  induction 1 as [|v vs Hv _ IH]; [done|].
  cbn [length chunks fmap list_fmap concat].
  rewrite take_app_length' by (by rewrite length_encodeBE).
  rewrite drop_app_length' by (by rewrite length_encodeBE).
  rewrite decodeBE_encodeBE by done.
  f_equal. exact IH.
Qed.

Lemma VariableType_of_uint32_of (ts : list VariableType) :
  VariableType_of_uint32 <$> (uint32_of_VariableType <$> ts) = ts.
Proof. induction ts as [|[] ts IH]; [done| |]; cbn; by f_equal. Qed.

Lemma uint32_of_VariableType_wf (ts : list VariableType) :
  Forall uint32_wf (uint32_of_VariableType <$> ts).
Proof. induction ts as [|[] ts IH]; constructor; try done; unfold uint32_wf; simpl; lia. Qed.

Lemma hasFlag_dataFlagsOf d :
  0 <= dataFlagsOf d < 2 ^ 32 /\
  hasFlag (dataFlagsOf d) DATA_HAS_WEIGHTS = negb (isNull (weights d)) /\
  hasFlag (dataFlagsOf d) DATA_HAS_OFFSET = negb (isNull (offset d)) /\
  hasFlag (dataFlagsOf d) DATA_HAS_TEST_OFFSET = negb (isNull (testOffset d)) /\
  hasFlag (dataFlagsOf d) DATA_HAS_MAX_NUM_CUTS = negb (isNull (maxNumCuts d)).
Proof.
  unfold dataFlagsOf.
  destruct (weights d), (offset d), (testOffset d), (maxNumCuts d);
    vm_compute; repeat split; congruence.
Qed.

Section DataRuns.

Context {T : Type}.
Implicit Types P R : World T -> Prop.

Lemma runs_bind {A B} P (m : IO T A) (k : A -> IO T B) M Q :
  runs P m M -> (forall a, runs (M a) (k a) Q) -> runs P (m ≫= k) Q.
Proof.
  intros Hm Hk w HP. destruct (Hm w HP) as (a & w1 & Hrun & HR).
  destruct (Hk a w1 HR) as (b & w2 & Hrun2 & HQ).
  exists b, w2. split; [|done]. unfold mbind, IO_bind. by rewrite Hrun.
Qed.

(** A call that returns the value [v]. *)
Lemma runs_value {A B} P (m : IO T A) v (k : A -> IO T B) R Q :
  runs P m (fun a w => a = v /\ R w) -> runs R (k v) Q -> runs P (m ≫= k) Q.
Proof.
  intros Hm Hk. eapply runs_bind; [exact Hm|]. intros a w [-> HR]. by apply Hk.
Qed.

Lemma runs_seq {B} P (m : IO T unit) (k : unit -> IO T B) R Q :
  runs P m (fun _ => R) -> runs R (k tt) Q -> runs P (m ≫= k) Q.
Proof. intros Hm Hk. eapply runs_bind; [exact Hm|]. by intros []. Qed.

Lemma runs_post {A} P (m : IO T A) Q Q' :
  runs P m Q -> (forall a w, Q a w -> Q' a w) -> runs P m Q'.
Proof.
  intros Hm HQ w HP. destruct (Hm w HP) as (a & w' & Hrun & Hq).
  exists a, w'. split; [done|]. by apply HQ.
Qed.

(** The function returns [true] when its fields run to the end. *)
Lemma runs_atCleanup P (fields : IO T unit) (cleanup : Z -> IO T unit) Q :
  runs P fields Q -> cleanup 0 = mret tt ->
  forall w, P w -> exists w', atCleanup fields cleanup w = (Done true, w') /\ Q tt w'.
Proof.
  intros Hm Hc w HP. destruct (Hm w HP) as ([] & w' & Hrun & Hq).
  exists w'. split; [|done]. unfold atCleanup. rewrite Hrun.
  cbn [isUndefined isThrown errorCodeOf]. rewrite Hc. reflexivity.
Qed.

End DataRuns.

(** *** What [writeData] writes *)

Section Writing.

Variables (d : Data) (h : gmap nat Block) (total : nat) (stk : Z).

Lemma writing_get {B} out (k : Data -> IO Data B) Q :
  runs (writing d h total stk out) (k d) Q -> runs (writing d h total stk out) (get ≫= k) Q.
Proof.
  intros Hk w HP. destruct (Hk w HP) as (b & w' & Hrun & HQ).
  exists b, w'. split; [|done]. unfold mbind, IO_bind, get.
  destruct HP as [Hd _]. by rewrite Hd.
Qed.

Lemma writing_bytes out bs :
  (length out + length bs <= total)%nat ->
  runs (writing d h total stk out) (writeBytes bs) (fun _ => writing d h total stk (out ++ bs)).
Proof.
  intros Hlen w (Hd & Hh & Hout & Hroom & Hstk). exists tt. eexists. split.
  - unfold writeBytes. cbv zeta. rewrite (proj2 (Nat.leb_le _ _)) by lia. reflexivity.
  - repeat split; cbn [self heap bio written room stack]; [done|done|by rewrite Hout| |done].
    rewrite length_app. lia.
Qed.

(** The storage of the type tags, which the stack has. *)
Lemma writing_stackAllocate out p :
  4 * Z.of_nat p <= stk ->
  runs (writing d h total stk out) (ext_stackAllocate p 4) (fun _ => writing d h total stk out).
Proof.
  intros Hp w HP. exists tt, w. split; [|done].
  destruct HP as (_ & _ & _ & _ & Hstk). unfold ext_stackAllocate.
  by rewrite Hstk, (proj2 (Z.leb_le _ _)).
Qed.

Lemma writing_loadDoubles out p n ys :
  doublesAt h p n = Some ys ->
  runs (writing d h total stk out) (loadDoubles p n)
    (fun a w => a = ys /\ writing d h total stk out w).
Proof.
  intros Hat w HP. exists ys, w. split; [|done].
  destruct HP as (_ & Hh & _). unfold doublesAt in Hat. unfold loadDoubles.
  destruct (n =? 0)%nat; [by injection Hat as <-|].
  lazy beta delta [mbind IO_bind load]. cbv beta. rewrite Hh.
  change (option_bind nat Block (fun a => h !! a) p) with (p ≫= (fun a => h !! a)).
  destruct (p ≫= _) as [[a| | | | |]|]; try done.
  destruct (n <=? length a)%nat; [|done]. by injection Hat as <-.
Qed.

Lemma writing_loadUInt32s out p n us :
  uint32sAt h p n = Some us ->
  runs (writing d h total stk out) (loadUInt32s p n)
    (fun a w => a = us /\ writing d h total stk out w).
Proof.
  intros Hat w HP. exists us, w. split; [|done].
  destruct HP as (_ & Hh & _). unfold uint32sAt in Hat. unfold loadUInt32s.
  destruct (n =? 0)%nat; [by injection Hat as <-|].
  lazy beta delta [mbind IO_bind load]. cbv beta. rewrite Hh.
  change (option_bind nat Block (fun a => h !! a) p) with (p ≫= (fun a => h !! a)).
  destruct (p ≫= _) as [[a|a|a| | |]|]; try done.
  destruct (n <=? length a)%nat; [|done]. by injection Hat as <-.
Qed.

Lemma writing_loadVariableTypes out p n ts :
  variableTypesAt h p n = Some ts ->
  runs (writing d h total stk out) (loadVariableTypes p n)
    (fun a w => a = ts /\ writing d h total stk out w).
Proof.
  intros Hat w HP. exists ts, w. split; [|done].
  destruct HP as (_ & Hh & _). unfold variableTypesAt in Hat. unfold loadVariableTypes.
  destruct (n =? 0)%nat; [by injection Hat as <-|].
  lazy beta delta [mbind IO_bind load]. cbv beta. rewrite Hh.
  change (option_bind nat Block (fun a => h !! a) p) with (p ≫= (fun a => h !! a)).
  destruct (p ≫= _) as [[a|a|a| | |]|]; try done.
  destruct (n <=? length a)%nat; [|done]. by injection Hat as <-.
Qed.

Lemma writing_doubles out p n ys :
  doublesAt h p n = Some ys ->
  (length out + length (encodeDoubles ys) <= total)%nat ->
  runs (writing d h total stk out) (loadDoubles p n ≫= ext_bio_writeNDoubles)
    (fun _ => writing d h total stk (out ++ encodeDoubles ys)).
Proof.
  intros Hat Hlen. eapply runs_value; [by apply writing_loadDoubles|].
  by apply writing_bytes.
Qed.

Lemma writing_optional out present p n oys :
  optionalAt h present p n = Some oys ->
  (length out + length (encodeDoubles (default [] oys)) <= total)%nat ->
  runs (writing d h total stk out) (when_ present (loadDoubles p n ≫= ext_bio_writeNDoubles))
    (fun _ => writing d h total stk (out ++ encodeDoubles (default [] oys))).
Proof.
  unfold optionalAt, when_. destruct present.
  - destruct (doublesAt h p n) as [ys|] eqn:Hat; [|done].
    intros [= <-] Hlen. by apply writing_doubles.
  - intros [= <-] _ w HP. exists tt, w. split; [done|].
    cbn. by rewrite app_nil_r.
Qed.

End Writing.

Lemma dataFields_Some w f :
  dataFields w = Some f ->
  let data := self w in
  let h := heap w in
  let n := Z.to_nat (numObservations data) in
  let p := Z.to_nat (numPredictors data) in
  let nt := Z.to_nat (numTestObservations data) in
  let np := Z.to_nat (size_mul (numObservations data) (numPredictors data)) in
  let ntp := Z.to_nat (size_mul (numTestObservations data) (numPredictors data)) in
  the_scalars f = dataScalars data /\
  doublesAt h (y data) n = Some (the_y f) /\
  doublesAt h (X data) np = Some (the_X f) /\
  optionalAt h (0 <? numTestObservations data) (X_test data) ntp = Some (the_X_test f) /\
  optionalAt h (negb (isNull (weights data))) (weights data) n = Some (the_weights f) /\
  optionalAt h (negb (isNull (offset data))) (offset data) n = Some (the_offset f) /\
  optionalAt h (negb (isNull (testOffset data))) (testOffset data) nt
  = Some (the_testOffset f) /\
  variableTypesAt h (variableTypes data) p = Some (the_variableTypes f) /\
  (if isNull (maxNumCuts data) then Some None
   else Some <$> uint32sAt h (maxNumCuts data) p) = Some (the_maxNumCuts f).
Proof.
  unfold dataFields. cbv zeta.
  destruct (doublesAt _ (y _) _) as [y_|]; [|done].
  destruct (doublesAt _ (X _) _) as [X_|]; [|done].
  destruct (optionalAt _ _ (X_test _) _) as [X_test_|]; [|done].
  destruct (optionalAt _ _ (weights _) _) as [weights_|]; [|done].
  destruct (optionalAt _ _ (offset _) _) as [offset_|]; [|done].
  destruct (optionalAt _ _ (testOffset _) _) as [testOffset_|]; [|done].
  destruct (variableTypesAt _ _ _) as [variableTypes_|]; [|done].
  destruct (if isNull _ then _ else _) as [maxNumCuts_|]; [|done].
  cbn [mbind option_bind]. by intros [= <-].
Qed.

Lemma doublesAt_length h p n ys : doublesAt h p n = Some ys -> length ys = n.
Proof.
  unfold doublesAt. destruct (n =? 0)%nat eqn:Hn.
  - intros [= <-]. by apply Nat.eqb_eq in Hn.
  - destruct (p ≫= _) as [[a| | | | |]|]; try done.
    destruct (n <=? length a)%nat eqn:Hle; [|done]. intros [= <-].
    apply Nat.leb_le in Hle. rewrite length_take. lia.
Qed.

Lemma uint32sAt_length h p n us : uint32sAt h p n = Some us -> length us = n.
Proof.
  unfold uint32sAt. destruct (n =? 0)%nat eqn:Hn.
  - intros [= <-]. by apply Nat.eqb_eq in Hn.
  - destruct (p ≫= _) as [[a|a|a| | |]|]; try done.
    destruct (n <=? length a)%nat eqn:Hle; [|done]. intros [= <-].
    apply Nat.leb_le in Hle. rewrite length_take. lia.
Qed.

Lemma variableTypesAt_length h p n ts : variableTypesAt h p n = Some ts -> length ts = n.
Proof.
  unfold variableTypesAt. destruct (n =? 0)%nat eqn:Hn.
  - intros [= <-]. by apply Nat.eqb_eq in Hn.
  - destruct (p ≫= _) as [[a|a|a| | |]|]; try done.
    destruct (n <=? length a)%nat eqn:Hle; [|done]. intros [= <-].
    apply Nat.leb_le in Hle. rewrite length_take. lia.
Qed.

(** The bytes written so far and the next ones fit the sink. *)
Ltac fits_sink := rewrite ?length_app; cbn [length]; lia.

Lemma writeData_fields_runs w f :
  dataFields w = Some f ->
  (maxNumCuts (self w) = None -> numPredictors (self w) = 0) ->
  let stream := encodeData (dataFlagsOf (self w)) f in
  (length stream <= room (bio w))%nat ->
  dataStack f <= stack w ->
  runs (writing (self w) (heap w) (room (bio w)) (stack w) []) writeData_fields
    (fun _ => writing (self w) (heap w) (room (bio w)) (stack w) stream).
Proof.
  intros Hf Hcuts stream Hroom Hstack. subst stream.
  apply dataFields_Some in Hf. cbv zeta in Hf.
  destruct Hf as (Hs & Hy & HX & HXt & Hw & Ho & Hto & Hvt & Hmnc).
  unfold dataStack in Hstack.
  rewrite (variableTypesAt_length _ _ _ _ Hvt) in Hstack.
  assert (Hcuts' : uint32sAt (heap w) (maxNumCuts (self w))
                     (Z.to_nat (numPredictors (self w)))
                   = Some (default [] (the_maxNumCuts f))).
  { destruct (maxNumCuts (self w)) as [a|] eqn:Ha; cbn [isNull] in Hmnc.
    - destruct (uint32sAt _ _ _) as [us|]; [|done]. by injection Hmnc as <-.
    - injection Hmnc as <-. by rewrite Hcuts. }
  clear Hmnc Hcuts.
  unfold encodeData in *. rewrite Hs in *. unfold dataScalars in *.
  set (d := self w) in *. set (h := heap w) in *. set (total := room (bio w)) in *.
  set (stk := stack w) in *.
  clearbody d h total stk. clear w Hs.
  repeat rewrite length_app in Hroom.
  unfold writeData_fields. apply writing_get. cbv zeta.
  unfold ext_bio_writeUnsigned32BitInteger, ext_bio_writeSizeType, ext_bio_writeDouble.
  eapply runs_seq; [apply writing_bytes; fits_sink|].
  eapply runs_seq; [apply writing_bytes; fits_sink|].
  eapply runs_seq; [apply writing_bytes; fits_sink|].
  eapply runs_seq; [apply writing_bytes; fits_sink|].
  eapply runs_seq; [apply writing_bytes; fits_sink|].
  eapply runs_seq; [apply (writing_doubles _ _ _ _ _ _ _ _ Hy); fits_sink|].
  eapply runs_seq; [apply (writing_doubles _ _ _ _ _ _ _ _ HX); fits_sink|].
  eapply runs_seq; [apply (writing_optional _ _ _ _ _ _ _ _ _ HXt); fits_sink|].
  eapply runs_seq; [apply (writing_optional _ _ _ _ _ _ _ _ _ Hw); fits_sink|].
  eapply runs_seq; [apply (writing_optional _ _ _ _ _ _ _ _ _ Ho); fits_sink|].
  eapply runs_seq; [apply (writing_optional _ _ _ _ _ _ _ _ _ Hto); fits_sink|].
  eapply runs_seq; [by apply writing_stackAllocate|].
  eapply runs_value; [apply (writing_loadVariableTypes _ _ _ _ _ _ _ _ Hvt)|].
  eapply runs_seq;
    [apply writing_bytes; fold (encodeUInt32s (uint32_of_VariableType <$> the_variableTypes f));
     fits_sink|].
  eapply runs_value; [apply (writing_loadUInt32s _ _ _ _ _ _ _ _ Hcuts')|].
  eapply runs_post;
    [apply writing_bytes;
     fold (encodeUInt32s (uint32_of_VariableType <$> the_variableTypes f));
     fold (encodeUInt32s (default [] (the_maxNumCuts f)));
     fits_sink|].
  intros ? w. cbv beta.
  fold (encodeUInt32s (uint32_of_VariableType <$> the_variableTypes f)).
  fold (encodeUInt32s (default [] (the_maxNumCuts f))).
  by rewrite <- !app_assoc.
Qed.

(** *** What [readData] reads *)

Lemma run_readNDoubles {T} ys rest (s : T) wr rm h ws mem stk :
  Forall double_wf ys ->
  ext_bio_readNDoubles (length ys)
    (mkWorld s (mkBinaryIO (encodeDoubles ys ++ rest) wr rm) h ws mem stk)
  = (Done ys, mkWorld s (mkBinaryIO rest wr rm) h ws mem stk).
Proof.
  intros Hwf. unfold ext_bio_readNDoubles.
  lazy beta delta [fmap IO_fmap mbind IO_bind].
  rewrite run_readBytes by (by rewrite length_encodeDoubles).
  lazy beta iota delta [mret IO_ret]. do 2 f_equal.
  apply (chunks_concat 8 ys), Hwf.
Qed.

Lemma run_readNUnsigned32 {T} us rest (s : T) wr rm h ws mem stk :
  Forall uint32_wf us ->
  ext_bio_readNUnsigned32BitIntegers (length us)
    (mkWorld s (mkBinaryIO (encodeUInt32s us ++ rest) wr rm) h ws mem stk)
  = (Done us, mkWorld s (mkBinaryIO rest wr rm) h ws mem stk).
Proof.
  intros Hwf. unfold ext_bio_readNUnsigned32BitIntegers.
  lazy beta delta [fmap IO_fmap mbind IO_bind].
  rewrite run_readBytes by (by rewrite length_encodeUInt32s).
  lazy beta iota delta [mret IO_ret]. do 2 f_equal.
  apply (chunks_concat 4 us), Hwf.
Qed.

Lemma run_newArray {T} b (w : World T) :
  arrayBytes b < 2 ^ 64 -> arrayBytes b <= memory w ->
  newArray b w
  = (Done (Some (fresh (dom (heap w)))),
     mkWorld (self w) (bio w) (<[fresh (dom (heap w)) := b]> (heap w)) (warnings w)
       (memory w - arrayBytes b) (stack w)).
Proof.
  intros Hsize Hmem. unfold newArray. cbv zeta.
  by rewrite (proj2 (Z.ltb_lt _ _) Hsize), (proj2 (Z.leb_le _ _) Hmem).
Qed.

Section Reading.

Variables (sc : Z * Z * Z * double_bits) (arrs : list (DataArray * option Block)).

(** A member that is assigned a new block leaves the others as they
    are. *)
Lemma arrayIs_assign g ob w g' b' bio' ws' mem' stk' :
  g <> g' -> arrayIs g ob w ->
  arrayIs g ob (mkWorld (setArray g' (Some (fresh (dom (heap w)))) (self w)) bio'
                  (<[fresh (dom (heap w)) := b']> (heap w)) ws' mem' stk').
Proof.
  intros Hne. unfold arrayIs. cbn [self heap]. rewrite getArray_setArray.
  destruct (decide (g' = g)) as [->|_]; [done|].
  destruct ob as [b|]; [|done].
  intros (a & Hg & Hlk). exists a. split; [done|].
  rewrite lookup_insert_ne; [done|]. intros <-. by rewrite lookup_fresh in Hlk.
Qed.

Lemma reading_assign s0 s g b w bio' ws' mem mem' stk :
  g ∉ arrs.*1 -> unread bio' = s -> reading s0 sc arrs mem stk w ->
  reading s sc ((g, Some b) :: arrs) mem' stk
    (mkWorld (setArray g (Some (fresh (dom (heap w)))) (self w)) bio'
       (<[fresh (dom (heap w)) := b]> (heap w)) ws' mem' stk).
Proof.
  intros Hg Hun (_ & Hsc & Harrs & _). split; [done|]. split; [done|].
  split; [|done]. constructor.
  - exists (fresh (dom (heap w))). cbn [self heap]. split.
    + rewrite getArray_setArray. by destruct (decide (g = g)).
    + by rewrite lookup_insert_eq.
  - apply Forall_forall. intros [g' ob] Hin.
    apply arrayIs_assign.
    + intros ->. apply Hg. apply list_elem_of_fmap. by exists (g, ob).
    + by apply (proj1 (Forall_forall _ _) Harrs (g', ob)).
Qed.

Lemma reading_null s g mem stk :
  g ∉ arrs.*1 ->
  runs (reading s sc arrs mem stk) (modify (setArray g None))
    (fun _ => reading s sc ((g, None) :: arrs) mem stk).
Proof.
  intros Hg w (Hun & Hsc & Harrs & Hmem). exists tt. eexists. split; [reflexivity|].
  split; [done|]. split; [done|]. split; [|done]. constructor.
  - unfold arrayIs. cbn [self]. rewrite getArray_setArray. by destruct (decide (g = g)).
  - apply Forall_forall. intros [g' ob] Hin.
    pose proof (proj1 (Forall_forall _ _) Harrs (g', ob) Hin) as Hob.
    unfold arrayIs in *. cbn [self heap]. rewrite getArray_setArray.
    destruct (decide (g = g')) as [<-|_]; [|done].
    exfalso. apply Hg. apply list_elem_of_fmap. by exists (g, ob).
Qed.

(** [data.f = new double[n]] followed by the read of the [n] doubles,
    where the allocator has the bytes of the array. *)
Lemma reading_readNewDoubles s g n ys mem stk :
  g ∉ arrs.*1 -> length ys = n -> Forall double_wf ys ->
  8 * Z.of_nat n < 2 ^ 64 -> 8 * Z.of_nat n <= mem ->
  runs (reading (encodeDoubles ys ++ s) sc arrs mem stk) (readNewDoubles g n)
    (fun _ => reading s sc ((g, Some (DoubleArray ys)) :: arrs) (mem - 8 * Z.of_nat n) stk).
Proof.
  intros Hg <- Hwf Hsize Hmem [d [un wr rm] h ws mem0 stk0] HP. exists tt. eexists.
  assert (mem0 = mem /\ stk0 = stk) as [-> ->] by (split; apply HP).
  split.
  - destruct HP as (Hun & _). cbn [bio unread] in Hun. subst un.
    unfold readNewDoubles.
    lazy beta delta [mbind IO_bind].
    rewrite run_newArray
      by (cbn [arrayBytes memory]; by rewrite length_replicate).
    lazy beta iota zeta delta [modify self bio heap warnings memory stack].
    rewrite run_readNDoubles by done.
    lazy beta iota zeta delta [store self bio heap warnings memory stack].
    rewrite lookup_insert_eq, insert_insert_eq.
    cbn [arrayBytes]. rewrite length_replicate. reflexivity.
  - exact (reading_assign _ s g _ _ (mkBinaryIO s wr rm) ws _ _ _ Hg eq_refl HP).
Qed.

Lemma reading_optional s g (b : bool) n (oys : option (list double_bits)) mem stk :
  g ∉ arrs.*1 -> match oys with Some _ => true | None => false end = b ->
  (forall l, oys = Some l -> length l = n) ->
  Forall double_wf (default [] oys) ->
  8 * Z.of_nat (length (default [] oys)) < 2 ^ 64 ->
  8 * Z.of_nat (length (default [] oys)) <= mem ->
  runs (reading (encodeDoubles (default [] oys) ++ s) sc arrs mem stk)
    (if b then readNewDoubles g n else modify (setArray g None))
    (fun _ => reading s sc ((g, DoubleArray <$> oys) :: arrs)
                (mem - 8 * Z.of_nat (length (default [] oys))) stk).
Proof.
  intros Hg <- Hlen Hwf Hsize Hmem.
  destruct oys as [ys|]; cbn [default fmap option_fmap option_map length] in *.
  - pose proof (Hlen ys eq_refl) as <-. by apply reading_readNewDoubles.
  - rewrite Z.sub_0_r. by apply reading_null.
Qed.

(** The storage of the type tags, which the stack has. *)
Lemma reading_stackAllocate {B} s p mem stk (k : unit -> IO Data B) Q :
  4 * Z.of_nat p <= stk ->
  runs (reading s sc arrs mem stk) (k tt) Q ->
  runs (reading s sc arrs mem stk) (ext_stackAllocate p 4 ≫= k) Q.
Proof.
  intros Hp Hk w HP. destruct (Hk w HP) as (b & w' & Hrun & HQ).
  exists b, w'. split; [|done]. rewrite <- Hrun.
  destruct HP as (_ & _ & _ & _ & Hstk).
  unfold mbind, IO_bind, ext_stackAllocate. by rewrite Hstk, (proj2 (Z.leb_le _ _)).
Qed.

Lemma reading_variableTypes {B} s g p ts mem stk (k : unit -> IO Data B) Q :
  g ∉ arrs.*1 -> length ts = p ->
  4 * Z.of_nat p < 2 ^ 64 -> 4 * Z.of_nat p <= mem ->
  runs (reading s sc ((g, Some (VariableTypeArray ts)) :: arrs) (mem - 4 * Z.of_nat p) stk)
    (k tt) Q ->
  runs (reading (encodeUInt32s (uint32_of_VariableType <$> ts) ++ s) sc arrs mem stk)
    (ext_bio_readNUnsigned32BitIntegers p ≫= fun variableTypes =>
     newArray (VariableTypeArray (VariableType_of_uint32 <$> variableTypes)) ≫= fun q =>
     modify (setArray g q) ≫= k) Q.
Proof.
  intros Hg <- Hsize Hmem Hk [d [un wr rm] h ws mem0 stk0] HP.
  assert (mem0 = mem /\ stk0 = stk) as [-> ->] by (split; apply HP).
  assert (Hun : un = encodeUInt32s (uint32_of_VariableType <$> ts) ++ s) by apply HP.
  subst un.
  eapply (reading_assign _ s g (VariableTypeArray ts) _ (mkBinaryIO s wr rm) ws
            _ (mem - 4 * Z.of_nat (length ts))) in HP; [|done..].
  destruct (Hk _ HP) as (b & w' & Hrun & HQ). exists b, w'. split; [|done].
  rewrite <- Hrun.
  lazy beta delta [mbind IO_bind].
  rewrite <- (length_fmap uint32_of_VariableType ts).
  rewrite run_readNUnsigned32 by apply uint32_of_VariableType_wf.
  lazy beta iota.
  rewrite VariableType_of_uint32_of, ?length_fmap.
  rewrite run_newArray by done.
  reflexivity.
Qed.

Lemma reading_maxNumCuts s g (b : bool) p (ous : option (list Z)) mem stk :
  g ∉ arrs.*1 -> match ous with Some _ => true | None => false end = b ->
  (forall l, ous = Some l -> length l = p) ->
  Forall uint32_wf (default [] ous) ->
  4 * Z.of_nat (length (default [] ous)) < 2 ^ 64 ->
  4 * Z.of_nat (length (default [] ous)) <= mem ->
  runs (reading (encodeUInt32s (default [] ous) ++ s) sc arrs mem stk)
    (if b
     then
       q ← newArray (UInt32Array (replicate p 0));
       modify (setArray g q);;
       u ← ext_bio_readNUnsigned32BitIntegers p;
       store q (UInt32Array u)
     else modify (setArray g None))
    (fun _ => reading s sc ((g, UInt32Array <$> ous) :: arrs)
                (mem - 4 * Z.of_nat (length (default [] ous))) stk).
Proof.
  intros Hg <- Hlen Hwf Hsize Hmem.
  destruct ous as [us|]; cbn [default fmap option_fmap option_map length] in *.
  - specialize (Hlen us eq_refl). subst p.
    intros [d [un wr rm] h ws mem0 stk0] HP. exists tt. eexists.
    assert (mem0 = mem /\ stk0 = stk) as [-> ->] by (split; apply HP).
    split.
    + destruct HP as (Hun & _). cbn [bio unread] in Hun. subst un.
      lazy beta delta [mbind IO_bind].
      rewrite run_newArray
        by (cbn [arrayBytes memory]; by rewrite length_replicate).
      lazy beta iota zeta delta [modify self bio heap warnings memory stack].
      rewrite run_readNUnsigned32 by done.
      lazy beta iota zeta delta [store self bio heap warnings memory stack].
      rewrite lookup_insert_eq, insert_insert_eq.
      cbn [arrayBytes]. rewrite length_replicate. reflexivity.
    + exact (reading_assign _ s g _ _ (mkBinaryIO s wr rm) ws _ _ _ Hg eq_refl HP).
  - rewrite Z.sub_0_r. by apply reading_null.
Qed.

(** The flags and a size or the estimate. *)
Lemma reading_flags {B} s v mem stk (k : Z -> IO Data B) Q :
  0 <= v < 2 ^ 32 ->
  runs (reading s sc arrs mem stk) (k v) Q ->
  runs (reading (encodeBE 4 v ++ s) sc arrs mem stk)
    (((fun u => nth 0 u 0) <$> ext_bio_readNUnsigned32BitIntegers 1) ≫= k) Q.
Proof.
  intros Hv Hk [d [un wr rm] h ws mem0 stk0] HP.
  assert (Hun : un = encodeUInt32s [v] ++ s).
  { unfold encodeUInt32s. cbn [fmap list_fmap concat]. rewrite app_nil_r. apply HP. }
  subst un.
  assert (HP' : reading s sc arrs mem stk (mkWorld d (mkBinaryIO s wr rm) h ws mem0 stk0)).
  { split; [done|]. apply HP. }
  destruct (Hk _ HP') as (b & w' & Hrun & HQ). exists b, w'. split; [|done].
  rewrite <- Hrun.
  lazy beta iota zeta delta [mbind IO_bind fmap IO_fmap].
  rewrite (run_readNUnsigned32 [v]) by (by apply Forall_singleton).
  reflexivity.
Qed.

End Reading.

Lemma reading_scalar {B} arrs sc sc' s v mem stk (set : Z -> Data -> Data)
    (k : unit -> IO Data B) Q :
  0 <= v < 2 ^ 64 ->
  (forall d, dataScalars d = sc -> dataScalars (set v d) = sc') ->
  (forall d g, getArray g (set v d) = getArray g d) ->
  runs (reading s sc' arrs mem stk) (k tt) Q ->
  runs (reading (encodeBE 8 v ++ s) sc arrs mem stk)
    ((decodeBE <$> readBytes 8) ≫= fun v => modify (set v) ≫= k) Q.
Proof.
  intros Hv Hsc Harr Hk [d [un wr rm] h ws mem0 stk0] (Hun & Hd & Harrs & Hmem).
  cbn [bio unread self] in Hun, Hd. subst un.
  assert (HP' : reading s sc' arrs mem stk
                  (mkWorld (set v d) (mkBinaryIO s wr rm) h ws mem0 stk0)).
  { split; [done|]. split; [by apply Hsc|]. split; [|done].
    apply Forall_forall. intros [g ob] Hin.
    pose proof (proj1 (Forall_forall _ _) Harrs (g, ob) Hin) as Hob.
    unfold arrayIs in *. cbn [self heap] in *. by rewrite Harr. }
  destruct (Hk _ HP') as (b & w' & Hrun & HQ). exists b, w'. split; [|done].
  rewrite <- Hrun.
  lazy beta iota zeta delta [mbind IO_bind].
  rewrite (run_readWidth 8 v) by done.
  reflexivity.
Qed.

Lemma reading_get {B} arrs sc s mem stk (k : Data -> IO Data B) Q :
  (forall d, dataScalars d = sc -> runs (reading s sc arrs mem stk) (k d) Q) ->
  runs (reading s sc arrs mem stk) (get ≫= k) Q.
Proof.
  intros Hk w HP. destruct (Hk (self w) (proj1 (proj2 HP)) w HP) as (b & w' & Hrun & HQ).
  by exists b, w'.
Qed.

(** *** What the arrays hold *)

Lemma optionalAt_Some h present p n oys :
  optionalAt h present p n = Some oys ->
  match oys with Some _ => true | None => false end = present /\
  (forall l, oys = Some l -> length l = n).
Proof.
  unfold optionalAt. destruct present.
  - destruct (doublesAt h p n) as [ys|] eqn:Hat; [|done]. intros [= <-].
    split; [done|]. intros l [= <-]. by apply doublesAt_length in Hat.
  - by intros [= <-].
Qed.

Lemma doublesAt_exact h a ys n :
  h !! a = Some (DoubleArray ys) -> length ys = n -> doublesAt h (Some a) n = Some ys.
Proof.
  intros Hlk <-. unfold doublesAt. destruct (length ys =? 0)%nat eqn:Hn.
  - apply Nat.eqb_eq in Hn. by destruct ys.
  - cbn [mbind option_bind]. rewrite Hlk, Nat.leb_refl. by rewrite firstn_all.
Qed.

Lemma uint32sAt_exact h a us n :
  h !! a = Some (UInt32Array us) -> length us = n -> uint32sAt h (Some a) n = Some us.
Proof.
  intros Hlk <-. unfold uint32sAt. destruct (length us =? 0)%nat eqn:Hn.
  - apply Nat.eqb_eq in Hn. by destruct us.
  - cbn [mbind option_bind]. rewrite Hlk, Nat.leb_refl. by rewrite firstn_all.
Qed.

Lemma variableTypesAt_exact h a ts n :
  h !! a = Some (VariableTypeArray ts) -> length ts = n ->
  variableTypesAt h (Some a) n = Some ts.
Proof.
  intros Hlk <-. unfold variableTypesAt. destruct (length ts =? 0)%nat eqn:Hn.
  - apply Nat.eqb_eq in Hn. by destruct ts.
  - cbn [mbind option_bind]. rewrite Hlk, Nat.leb_refl. by rewrite firstn_all.
Qed.

Lemma optionalAt_of_arrayIs g (oys : option (list double_bits)) w present n :
  arrayIs g (DoubleArray <$> oys) w ->
  match oys with Some _ => true | None => false end = present ->
  (forall l, oys = Some l -> length l = n) ->
  optionalAt (heap w) present (getArray g (self w)) n = Some oys.
Proof.
  intros Hg <- Hlen. unfold optionalAt. destruct oys as [ys|]; [|done].
  destruct Hg as (a & -> & Hlk). by rewrite (doublesAt_exact _ _ ys) by auto.
Qed.

Lemma present_of_arrayIs {A} g (block : A -> Block) (o : option A) w :
  arrayIs g (block <$> o) w ->
  match o with Some _ => true | None => false end = negb (isNull (getArray g (self w))).
Proof. destruct o as [v|]; [intros (a & -> & _)|intros ->]; done. Qed.

Lemma dataFields_of_reading rest n p nt sigma ys xs oxt ow oo oto vts omnc mem stk w :
  reading rest (n, p, nt, sigma)
    [(Array_maxNumCuts, UInt32Array <$> omnc);
     (Array_variableTypes, Some (VariableTypeArray vts));
     (Array_testOffset, DoubleArray <$> oto);
     (Array_offset, DoubleArray <$> oo);
     (Array_weights, DoubleArray <$> ow);
     (Array_X_test, DoubleArray <$> oxt);
     (Array_X, Some (DoubleArray xs));
     (Array_y, Some (DoubleArray ys))] mem stk w ->
  length ys = Z.to_nat n -> length xs = Z.to_nat (size_mul n p) ->
  match oxt with Some _ => true | None => false end = (0 <? nt) ->
  (forall l, oxt = Some l -> length l = Z.to_nat (size_mul nt p)) ->
  (forall l, ow = Some l -> length l = Z.to_nat n) ->
  (forall l, oo = Some l -> length l = Z.to_nat n) ->
  (forall l, oto = Some l -> length l = Z.to_nat nt) ->
  length vts = Z.to_nat p ->
  (forall l, omnc = Some l -> length l = Z.to_nat p) ->
  unread (bio w) = rest /\ memory w = mem /\
  dataFields w = Some (mkDataFields (n, p, nt, sigma) ys xs oxt ow oo oto vts omnc).
Proof.
  intros (Hun & Hsc & Harrs & Hmem & _) Hly Hlx Hxt Hlxt Hlw Hlo Hlto Hlvt Hlmnc.
  split; [done|]. split; [done|].
  apply Forall_cons in Harrs as [Hmnc Harrs]. apply Forall_cons in Harrs as [Hvt Harrs].
  apply Forall_cons in Harrs as [Hto Harrs]. apply Forall_cons in Harrs as [Ho Harrs].
  apply Forall_cons in Harrs as [Hw Harrs]. apply Forall_cons in Harrs as [HXt Harrs].
  apply Forall_cons in Harrs as [HX Harrs]. apply Forall_cons in Harrs as [Hy _].
  unfold dataFields, dataScalars. cbv zeta.
  unfold dataScalars in Hsc. injection Hsc as Hn Hp Hnt Hsigma.
  rewrite Hn, Hp, Hnt, Hsigma.
  destruct Hy as (ay & Hay & Hy). destruct HX as (ax & Hax & HX).
  destruct Hvt as (avt & Havt & Hvt). cbn [getArray] in Hay, Hax, Havt.
  rewrite Hay, Hax, Havt.
  rewrite (doublesAt_exact _ _ ys _ Hy Hly), (doublesAt_exact _ _ xs _ HX Hlx).
  rewrite (variableTypesAt_exact _ _ vts _ Hvt Hlvt).
  pose proof (optionalAt_of_arrayIs Array_X_test oxt w _ _ HXt Hxt Hlxt) as E1.
  pose proof (optionalAt_of_arrayIs Array_weights ow w _ _ Hw
                (present_of_arrayIs _ _ _ _ Hw) Hlw) as E2.
  pose proof (optionalAt_of_arrayIs Array_offset oo w _ _ Ho
                (present_of_arrayIs _ _ _ _ Ho) Hlo) as E3.
  pose proof (optionalAt_of_arrayIs Array_testOffset oto w _ _ Hto
                (present_of_arrayIs _ _ _ _ Hto) Hlto) as E4.
  cbn [getArray] in E1, E2, E3, E4. rewrite E1, E2, E3, E4.
  cbn [mbind option_bind].
  destruct omnc as [us|].
  - destruct Hmnc as (a & Ha & Hlk). cbn [getArray] in Ha. rewrite Ha. cbn [isNull].
    by rewrite (uint32sAt_exact _ _ us) by auto.
  - cbn in Hmnc. by rewrite Hmnc.
Qed.

(** The member is not one of those already assigned. *)
Ltac not_assigned :=
  cbn [fmap list_fmap fst];
  let H := fresh in
  intros H; repeat (apply elem_of_cons in H as [H|H]; [discriminate H|]);
  by apply elem_of_nil in H.

Lemma readData_fields_runs w f sc0 rest mem stk :
  dataFields w = Some f -> DataFields_wf f ->
  dataBytes f < 2 ^ 64 -> dataBytes f <= mem -> dataStack f <= stk ->
  runs (reading (encodeData (dataFlagsOf (self w)) f ++ rest) sc0 [] mem stk) readData_fields
    (fun _ w2 => unread (bio w2) = rest /\ memory w2 = mem - dataBytes f /\
                 dataFields w2 = Some f).
Proof.
  intros Hf Hwf Hsize Hmem Hstk.
  pose proof (hasFlag_dataFlagsOf (self w)) as (Hfl & Hfw & Hfo & Hfto & Hfmnc).
  apply dataFields_Some in Hf. cbv zeta in Hf.
  destruct Hf as (Hs & Hy & HX & HXt & Hw & Ho & Hto & Hvt & Hmnc).
  apply doublesAt_length in Hy, HX. apply variableTypesAt_length in Hvt.
  apply optionalAt_Some in HXt as [HXt HlXt], Hw as [Hw Hlw], Ho as [Ho Hlo],
    Hto as [Hto Hlto].
  rewrite <- Hfw in Hw. rewrite <- Hfo in Ho. rewrite <- Hfto in Hto.
  assert (Hcuts : match the_maxNumCuts f with Some _ => true | None => false end
                  = hasFlag (dataFlagsOf (self w)) DATA_HAS_MAX_NUM_CUTS /\
                  forall l, the_maxNumCuts f = Some l ->
                    length l = Z.to_nat (numPredictors (self w))).
  { rewrite Hfmnc. destruct (isNull (maxNumCuts (self w))).
    - by injection Hmnc as <-.
    - destruct (uint32sAt _ _ _) as [us|] eqn:Hat; [|done]. injection Hmnc as <-.
      split; [done|]. intros l [= <-]. by apply uint32sAt_length in Hat. }
  destruct Hcuts as [Hcuts Hlcuts]. clear Hmnc Hfw Hfo Hfto Hfmnc.
  set (flags := dataFlagsOf (self w)) in *. clearbody flags.
  unfold DataFields_wf, encodeData, dataBytes, dataStack in *.
  destruct f as [[[[n p] nt] sigma] ys xs oxt ow oo oto vts omnc].
  cbn [the_scalars the_y the_X the_X_test the_weights the_offset the_testOffset
       the_variableTypes the_maxNumCuts] in *.
  unfold dataScalars in Hs. injection Hs as Hn Hp Hnt Hsigma.
  rewrite <- Hn, <- Hp, <- Hnt in *. clear Hn Hp Hnt Hsigma w.
  destruct Hwf as (Hwn & Hwp & Hwnt & Hwsigma & Hwy & HwX & HwXt & Hww & Hwo & Hwto & Hwmnc).
  destruct sc0 as [[[n0 p0] nt0] sigma0].
  rewrite <- !app_assoc.
  unfold readData_fields.
  apply reading_flags; [done|].
  unfold ext_bio_readSizeType, ext_bio_readDouble.
  apply (reading_scalar [] (n0, p0, nt0, sigma0) (n, p0, nt0, sigma0) _ n _ _
           set_numObservations); [done| |done|].
  { intros d [= _ <- <- <-]. reflexivity. }
  apply (reading_scalar [] (n, p0, nt0, sigma0) (n, p, nt0, sigma0) _ p _ _
           set_numPredictors); [done| |done|].
  { intros d [= <- _ <- <-]. reflexivity. }
  apply (reading_scalar [] (n, p, nt0, sigma0) (n, p, nt, sigma0) _ nt _ _
           set_numTestObservations); [done| |done|].
  { intros d [= <- <- _ <-]. reflexivity. }
  apply (reading_scalar [] (n, p, nt, sigma0) (n, p, nt, sigma) _ sigma _ _
           set_sigmaEstimate); [done| |done|].
  { intros d [= <- <- <- _]. reflexivity. }
  apply reading_get. intros d [= Hn Hp Hnt Hsigma]. cbv zeta. rewrite Hn, Hp, Hnt.
  rewrite <- Hy, <- HX, <- Hvt.
  eapply runs_seq; [apply reading_readNewDoubles; [not_assigned|done|done|lia..]|].
  eapply runs_seq; [apply reading_readNewDoubles; [not_assigned|done|done|lia..]|].
  eapply runs_seq; [apply reading_optional; [not_assigned|done|done|done|lia..]|].
  eapply runs_seq; [apply reading_optional; [not_assigned|done|by rewrite Hy|done|lia..]|].
  eapply runs_seq; [apply reading_optional; [not_assigned|done|by rewrite Hy|done|lia..]|].
  eapply runs_seq; [apply reading_optional; [not_assigned|done|done|done|lia..]|].
  apply reading_stackAllocate; [lia|].
  apply reading_variableTypes; [not_assigned|done|lia..|].
  eapply runs_post;
    [apply reading_maxNumCuts; [not_assigned|done|by rewrite Hvt|done|lia..]|].
  intros ? w2 HR. cbv beta in HR.
  apply (dataFields_of_reading rest n p nt sigma ys xs oxt ow oo oto vts omnc) in HR;
    [|by rewrite ?Hy, ?HX, ?Hvt..].
  destruct HR as (Hrest & Hmem2 & Hf2). split; [done|]. split; [|done].
  rewrite Hmem2. lia.
Qed.

(** X24. The round trip of [Data]: what [writeData] writes of a [Data] whose
    arrays are long enough, and that has [maxNumCuts] unless it has no
    predictor, into a sink with room for it, [readData] reads back into
    any [Data]: the sizes and the estimate, the entries of every array, in
    arrays that it allocates, and NULL for each optional array that the
    [Data] written did not have.  The stack has the storage of the type
    tags at either call, and the allocator the bytes of the arrays, of
    which the read leaves it the rest. *)
Theorem data_round_trip (w : World Data) (f : DataFields) (d0 : Data) (rest wr : list byte)
    (rm : nat) (h : gmap nat Block) (ws : list (string * Z)) (mem stk : Z) :
  dataFields w = Some f -> DataFields_wf f ->
  (maxNumCuts (self w) = None -> numPredictors (self w) = 0) ->
  written (bio w) = [] ->
  (length (encodeData (dataFlagsOf (self w)) f) <= room (bio w))%nat ->
  dataStack f <= stack w -> dataStack f <= stk ->
  dataBytes f < 2 ^ 64 -> dataBytes f <= mem ->
  exists w1 w2,
    writeData w = (Done true, w1) /\
    written (bio w1) = encodeData (dataFlagsOf (self w)) f /\
    readData (mkWorld d0 (mkBinaryIO (written (bio w1) ++ rest) wr rm) h ws mem stk)
    = (Done true, w2) /\
    dataFields w2 = Some f /\ unread (bio w2) = rest /\ memory w2 = mem - dataBytes f.
Proof.
  intros Hf Hwf Hcuts Hwr Hroom Hstack Hstk Hsize Hmem.
  assert (exists w1, writeData w = (Done true, w1) /\
            writing (self w) (heap w) (room (bio w)) (stack w)
              (encodeData (dataFlagsOf (self w)) f) w1) as (w1 & Hwrite & Hw1).
  { unfold writeData.
    apply (runs_atCleanup (writing (self w) (heap w) (room (bio w)) (stack w) []) _ _
             (fun _ => writing (self w) (heap w) (room (bio w)) (stack w)
                         (encodeData (dataFlagsOf (self w)) f))).
    - by apply writeData_fields_runs.
    - reflexivity.
    - split; [done|]. split; [done|]. split; [done|]. split; [|done]. simpl. lia. }
  destruct Hw1 as (_ & _ & Hout & _).
  assert (exists w2,
            readData (mkWorld d0 (mkBinaryIO (written (bio w1) ++ rest) wr rm) h ws mem stk)
            = (Done true, w2) /\
            unread (bio w2) = rest /\ memory w2 = mem - dataBytes f /\
            dataFields w2 = Some f) as (w2 & Hread & Hrest & Hmem2 & Hf2).
  { unfold readData.
    apply (runs_atCleanup
             (reading (encodeData (dataFlagsOf (self w)) f ++ rest) (dataScalars d0) []
                mem stk) _ _
             (fun _ w2 => unread (bio w2) = rest /\ memory w2 = mem - dataBytes f /\
                          dataFields w2 = Some f)).
    - by apply readData_fields_runs.
    - reflexivity.
    - split; [by rewrite Hout|]. split; [done|]. split; [constructor|done]. }
  by exists w1, w2.
Qed.

Lemma data_round_trip_witness :
  exists w1 w2,
    writeData world_with_weights = (Done true, w1) /\
    written (bio w1) = encodeData (dataFlagsOf (self world_with_weights)) fields_with_weights /\
    readData (mkWorld data_null (mkBinaryIO (written (bio w1) ++ [1]) [] 0) ∅ [] 1000 1000)
    = (Done true, w2) /\
    dataFields w2 = Some fields_with_weights /\ unread (bio w2) = [1] /\
    memory w2 = 1000 - dataBytes fields_with_weights.
Proof.
  apply (data_round_trip world_with_weights fields_with_weights data_null [1] [] 0 ∅ []
           1000 1000).
  - reflexivity.
  - unfold DataFields_wf, double_wf, uint32_wf. simpl.
    repeat split; try lia; repeat constructor; lia.
  - discriminate.
  - reflexivity.
  - vm_compute. lia.
  - vm_compute. discriminate.
  - vm_compute. discriminate.
  - vm_compute. reflexivity.
  - vm_compute. discriminate.
Defined.
End BinaryIOFacts.
